(** * Streaming buffering pipeline of native_client/deepspeech.cc

    A shallow embedding of [StreamingState] and of the functions that move
    audio samples through [audio_buffer], [mfcc_buffer] and [batch_buffer]
    into the acoustic model, followed by the properties of the pipeline.

    - [unsigned int] values are integers in [Z]; every subtraction or
      product the source computes in [unsigned int] is wrapped by [u32].
    - [float] values are IEEE binary32 numbers ([spec_float] at precision 24).
    - [std::vector<float>] is [list float32]; [size] is its length in [Z].
    - The feature extractor ([csf_mfcc]), the TensorFlow session
      ([Session::Run]) and the CTC decoder are collaborators whose code is
      not part of the file: they are variables of the section.
    - [assert], undefined behaviour and non-termination are the three
      faults of the [result] type; loops carry fuel.
    - An [int] counter that is compared with an unsigned bound and
      incremented past [INT_MAX] is undefined behaviour: the counters of
      [infer], of the padding loop of [finishStream] and of
      [DS_AudioToInputVector]. *)

From Stdlib Require Import String ZArith List Bool Lia Arith.
From Stdlib Require Import Floats.SpecFloat.
Import ListNotations.
Open Scope Z_scope.

(** ** Machine integers and vectors *)

Definition u32 (z : Z) : Z := z mod 2 ^ 32.

Definition INT_MAX : Z := 2 ^ 31 - 1.

Definition size {A : Type} (l : list A) : Z := Z.of_nat (length l).

(** ** binary32 floats *)

Definition float32 : Type := spec_float.

Definition f32_zero : float32 := S754_zero false.

(** Conversion of an integer to [float], round to nearest even. *)
Definition f32_of_Z (z : Z) : float32 := binary_normalize 24 128 z 0 false.

Definition f32_mul : float32 -> float32 -> float32 := SFmul 24 128.
Definition f32_sub : float32 -> float32 -> float32 := SFsub 24 128.
Definition f32_div : float32 -> float32 -> float32 := SFdiv 24 128.

(** The decimal literal [n/d] written with an [f] suffix: the binary32
    number nearest to the quotient. *)
Definition f32_lit (n d : Z) : float32 := f32_div (f32_of_Z n) (f32_of_Z d).

(** The cast [(unsigned int)] of a non-negative finite float: truncation. *)
Definition f32_to_uint (x : float32) : Z :=
  match x with
  | S754_finite false m e => Z.shiftl (Z.pos m) e
  | _ => 0
  end.

(** ** Constants (deepspeech.cc, lines 22-39) *)

Definition BATCH_SIZE : Z := 1.
Definition SAMPLE_RATE : Z := 16000.
Definition AUDIO_WIN_LEN : float32 := f32_lit 25 1000.
Definition AUDIO_WIN_STEP : float32 := f32_lit 1 100.
Definition AUDIO_WIN_LEN_SAMPLES : Z :=
  Eval vm_compute in f32_to_uint (f32_mul AUDIO_WIN_LEN (f32_of_Z SAMPLE_RATE)).
Definition AUDIO_WIN_STEP_SAMPLES : Z :=
  Eval vm_compute in f32_to_uint (f32_mul AUDIO_WIN_STEP (f32_of_Z SAMPLE_RATE)).
Definition MFCC_FEATURES : Z := 26.
Definition PREEMPHASIS_COEFF : float32 := Eval vm_compute in f32_lit 97 100.

(** ** Faults and the result type *)

Inductive fault : Type :=
| AssertionFailure     (* an [assert] of the source fired *)
| UndefinedBehaviour   (* out-of-range access, overflow of [int], ... *)
| OutOfFuel.           (* the loop did not end within its fuel *)

Inductive result (A : Type) : Type :=
| Ret (a : A)
| Fail (f : fault).
Arguments Ret {A} a.
Arguments Fail {A} f.

Definition bind {A B : Type} (m : result A) (k : A -> result B) : result B :=
  match m with
  | Ret a => k a
  | Fail f => Fail f
  end.

Notation "x <- m ;; k" := (bind m (fun x => k))
  (at level 100, m at next level, right associativity).

(** ** Data model *)

(** The fields of [ModelState] the streaming code reads.  [alphabet_size]
    stands for [alphabet->GetSize()]. *)
Record ModelState : Type := {
  alphabet_size : Z;
  beam_width : Z;
  n_steps : Z;
  mfcc_feats_per_timestep : Z;
  n_context : Z
}.

Record StreamingState : Type := {
  accumulated_logits : list float32;
  audio_buffer : list float32;
  last_sample : float32;
  mfcc_buffer : list float32;
  batch_buffer : list float32;
  skip_next_mfcc : bool
}.

(** What the pipeline does, in order: one event per call of
    [processAudioWindow], [pushMfccBuffer], [processMfccWindow] and of the
    session run inside [infer]. *)
Inductive event : Type :=
| EvAudioWindow (buf : list float32) (skipped : bool)
| EvPushMfcc (buf : list float32)
| EvMfccWindow (buf : list float32)
| EvInfer (input : list float32) (n_frames : Z) (ok : bool).

Definition set_accumulated_logits (st : StreamingState) (v : list float32) :=
  {| accumulated_logits := v; audio_buffer := audio_buffer st;
     last_sample := last_sample st; mfcc_buffer := mfcc_buffer st;
     batch_buffer := batch_buffer st; skip_next_mfcc := skip_next_mfcc st |}.

Definition set_audio_buffer (st : StreamingState) (v : list float32) :=
  {| accumulated_logits := accumulated_logits st; audio_buffer := v;
     last_sample := last_sample st; mfcc_buffer := mfcc_buffer st;
     batch_buffer := batch_buffer st; skip_next_mfcc := skip_next_mfcc st |}.

Definition set_mfcc_buffer (st : StreamingState) (v : list float32) :=
  {| accumulated_logits := accumulated_logits st; audio_buffer := audio_buffer st;
     last_sample := last_sample st; mfcc_buffer := v;
     batch_buffer := batch_buffer st; skip_next_mfcc := skip_next_mfcc st |}.

Definition set_batch_buffer (st : StreamingState) (v : list float32) :=
  {| accumulated_logits := accumulated_logits st; audio_buffer := audio_buffer st;
     last_sample := last_sample st; mfcc_buffer := mfcc_buffer st;
     batch_buffer := v; skip_next_mfcc := skip_next_mfcc st |}.

Definition set_skip_next_mfcc (st : StreamingState) (b : bool) :=
  {| accumulated_logits := accumulated_logits st; audio_buffer := audio_buffer st;
     last_sample := last_sample st; mfcc_buffer := mfcc_buffer st;
     batch_buffer := batch_buffer st; skip_next_mfcc := b |}.

(** [std::rotate(v.begin(), v.begin() + k, v.end())]. *)
Definition rotate {A : Type} (k : Z) (l : list A) : list A :=
  skipn (Z.to_nat k) l ++ firstn (Z.to_nat k) l.

(** [v.resize(n)]: truncation, or padding with zeros. *)
Definition resize (n : Z) (l : list float32) : list float32 :=
  firstn (Z.to_nat n) l ++ repeat f32_zero (Z.to_nat n - length l).

(** The body of the inner loop of [feedAudioContent] (lines 170-172):
    pre-emphasis of one sample. *)
Definition push_sample (st : StreamingState) (x : Z) : StreamingState :=
  let sample := f32_sub (f32_of_Z x) (f32_mul PREEMPHASIS_COEFF (last_sample st)) in
  {| accumulated_logits := accumulated_logits st;
     audio_buffer := audio_buffer st ++ [sample];
     last_sample := f32_of_Z x;
     mfcc_buffer := mfcc_buffer st;
     batch_buffer := batch_buffer st;
     skip_next_mfcc := skip_next_mfcc st |}.

(** The inner loop of [feedAudioContent] (lines 168-175): returns the state
    and the samples not yet consumed. *)
Fixpoint fill_audio_buffer (st : StreamingState) (buffer : list Z)
  : StreamingState * list Z :=
  match buffer with
  | [] => (st, [])
  | x :: rest =>
      if size (audio_buffer st) <? AUDIO_WIN_LEN_SAMPLES
      then fill_audio_buffer (push_sample st x) rest
      else (st, buffer)
  end.

(** The sizes of the buffers and the decimation toggle: what decides
    which calls the pipeline makes. *)
Record Shape : Type := {
  sh_audio : Z;
  sh_skip : bool;
  sh_mfcc : Z;
  sh_batch : Z
}.

Definition sh_set_audio (s : Shape) (a : Z) : Shape :=
  {| sh_audio := a; sh_skip := sh_skip s; sh_mfcc := sh_mfcc s; sh_batch := sh_batch s |}.
Definition sh_set_skip (s : Shape) (b : bool) : Shape :=
  {| sh_audio := sh_audio s; sh_skip := b; sh_mfcc := sh_mfcc s; sh_batch := sh_batch s |}.
Definition sh_set_mfcc (s : Shape) (m : Z) : Shape :=
  {| sh_audio := sh_audio s; sh_skip := sh_skip s; sh_mfcc := m; sh_batch := sh_batch s |}.
Definition sh_set_batch (s : Shape) (b : Z) : Shape :=
  {| sh_audio := sh_audio s; sh_skip := sh_skip s; sh_mfcc := sh_mfcc s; sh_batch := b |}.

(** An event without its data. *)
Inductive call : Type :=
| CWindow (skipped : bool)
| CPush
| CTimestep
| CInfer (n_frames : Z).

Definition call_of (e : event) : call :=
  match e with
  | EvAudioWindow _ skipped => CWindow skipped
  | EvPushMfcc _ => CPush
  | EvMfccWindow _ => CTimestep
  | EvInfer _ n _ => CInfer n
  end.

Definition calls (tr : list event) : list call := map call_of tr.

(** The frame counts of the inference calls, and the number of timesteps,
    among some calls. *)
Definition call_frames (cs : list call) : list Z :=
  flat_map (fun c => match c with CInfer n => [n] | _ => [] end) cs.

Definition call_timesteps (cs : list call) : nat :=
  length (filter (fun c => match c with CTimestep => true | _ => false end) cs).

Fixpoint eqb_list (l1 l2 : list Z) : bool :=
  match l1, l2 with
  | [], [] => true
  | x :: r1, y :: r2 => (x =? y) && eqb_list r1 r2
  | _, _ => false
  end.

Definition summary_eqb (a b : list Z * list Z * nat) : bool :=
  eqb_list (fst (fst a)) (fst (fst b))
  && eqb_list (snd (fst a)) (snd (fst b))
  && Nat.eqb (snd a) (snd b).

(** ** Collaborators for the examples

    A small configuration and simple collaborators, on which the
    statements below are run: two timesteps per batch, one frame of
    context, an alphabet of two labels. *)

Definition example_model : ModelState :=
  {| alphabet_size := 2; beam_width := 1; n_steps := 2;
     mfcc_feats_per_timestep := 78; n_context := 1 |}.

(** One frame per window: its first samples, padded with zeros. *)
Definition example_mfcc (buf : list float32) : Z * list float32 :=
  (1, map (fun i => nth i buf f32_zero) (seq 0 26)).

Definition example_logits : list float32 :=
  [f32_of_Z 1; f32_zero; f32_zero; f32_of_Z 1; f32_zero; f32_zero].

(** The session counts its runs; every run succeeds and favours label 0. *)
Definition example_Run (sess : nat) (input : list float32) (n_frames : Z)
  : nat * option (list float32) :=
  (S sess, Some example_logits).

(** As [example_Run], but the first run fails. *)
Definition flaky_Run (sess : nat) (input : list float32) (n_frames : Z)
  : nat * option (list float32) :=
  (S sess, match sess with O => None | S _ => Some example_logits end).

Definition example_initialize_state (sess : nat) : nat * bool := (O, true).

(** An engine whose runs all fail. *)
Definition failing_Run (sess : nat) (input : list float32) (n_frames : Z)
  : nat * option (list float32) :=
  (S sess, None).

(** A configuration whose batch no int can count: 82595525 timesteps of 26
    features are 2147483650 values. *)
Definition wide_model : ModelState :=
  {| alphabet_size := 2; beam_width := 1; n_steps := 82595525;
     mfcc_feats_per_timestep := 26; n_context := 0 |}.

(** A configuration whose logits no int can count: one step per batch, no
    context and an alphabet of INT_MAX labels, with an engine that returns
    as many logits as there are classes. *)
Definition wide_alphabet_model : ModelState :=
  {| alphabet_size := INT_MAX; beam_width := 1; n_steps := 1;
     mfcc_feats_per_timestep := 26; n_context := 0 |}.

Definition wide_logits : list float32 := repeat f32_zero (Z.to_nat (2 ^ 31)).

Definition wide_Run (sess : nat) (input : list float32) (n_frames : Z)
  : nat * option (list float32) :=
  (S sess, Some wide_logits).

(** A best-path CTC decoder: the most likely class of every frame, repeats
    merged, blanks dropped. *)
Fixpoint argmax_from (best : nat) (bestv : float32) (i : nat) (row : list float32) : nat :=
  match row with
  | [] => best
  | v :: rest =>
      if SFltb bestv v then argmax_from i v (S i) rest
      else argmax_from best bestv (S i) rest
  end.

Definition argmax (row : list float32) : nat :=
  match row with
  | [] => O
  | v :: rest => argmax_from O v 1%nat rest
  end.

Fixpoint merge_repeats (prev : option nat) (l : list nat) : list nat :=
  match l with
  | [] => []
  | c :: rest =>
      match prev with
      | Some p => if Nat.eqb p c then merge_repeats prev rest
                  else c :: merge_repeats (Some c) rest
      | None => c :: merge_repeats (Some c) rest
      end
  end.

Definition best_path (blank : nat) (inputs : list (list float32)) (beam : Z)
  : list (float32 * list Z) :=
  [(f32_zero,
    map Z.of_nat
        (filter (fun c => negb (Nat.eqb c blank))
                (merge_repeats None (map argmax inputs))))].

Definition example_labels (tokens : list Z) : string :=
  string_of_list_ascii
    (map (fun t => Ascii.ascii_of_nat (97 + Z.to_nat t)) tokens).

Section Pipeline.

(** *** Collaborators *)

(** The TensorFlow session with its hidden recurrent state. *)
Variable Session : Type.

(** [session->Run] on [input_node] and [input_lengths], fetching
    [logits]: the new session, and the flattened output tensor when the
    status is ok. *)
Variable Run : Session -> list float32 -> Z -> Session * option (list float32).

(** [session->Run] of the target [initialize_state]. *)
Variable initialize_state : Session -> Session * bool.

(** [csf_mfcc] on one window: the number of frames and the feature array. *)
Variable csf_mfcc : list float32 -> Z * list float32.

(** [ctc_beam_search_decoder]: candidates, best first, with their tokens. *)
Variable ctc_beam_search_decoder : list (list float32) -> Z -> list (float32 * list Z).

(** [alphabet->LabelsToString]. *)
Variable LabelsToString : list Z -> string.

Variable model : ModelState.

(** One stream, the session its model points to, and the calls so far. *)
Record Machine : Type := {
  stream : StreamingState;
  session : Session;
  trace : list event
}.

Definition set_stream (ms : Machine) (st : StreamingState) : Machine :=
  {| stream := st; session := session ms; trace := trace ms |}.

Definition log (ms : Machine) (e : event) : Machine :=
  {| stream := stream ms; session := session ms; trace := trace ms ++ [e] |}.

Definition num_classes : Z := alphabet_size model + 1.

(** *** ModelState::infer (lines 284-318) *)

(** The input tensor has [BATCH_SIZE * n_steps * (2*n_context+1) *
    MFCC_FEATURES] cells.  The first loop copies [n_frames *
    mfcc_feats_per_timestep] values of [aMfcc] into it, the second one
    writes zeros up to [n_steps * mfcc_feats_per_timestep]; both bounds are
    [unsigned int] products.  Reading past the end of [aMfcc], writing past
    the end of the tensor or leaving cells of it unwritten is undefined, and
    so is reading past the end of the output tensor.  The counter [i] of the
    two loops is an [int] compared with these [unsigned int] bounds: it ends
    at the larger of the two, [filled], and its increment overflows past
    [INT_MAX].  So does the increment of the [int] counter [t] of the last
    loop (line 315), which ends at [n_frames * BATCH_SIZE * num_classes].
    A run that fails is logged and nothing is appended (lines 308-311). *)
Definition infer (ms : Machine) (aMfcc : list float32) (n_frames : Z)
  : result Machine :=
  let tensor_size :=
    BATCH_SIZE * n_steps model * u32 (2 * n_context model + 1) * MFCC_FEATURES in
  let copied := u32 (n_frames * mfcc_feats_per_timestep model) in
  let total := u32 (n_steps model * mfcc_feats_per_timestep model) in
  let filled := Z.max copied total in
  if (copied <=? size aMfcc) && (filled =? tensor_size) && (filled <=? INT_MAX) then
    let input :=
      firstn (Z.to_nat copied) aMfcc
        ++ repeat f32_zero (Z.to_nat (total - copied)) in
    let '(sess, status) := Run (session ms) input n_frames in
    match status with
    | None =>
        Ret {| stream := stream ms; session := sess;
               trace := trace ms ++ [EvInfer input n_frames false] |}
    | Some logits_mapped =>
        let n := n_frames * BATCH_SIZE * num_classes in
        if (n <=? size logits_mapped) && (n <=? INT_MAX) then
          Ret {| stream :=
                   set_accumulated_logits (stream ms)
                     (accumulated_logits (stream ms)
                        ++ firstn (Z.to_nat n) logits_mapped);
                 session := sess;
                 trace := trace ms ++ [EvInfer input n_frames true] |}
        else Fail UndefinedBehaviour
    end
  else Fail UndefinedBehaviour.

(** *** StreamingState::processBatch (lines 278-282) *)
Definition processBatch (ms : Machine) (buf : list float32) (n_steps : Z)
  : result Machine :=
  infer ms buf n_steps.

(** *** StreamingState::processMfccWindow (lines 260-276) *)

(** One iteration of the loop per unit of fuel.  An iteration that copies
    nothing is followed by one that copies something, unless the capacity
    [n_steps * mfcc_feats_per_timestep] is zero and the loop spins: with any
    other capacity the fuel [S (length buf)] of [processMfccWindow] is
    enough ([processMfccWindow_fuel] below). *)
Fixpoint processMfccWindow_loop (fuel : nat) (ms : Machine) (buf : list float32)
  : result Machine :=
  match buf with
  | [] => Ret ms
  | _ :: _ =>
      match fuel with
      | O => Fail OutOfFuel
      | S fuel' =>
          let capacity := u32 (n_steps model * mfcc_feats_per_timestep model) in
          let st := stream ms in
          let next_copy_amount :=
            Z.min (u32 (size buf)) (u32 (capacity - size (batch_buffer st))) in
          let batch := batch_buffer st ++ firstn (Z.to_nat next_copy_amount) buf in
          let rest := skipn (Z.to_nat next_copy_amount) buf in
          let ms1 := set_stream ms (set_batch_buffer st batch) in
          if size batch <=? capacity then
            if size batch =? capacity then
              ms2 <- processBatch ms1 batch (n_steps model) ;;
              processMfccWindow_loop fuel'
                (set_stream ms2
                   (set_batch_buffer (stream ms2)
                      (resize 0 (batch_buffer (stream ms2)))))
                rest
            else processMfccWindow_loop fuel' ms1 rest
          else Fail AssertionFailure
      end
  end.

Definition processMfccWindow (ms : Machine) (buf : list float32) : result Machine :=
  processMfccWindow_loop (S (length buf)) (log ms (EvMfccWindow buf)) buf.

(** *** StreamingState::pushMfccBuffer (lines 241-258) *)

(** [buf] is the array of [len] floats.  [std::rotate] past the end of the
    vector is undefined.  The fuel [S (length buf)] of [pushMfccBuffer] is
    enough ([pushMfccBuffer_fuel] below). *)
Fixpoint pushMfccBuffer_loop (fuel : nat) (ms : Machine) (buf : list float32)
  : result Machine :=
  match buf with
  | [] => Ret ms
  | _ :: _ =>
      match fuel with
      | O => Fail OutOfFuel
      | S fuel' =>
          let st := stream ms in
          let next_copy_amount :=
            Z.min (size buf)
                  (u32 (mfcc_feats_per_timestep model - size (mfcc_buffer st))) in
          let mfcc := mfcc_buffer st ++ firstn (Z.to_nat next_copy_amount) buf in
          let rest := skipn (Z.to_nat next_copy_amount) buf in
          let ms1 := set_stream ms (set_mfcc_buffer st mfcc) in
          if size mfcc <=? mfcc_feats_per_timestep model then
            if size mfcc =? mfcc_feats_per_timestep model then
              ms2 <- processMfccWindow ms1 mfcc ;;
              if MFCC_FEATURES <=? size (mfcc_buffer (stream ms2)) then
                pushMfccBuffer_loop fuel'
                  (set_stream ms2
                     (set_mfcc_buffer (stream ms2)
                        (resize (size (mfcc_buffer (stream ms2)) - MFCC_FEATURES)
                                (rotate MFCC_FEATURES (mfcc_buffer (stream ms2))))))
                  rest
              else Fail UndefinedBehaviour
            else pushMfccBuffer_loop fuel' ms1 rest
          else Fail AssertionFailure
      end
  end.

Definition pushMfccBuffer (ms : Machine) (buf : list float32) : result Machine :=
  pushMfccBuffer_loop (S (length buf)) (log ms (EvPushMfcc buf)) buf.

(** *** StreamingState::addZeroMfccWindow (lines 234-239) *)
Definition zero_buffer : list float32 := repeat f32_zero (Z.to_nat MFCC_FEATURES).

Definition addZeroMfccWindow (ms : Machine) : result Machine :=
  pushMfccBuffer ms zero_buffer.

(** *** StreamingState::processAudioWindow (lines 214-232) *)

(** The toggle is negated, then tested.  [pushMfccBuffer] reads
    [n_frames * MFCC_FEATURES] floats of the array [csf_mfcc] returned. *)
Definition processAudioWindow (ms : Machine) (buf : list float32) : result Machine :=
  let skip := negb (skip_next_mfcc (stream ms)) in
  let ms1 := set_stream ms (set_skip_next_mfcc (stream ms) skip) in
  if negb skip then Ret (log ms1 (EvAudioWindow buf true))
  else
    let '(n_frames, mfcc) := csf_mfcc buf in
    let ms2 := log ms1 (EvAudioWindow buf false) in
    if n_frames =? 1 then
      if n_frames * MFCC_FEATURES <=? size mfcc then
        pushMfccBuffer ms2 (firstn (Z.to_nat (n_frames * MFCC_FEATURES)) mfcc)
      else Fail UndefinedBehaviour
    else Fail AssertionFailure.

(** *** StreamingState::feedAudioContent (lines 162-187) *)

(** Lines 178-183: process a full window and shift it by one step. *)
Definition process_full_window (ms : Machine) : result Machine :=
  if size (audio_buffer (stream ms)) =? AUDIO_WIN_LEN_SAMPLES then
    ms1 <- processAudioWindow ms (audio_buffer (stream ms)) ;;
    let audio := audio_buffer (stream ms1) in
    Ret (set_stream ms1
           (set_audio_buffer (stream ms1)
              (resize (size audio - AUDIO_WIN_STEP_SAMPLES)
                      (rotate AUDIO_WIN_STEP_SAMPLES audio))))
  else Ret ms.

(** The outer loop: each iteration fills the window, then processes it if
    it is full.  With more than a window of samples in [audio_buffer] no
    iteration would consume anything; otherwise the fuel of
    [feedAudioContent] is enough ([feedAudioContent_fuel] below). *)
Fixpoint feedAudioContent_loop (fuel : nat) (ms : Machine) (buffer : list Z)
  : result Machine :=
  match buffer with
  | [] => Ret ms
  | _ :: _ =>
      match fuel with
      | O => Fail OutOfFuel
      | S fuel' =>
          let '(st, rest) := fill_audio_buffer (stream ms) buffer in
          ms1 <- process_full_window (set_stream ms st) ;;
          feedAudioContent_loop fuel' ms1 rest
      end
  end.

Definition feedAudioContent (ms : Machine) (buffer : list Z) : result Machine :=
  feedAudioContent_loop (S (length buffer)) ms buffer.

(** *** ModelState::decode (lines 320-341) *)

(** The logits are cut into [n_frames] rows of [num_classes]; the widening
    of [float] to [double] is exact.  [out[0]] on an empty result is
    undefined. *)
Definition decode (logits : list float32) : result string :=
  if 0 <? BATCH_SIZE * num_classes then
    let n_frames := size logits / (BATCH_SIZE * num_classes) in
    let inputs :=
      map (fun t =>
             map (fun i => nth (t * Z.to_nat num_classes + i) logits f32_zero)
                 (seq 0 (Z.to_nat num_classes)))
          (seq 0 (Z.to_nat n_frames)) in
    match ctc_beam_search_decoder inputs (beam_width model) with
    | [] => Fail UndefinedBehaviour
    | (_, tokens) :: _ => Ret (LabelsToString tokens)
    end
  else Fail UndefinedBehaviour.

(** *** StreamingState::intermediateDecode (lines 189-193) *)
Definition intermediateDecode (ms : Machine) : result string :=
  decode (accumulated_logits (stream ms)).

(** *** StreamingState::finishStream (lines 195-212) *)

(** Lines 202-204.  The counter is an [int] compared with an
    [unsigned int]: past [INT_MAX] its increment overflows. *)
Fixpoint addZeroMfccWindows (n : nat) (ms : Machine) : result Machine :=
  match n with
  | O => Ret ms
  | S n' => ms1 <- addZeroMfccWindow ms ;; addZeroMfccWindows n' ms1
  end.

Definition add_context_padding (ms : Machine) : result Machine :=
  ms1 <- addZeroMfccWindows (Z.to_nat (Z.min (n_context model) (INT_MAX + 1))) ms ;;
  if n_context model <=? INT_MAX then Ret ms1 else Fail UndefinedBehaviour.

(** Lines 207-209. *)
Definition process_final_batch (ms : Machine) : result Machine :=
  let batch := batch_buffer (stream ms) in
  if 0 <? size batch then
    if mfcc_feats_per_timestep model =? 0 then Fail UndefinedBehaviour
    else processBatch ms batch (u32 (size batch / mfcc_feats_per_timestep model))
  else Ret ms.

Definition finishStream (ms : Machine) : result (string * Machine) :=
  ms1 <- processAudioWindow ms (audio_buffer (stream ms)) ;;
  ms2 <- add_context_padding ms1 ;;
  ms3 <- process_final_batch ms2 ;;
  text <- decode (accumulated_logits (stream ms3)) ;;
  Ret (text, ms3).

(** *** DS_SetupStream (lines 490-531) *)

(** The state built by lines 504-527; [reserve] only sets capacities. *)
Definition new_stream : StreamingState :=
  {| accumulated_logits := [];
     audio_buffer := [];
     last_sample := f32_of_Z 0;
     mfcc_buffer := resize (u32 (MFCC_FEATURES * n_context model)) [];
     batch_buffer := [];
     skip_next_mfcc := false |}.

(** [None] when the session run of line 498 fails. *)
Definition DS_SetupStream (sess : Session) : option Machine :=
  let '(sess1, ok) := initialize_state sess in
  if ok then Some {| stream := new_stream; session := sess1; trace := [] |}
  else None.

(** *** DS_FeedAudioContent, DS_IntermediateDecode, DS_FinishStream *)
Definition DS_FeedAudioContent := feedAudioContent.
Definition DS_IntermediateDecode := intermediateDecode.

(** The stream is deleted after [finishStream]: only the text and the
    session survive. *)
Definition DS_FinishStream (ms : Machine) : result (string * Session) :=
  r <- finishStream ms ;;
  Ret (fst r, session (snd r)).

(** ** Specification-level notions *)

(** Pre-emphasis of a run of samples, none of which fills the window. *)
Definition push_samples (st : StreamingState) (buffer : list Z) : StreamingState :=
  fold_left push_sample buffer st.

(** One sample through [feedAudioContent]: pre-emphasis, then the window
    is processed and shifted when it became full. *)
Definition feed_sample (ms : Machine) (x : Z) : result Machine :=
  process_full_window (set_stream ms (push_sample (stream ms) x)).

Fixpoint feed_samples (ms : Machine) (buffer : list Z) : result Machine :=
  match buffer with
  | [] => Ret ms
  | x :: rest => ms1 <- feed_sample ms x ;; feed_samples ms1 rest
  end.

(** Several [feedAudioContent] calls in a row, one per chunk. *)
Fixpoint feed_chunks (ms : Machine) (chunks : list (list Z)) : result Machine :=
  match chunks with
  | [] => Ret ms
  | c :: rest => ms1 <- feedAudioContent ms c ;; feed_chunks ms1 rest
  end.

(** The machine of a stream that was just set up on the session [sess]. *)
Definition start (sess : Session) : Machine :=
  {| stream := new_stream; session := sess; trace := [] |}.

(** The input tensor [infer] builds from [n_frames] timesteps: the frames,
    then zeros up to [n_steps] timesteps. *)
Definition infer_input (aMfcc : list float32) (n_frames : Z) : list float32 :=
  firstn (Z.to_nat (n_frames * mfcc_feats_per_timestep model)) aMfcc
    ++ repeat f32_zero
         (Z.to_nat (n_steps model * mfcc_feats_per_timestep model
                    - n_frames * mfcc_feats_per_timestep model)).

(** What [finishStream] does to the buffers, before it decodes. *)
Definition finish_pipeline (ms : Machine) : result Machine :=
  ms1 <- processAudioWindow ms (audio_buffer (stream ms)) ;;
  ms2 <- add_context_padding ms1 ;;
  process_final_batch ms2.

(** A configuration as [DS_CreateModel] derives it from a graph whose
    input node has shape [batch, n_steps, 2*n_context+1, MFCC_FEATURES]. *)
Definition wf_model : Prop :=
  0 <= alphabet_size model /\
  0 < n_steps model /\
  0 <= n_context model /\
  mfcc_feats_per_timestep model = MFCC_FEATURES * (2 * n_context model + 1) /\
  n_steps model * mfcc_feats_per_timestep model < 2 ^ 32.

(** The [int] counters of [infer] stay in range on every batch of the
    pipeline: [i] ends at [n_steps * mfcc_feats_per_timestep], and [t] at
    [num_classes] times the frames of the batch, which are [n_steps] at
    most. *)
Definition counters_ok : Prop :=
  n_steps model * mfcc_feats_per_timestep model <= INT_MAX /\
  n_steps model * num_classes <= INT_MAX.


(** The extractor returns exactly one frame of features for [buf]. *)
Definition one_frame (buf : list float32) : Prop :=
  fst (csf_mfcc buf) = 1 /\ MFCC_FEATURES <= size (snd (csf_mfcc buf)).

(** The extractor returns one frame for every full window. *)
Definition full_windows_ok : Prop :=
  forall w, size w = AUDIO_WIN_LEN_SAMPLES -> one_frame w.

(** The output tensor of a successful run on at most [n_steps] frames holds
    the logits of every frame it was asked for. *)
Definition engine_ok : Prop :=
  forall sess input n sess1 out,
    0 <= n <= n_steps model ->
    Run sess input n = (sess1, Some out) -> n * num_classes <= size out.

(** Modelled from the spec: the decoder (ctcdecode/ctc_beam_search_decoder.h)
    and the alphabet (alphabet.h) are not among the sources.  Sections 4.5
    and 6 of the spec give the decoder as a function from the per-frame
    distributions to its single best transcript, and the transcript of an
    empty sequence of frames as the empty one. *)
Definition decoder_contract : Prop :=
  (forall inputs, ctc_beam_search_decoder inputs (beam_width model) <> []) /\
  (exists p rest, ctc_beam_search_decoder [] (beam_width model) = (p, []) :: rest) /\
  LabelsToString [] = EmptyString.

(** The fields the batching stage never writes: everything in front of
    [batch_buffer]. *)
Definition batching_kept (st st' : StreamingState) : Prop :=
  audio_buffer st' = audio_buffer st /\
  last_sample st' = last_sample st /\
  skip_next_mfcc st' = skip_next_mfcc st /\
  mfcc_buffer st' = mfcc_buffer st.

(** The fields the feature stage never writes. *)
Definition front_kept (st st' : StreamingState) : Prop :=
  audio_buffer st' = audio_buffer st /\
  last_sample st' = last_sample st /\
  skip_next_mfcc st' = skip_next_mfcc st.

(** *** Projections of the trace *)

Definition infer_frames (tr : list event) : list Z :=
  flat_map (fun e => match e with EvInfer _ n _ => [n] | _ => [] end) tr.

Definition window_outcomes (tr : list event) : list bool :=
  flat_map (fun e => match e with EvAudioWindow _ skipped => [skipped] | _ => [] end) tr.

Definition pushed_vectors (tr : list event) : list (list float32) :=
  flat_map (fun e => match e with EvPushMfcc v => [v] | _ => [] end) tr.

Definition timesteps (tr : list event) : list (list float32) :=
  flat_map (fun e => match e with EvMfccWindow v => [v] | _ => [] end) tr.



(** The events of the batching stage, and the others: those of the
    sample and feature stages. *)
Definition is_batching_event (e : event) : bool :=
  match e with
  | EvMfccWindow _ | EvInfer _ _ _ => true
  | EvAudioWindow _ _ | EvPushMfcc _ => false
  end.

Definition front_events (tr : list event) : list event :=
  filter (fun e => negb (is_batching_event e)) tr.

(** The feature vector [processAudioWindow] pushes for the window [w]. *)
Definition feature_of (w : list float32) : list float32 :=
  firstn (Z.to_nat (1 * MFCC_FEATURES)) (snd (csf_mfcc w)).

(** The front events of a run of windows under decimation: a window is
    either skipped, or followed by the push of its feature vector, in
    turn; [skip] tells whether the first one is skipped. *)
Fixpoint decimated (skip : bool) (ws : list (list float32)) : list event :=
  match ws with
  | [] => []
  | w :: rest =>
      if skip then EvAudioWindow w true :: decimated false rest
      else EvAudioWindow w false :: EvPushMfcc (feature_of w) :: decimated true rest
  end.

(** *** The pipeline on sizes alone *)

Definition shape (st : StreamingState) : Shape :=
  {| sh_audio := size (audio_buffer st); sh_skip := skip_next_mfcc st;
     sh_mfcc := size (mfcc_buffer st); sh_batch := size (batch_buffer st) |}.

Definition sh_timestep (s : Shape) : Shape * list call :=
  let b := sh_batch s + mfcc_feats_per_timestep model in
  if b =? n_steps model * mfcc_feats_per_timestep model
  then (sh_set_batch s 0, [CTimestep; CInfer (n_steps model)])
  else (sh_set_batch s b, [CTimestep]).

Definition sh_push (s : Shape) : Shape * list call :=
  let m := sh_mfcc s + MFCC_FEATURES in
  if m =? mfcc_feats_per_timestep model then
    let '(s1, t) := sh_timestep (sh_set_mfcc s m) in
    (sh_set_mfcc s1 (m - MFCC_FEATURES), CPush :: t)
  else (sh_set_mfcc s m, [CPush]).

Definition sh_window (s : Shape) : Shape * list call :=
  let skip := negb (sh_skip s) in
  if negb skip then (sh_set_skip s skip, [CWindow true])
  else
    let '(s1, t) := sh_push (sh_set_skip s skip) in
    (s1, CWindow false :: t).

Definition sh_sample (s : Shape) : Shape * list call :=
  let a := sh_audio s + 1 in
  if a =? AUDIO_WIN_LEN_SAMPLES then
    let '(s1, t) := sh_window (sh_set_audio s a) in
    (sh_set_audio s1 (a - AUDIO_WIN_STEP_SAMPLES), t)
  else (sh_set_audio s a, []).

Fixpoint sh_feed (n : nat) (s : Shape) : Shape * list call :=
  match n with
  | O => (s, [])
  | S n' =>
      let '(s1, t1) := sh_sample s in
      let '(s2, t2) := sh_feed n' s1 in
      (s2, t1 ++ t2)
  end.

Fixpoint sh_pad (n : nat) (s : Shape) : Shape * list call :=
  match n with
  | O => (s, [])
  | S n' =>
      let '(s1, t1) := sh_push s in
      let '(s2, t2) := sh_pad n' s1 in
      (s2, t1 ++ t2)
  end.

Definition sh_final (s : Shape) : Shape * list call :=
  if 0 <? sh_batch s
  then (s, [CInfer (sh_batch s / mfcc_feats_per_timestep model)])
  else (s, []).

Definition sh_finish (s : Shape) : Shape * list call :=
  let '(s1, t1) := sh_window s in
  let '(s2, t2) := sh_pad (Z.to_nat (n_context model)) s1 in
  let '(s3, t3) := sh_final s2 in
  (s3, t1 ++ t2 ++ t3).

Definition sh_new : Shape :=
  {| sh_audio := 0; sh_skip := false;
     sh_mfcc := MFCC_FEATURES * n_context model; sh_batch := 0 |}.

(** A whole stream on sizes: the frame counts of the inference calls made
    while [n] samples are fed, those of the whole stream, and the number of
    timesteps of the whole stream. *)
Definition shape_summary (n : nat) : list Z * list Z * nat :=
  let r1 := sh_feed n sh_new in
  let r2 := sh_finish (fst r1) in
  (call_frames (snd r1),
   call_frames (snd r1 ++ snd r2),
   call_timesteps (snd r1 ++ snd r2)).

(** The same on the machine, with the transcript: a stream is set up on
    [sess], fed [buffer] in one call and finished. *)
Definition stream_summary (sess : Session) (buffer : list Z)
  : result (list Z * list Z * nat * string) :=
  ms1 <- feedAudioContent (start sess) buffer ;;
  r <- finishStream ms1 ;;
  Ret (infer_frames (trace ms1),
       infer_frames (trace (snd r)),
       length (timesteps (trace (snd r))),
       fst r).

(** The windows processed while [buffer] is fed to a new stream, skipped
    or not, and the sizes of the feature vectors pushed. *)
Definition feed_summary (sess : Session) (buffer : list Z)
  : result (list bool * list nat) :=
  ms1 <- feedAudioContent (start sess) buffer ;;
  Ret (window_outcomes (trace ms1),
       map (@length float32) (pushed_vectors (trace ms1))).

(** The same bounds on sizes alone. *)
Definition feat_ok (s : Shape) : Prop :=
  0 <= sh_mfcc s < mfcc_feats_per_timestep model /\
  sh_mfcc s mod MFCC_FEATURES = 0.

Definition batch_ok (s : Shape) : Prop :=
  0 <= sh_batch s < n_steps model * mfcc_feats_per_timestep model /\
  sh_batch s mod mfcc_feats_per_timestep model = 0.

Definition shape_ok (s : Shape) : Prop :=
  0 <= sh_audio s < AUDIO_WIN_LEN_SAMPLES /\ feat_ok s /\ batch_ok s.

(** The step simulates the machine: same sizes, same calls. *)
Definition refines (r : result Machine) (ms : Machine) (a : Shape * list call) : Prop :=
  forall ms', r = Ret ms' ->
    shape (stream ms') = fst a /\ calls (trace ms') = calls (trace ms) ++ snd a.

Definition returns {A : Type} (r : result A) : Prop := exists a, r = Ret a.

(** ** The data that flows through the buffers *)

(** The samples of a stream after pre-emphasis (lines 170-172), [last]
    being the sample that came before the first one. *)
Fixpoint preemphasis (last : float32) (buffer : list Z) : list float32 :=
  match buffer with
  | [] => []
  | x :: rest =>
      f32_sub (f32_of_Z x) (f32_mul PREEMPHASIS_COEFF last)
        :: preemphasis (f32_of_Z x) rest
  end.

(** The window of index [k] over [l]: [len] values, windows [step] apart. *)
Definition frame_at {A : Type} (len step k : nat) (l : list A) : list A :=
  firstn len (skipn (step * k) l).

(** The first [n] windows over [l]. *)
Definition frames {A : Type} (len step n : nat) (l : list A) : list (list A) :=
  map (fun k => frame_at len step k l) (seq 0 n).

(** A buffer that slides over the values [fed] to it so far: it has
    [emitted] the windows in front of it, all of them full, and holds what
    comes after their steps. *)
Definition slides {A : Type} (len step : nat) (fed buf : list A)
    (emitted : list (list A)) : Prop :=
  let n := length emitted in
  buf = skipn (step * n) fed /\
  (step * n <= length fed)%nat /\
  emitted = frames len step n fed /\
  (n = O \/ (step * (n - 1) + len <= length fed)%nat).

(** The windows handed to [processAudioWindow]. *)
Definition audio_windows (tr : list event) : list (list float32) :=
  flat_map (fun e => match e with EvAudioWindow w _ => [w] | _ => [] end) tr.

(** The frames handed to the engine, in order: of every input tensor, the
    part that holds its [n_frames] timesteps. *)
Definition sent_frames (tr : list event) : list float32 :=
  flat_map
    (fun e =>
       match e with
       | EvInfer input n _ =>
           firstn (Z.to_nat (n * mfcc_feats_per_timestep model)) input
       | _ => []
       end)
    tr.

(** An input tensor of the pipeline: [n_steps] timesteps, of which the
    last [n_steps - n_frames] are zeros. *)
Definition padded_input (e : event) : Prop :=
  match e with
  | EvInfer input n _ =>
      0 < n <= n_steps model /\
      size input = n_steps model * mfcc_feats_per_timestep model /\
      skipn (Z.to_nat (n * mfcc_feats_per_timestep model)) input
        = repeat f32_zero
            (Z.to_nat ((n_steps model - n) * mfcc_feats_per_timestep model))
  | _ => True
  end.

(** The content of [mfcc_buffer] when a stream is set up. *)
Definition initial_context : list float32 :=
  repeat f32_zero (Z.to_nat (MFCC_FEATURES * n_context model)).

(** What holds of a stream between two calls: the sizes of its buffers,
    [mfcc_buffer] slides over the feature vectors pushed so far, the
    timesteps emitted so far are in the input tensors of the engine or in
    [batch_buffer]. *)
Definition framed (ms : Machine) : Prop :=
  feat_ok (shape (stream ms)) /\
  batch_ok (shape (stream ms)) /\
  Forall (fun v => size v = MFCC_FEATURES) (pushed_vectors (trace ms)) /\
  slides (Z.to_nat (mfcc_feats_per_timestep model)) (Z.to_nat MFCC_FEATURES)
         (initial_context ++ concat (pushed_vectors (trace ms)))
         (mfcc_buffer (stream ms)) (timesteps (trace ms)) /\
  concat (timesteps (trace ms))
    = sent_frames (trace ms) ++ batch_buffer (stream ms) /\
  Forall padded_input (trace ms).

(** The logits only grow. *)
Definition extends (ms ms' : Machine) : Prop :=
  exists l,
    accumulated_logits (stream ms')
    = accumulated_logits (stream ms) ++ l.

(** The engine run again on the inputs of a trace, in order, from a
    session and some logits: every run starts from the session the run
    before it left, and a run that succeeds appends the logits of its
    frames (lines 304-317). *)
Definition replay_step (acc : Session * list float32) (e : event)
  : Session * list float32 :=
  match e with
  | EvInfer input n _ =>
      let '(sess, status) := Run (fst acc) input n in
      match status with
      | Some logits_mapped =>
          (sess, snd acc ++ firstn (Z.to_nat (n * BATCH_SIZE * num_classes)) logits_mapped)
      | None => (sess, snd acc)
      end
  | _ => acc
  end.

Definition replay (acc : Session * list float32) (tr : list event)
  : Session * list float32 :=
  fold_left replay_step tr acc.

(** What a call did to the session and to the logits is what the engine
    gives on the inputs the call has logged. *)
Definition replays (ms ms' : Machine) : Prop :=
  exists t,
    trace ms' = trace ms ++ t /\
    (session ms', accumulated_logits (stream ms'))
    = replay (session ms, accumulated_logits (stream ms)) t.


(** *** DS_SpeechToText (lines 475-488) *)

(** [None] stands for the null pointer returned when the stream cannot be
    set up. *)
Definition DS_SpeechToText (sess : Session) (aBuffer : list Z)
  : result (option string * Session) :=
  match DS_SetupStream sess with
  | None => Ret (None, fst (initialize_state sess))
  | Some ctx =>
      ms1 <- DS_FeedAudioContent ctx aBuffer ;;
      r <- DS_FinishStream ms1 ;;
      Ret (Some (fst r), snd r)
  end.

(** What holds of the raw window after the samples [fed] went through
    [feedAudioContent]: it slides over their pre-emphasised signal, one
    step per window, and [last_sample] is the last of them. *)
Definition windowed (fed : list Z) (ms : Machine) : Prop :=
  slides (Z.to_nat AUDIO_WIN_LEN_SAMPLES) (Z.to_nat AUDIO_WIN_STEP_SAMPLES)
         (preemphasis (f32_of_Z 0) fed)
         (audio_buffer (stream ms)) (audio_windows (trace ms)) /\
  size (audio_buffer (stream ms)) < AUDIO_WIN_LEN_SAMPLES /\
  (audio_windows (trace ms) = [] \/
   AUDIO_WIN_LEN_SAMPLES - AUDIO_WIN_STEP_SAMPLES <= size (audio_buffer (stream ms))) /\
  last_sample (stream ms) = last (map f32_of_Z fed) (f32_of_Z 0).

(** *** DS_AudioToInputVector (lines 561-627) *)

(** [csf_mfcc] on a whole signal of [short] samples, at a sample rate and
    for a number of cepstral coefficients: the number of frames and the
    array of features, one frame after the other. *)
Variable csf_mfcc_signal : list Z -> Z -> Z -> Z * list float32.

Definition INT_MIN : Z := - 2 ^ 31.

(** The conversion of an [unsigned int] to [int]. *)
Definition s32 (z : Z) : Z := (z + 2 ^ 31) mod 2 ^ 32 - 2 ^ 31.

(** The value of an [int] expression: its overflow is undefined. *)
Definition int_of (z : Z) : result Z :=
  if (INT_MIN <=? z) && (z <=? INT_MAX) then Ret z else Fail UndefinedBehaviour.

(** [a[i]], read and written; outside of the array both are undefined. *)
Definition load (a : list float32) (i : Z) : result float32 :=
  if (0 <=? i) && (i <? size a) then Ret (nth (Z.to_nat i) a f32_zero)
  else Fail UndefinedBehaviour.

Definition store (a : list float32) (i : Z) (v : float32) : result (list float32) :=
  if (0 <=? i) && (i <? size a)
  then Ret (firstn (Z.to_nat i) a ++ v :: skipn (S (Z.to_nat i)) a)
  else Fail UndefinedBehaviour.

Section AudioToInputVector.

Variables aNCep aNContext : Z.
Variable n_frames : Z.
Variable mfcc : list float32.

(** The loops on [k] (lines 593-595 and 609-611) and the loop of the
    present context (lines 599-601): [aNCep] features copied from
    [mfcc + mfcc_base] to [ds_input + base]. *)
Fixpoint copy_features (n : nat) (k : Z) (ds_input : list float32) (base mfcc_base : Z)
  : result (list float32) :=
  match n with
  | O => Ret ds_input
  | S n' =>
      src <- int_of (mfcc_base + k) ;;
      v <- load mfcc src ;;
      ds_input1 <- store ds_input (base + k) v ;;
      copy_features n' (k + 1) ds_input1 base mfcc_base
  end.

(** Lines 588-596: [j] runs from [aNContext] down to 1. *)
Fixpoint past_context (n : nat) (j : Z) (i idx : Z) (ds_input : list float32)
  : result (list float32) :=
  match n with
  | O => Ret ds_input
  | S n' =>
      frame_index <- int_of ((i - j) * 2) ;;
      if frame_index <? 0 then past_context n' (j - 1) i idx ds_input
      else
        let mfcc_base := s32 (u32 (frame_index * aNCep)) in
        let base := s32 (u32 (u32 (aNContext - u32 j) * aNCep)) in
        ds_input1 <- copy_features (Z.to_nat aNCep) 0 ds_input (idx + base) mfcc_base ;;
        past_context n' (j - 1) i idx ds_input1
  end.

(** Lines 604-612: [j] runs from 1 up to [aNContext], or to the first
    frame past the end. *)
Fixpoint future_context (n : nat) (j : Z) (i idx contextSize : Z)
    (ds_input : list float32) : result (list float32) :=
  match n with
  | O => Ret ds_input
  | S n' =>
      frame_index <- int_of ((i + j) * 2) ;;
      if n_frames <=? frame_index then Ret ds_input
      else
        let mfcc_base := s32 (u32 (frame_index * aNCep)) in
        let base := s32 (u32 (contextSize + aNCep + (j - 1) * aNCep)) in
        ds_input1 <- copy_features (Z.to_nat aNCep) 0 ds_input (idx + base) mfcc_base ;;
        j1 <- int_of (j + 1) ;;
        future_context n' j1 i idx contextSize ds_input1
  end.

(** Lines 585-613: one frame of the input per iteration. *)
Fixpoint input_frames (n : nat) (i idx mfcc_idx : Z) (contextSize frameSize : Z)
    (ds_input : list float32) : result (list float32) :=
  match n with
  | O => Ret ds_input
  | S n' =>
      ds_input1 <-
        past_context (Z.to_nat (s32 aNContext)) (s32 aNContext) i idx ds_input ;;
      ds_input2 <-
        copy_features (Z.to_nat aNCep) 0 ds_input1 (idx + contextSize) mfcc_idx ;;
      ds_input3 <-
        future_context (Z.to_nat aNContext) 1 i idx contextSize ds_input2 ;;
      idx1 <- int_of (idx + frameSize) ;;
      input_frames n' (i + 1) idx1 (s32 (u32 (mfcc_idx + u32 (aNCep * 2))))
        contextSize frameSize ds_input3
  end.

End AudioToInputVector.

(** The three outputs: the input array, its number of frames and the
    length of a frame.  [calloc] is taken to succeed on a size that is not
    negative; on a negative one the array is the null pointer, which has no
    cell. *)
Definition DS_AudioToInputVector (aBuffer : list Z) (aSampleRate aNCep aNContext : Z)
  : result (list float32 * Z * Z) :=
  let contextSize := s32 (u32 (aNCep * aNContext)) in
  let frameSize := s32 (u32 (aNCep + u32 (2 * aNCep * aNContext))) in
  let '(n_frames, mfcc) := csf_mfcc_signal aBuffer aSampleRate aNCep in
  n1 <- int_of (n_frames + 1) ;;
  let ds_input_length := Z.quot n1 2 in
  cells <- int_of (ds_input_length * frameSize) ;;
  ds_input <-
    input_frames aNCep aNContext n_frames mfcc
      (Z.to_nat ds_input_length) 0 0 0 contextSize frameSize
      (repeat f32_zero (Z.to_nat cells)) ;;
  Ret (ds_input, ds_input_length, frameSize).

(** The frame of index [e] among those kept, one out of two: [aNCep]
    features, or zeros outside of the signal. *)
Definition kept_frame (aNCep n_frames : Z) (mfcc : list float32) (e : Z)
  : list float32 :=
  if (0 <=? e) && (2 * e <? n_frames)
  then firstn (Z.to_nat aNCep) (skipn (Z.to_nat (2 * e * aNCep)) mfcc)
  else repeat f32_zero (Z.to_nat aNCep).

(** The frame of index [i] with its context: the frames [i - aNContext]
    to [i + aNContext]. *)
Definition context_window (aNCep aNContext n_frames : Z) (mfcc : list float32)
    (i : nat) : list float32 :=
  concat
    (map (fun s => kept_frame aNCep n_frames mfcc (Z.of_nat i + Z.of_nat s - aNContext))
         (seq 0 (Z.to_nat (2 * aNContext + 1)))).

(** *** DS_CreateModel (lines 343-448) *)

(** The codes of [tensorflow::error] the function returns itself. *)
Definition OK : Z := 0.
Definition INVALID_ARGUMENT : Z := 3.

(** The tensor of a "value" attribute, as [Tensor::FromProto] and
    [vec<int>] see it. *)
Inductive TensorProto : Type :=
| Unparsable                    (* [FromProto] returns false *)
| IntVector (values : list Z)   (* a vector of [int] *)
| OtherTensor.                  (* parsed, but not a vector of [int] *)

(** A node of the graph: its name, the dimensions of its "shape" attribute
    and the tensor of its "value" attribute, when it has them. *)
Record NodeDef : Type := {
  node_name : string;
  attr_shape : option (list Z);
  attr_value : option TensorProto
}.

(** [session->Create], [NewSession], [ReadBinaryProto] and
    [mmap_env->InitializeFromFile]: each gives the code of its status, [OK]
    when the status is ok.  [NewSession] is given the path of the mapped
    file when there is one. *)
Variable InitializeFromFile : string -> Z.
Variable NewSession : option string -> Z * Session.
Variable ReadBinaryProto : bool -> string -> Z * list NodeDef.
Variable Create : Session -> list NodeDef -> Z * Session.

(** [Alphabet(aAlphabetConfigPath)->GetSize()]. *)
Variable Alphabet_GetSize : string -> Z.

Definition INT64_MIN : Z := - 2 ^ 63.
Definition INT64_MAX : Z := 2 ^ 63 - 1.

(** The value of an expression of type [int64]. *)
Definition int64_of (z : Z) : result Z :=
  if (INT64_MIN <=? z) && (z <=? INT64_MAX) then Ret z else Fail UndefinedBehaviour.

(** The constructor (lines 134-146): the three sizes start at
    [(unsigned int) -1]. *)
Definition new_model (alphabet aBeamWidth : Z) : ModelState :=
  {| alphabet_size := alphabet;
     beam_width := aBeamWidth;
     n_steps := u32 (-1);
     mfcc_feats_per_timestep := u32 (-1);
     n_context := u32 (-1) |}.

(** The loop over the nodes (lines 410-434): [None] when it returns
    [INVALID_ARGUMENT].  [attr().at(key)] on a missing key and [vec<int>]
    on another kind of tensor abort; [dim(k)] and [vec(k)] past the end
    are undefined.  A size is never negative: the comparison of line 424
    holds of no negative [final_dim_size]. *)
Fixpoint read_nodes (nodes : list NodeDef) (m : ModelState)
  : result (option ModelState) :=
  match nodes with
  | [] => Ret (Some m)
  | node :: rest =>
      if String.eqb (node_name node) "input_node" then
        match attr_shape node with
        | None => Fail AssertionFailure
        | Some dims =>
            match nth_error dims 1, nth_error dims 2, nth_error dims 3 with
            | Some d1, Some d2, Some d3 =>
                c <- int64_of (d2 - 1) ;;
                f <- int64_of (d2 * d3) ;;
                read_nodes rest
                  {| alphabet_size := alphabet_size m;
                     beam_width := beam_width m;
                     n_steps := u32 d1;
                     mfcc_feats_per_timestep := u32 f;
                     n_context := u32 (Z.quot c 2) |}
            | _, _, _ => Fail UndefinedBehaviour
            end
        end
      else if String.eqb (node_name node) "logits_shape" then
        match attr_value node with
        | None => Fail AssertionFailure
        | Some Unparsable => read_nodes rest m
        | Some OtherTensor => Fail AssertionFailure
        | Some (IntVector values) =>
            match nth_error values 2 with
            | None => Fail UndefinedBehaviour
            | Some d =>
                final_dim_size <- int_of (d - 1) ;;
                if final_dim_size =? alphabet_size m then read_nodes rest m
                else Ret None
            end
        end
      else read_nodes rest m
  end.

(** The code returned and [*retval]: the model with its session, or
    nothing.  [aModelPath] is [None] for a null pointer.  [aNCep] and
    [aNContext] are stored in fields that nothing reads. *)
Definition DS_CreateModel (aModelPath : option string) (aNCep aNContext : Z)
    (aAlphabetConfigPath : string) (aBeamWidth : Z)
  : result (Z * option (ModelState * Session)) :=
  let model0 := new_model (Alphabet_GetSize aAlphabetConfigPath) aBeamWidth in
  match aModelPath with
  | None => Ret (INVALID_ARGUMENT, None)
  | Some path =>
      if (String.length path <? 1)%nat then Ret (INVALID_ARGUMENT, None)
      else
        let is_mmap :=
          match String.index 0 ".pbmm" path with Some _ => true | None => false end in
        let init := if is_mmap then InitializeFromFile path else OK in
        if negb (init =? OK) then Ret (init, None)
        else
          let '(code1, sess) := NewSession (if is_mmap then Some path else None) in
          if negb (code1 =? OK) then Ret (code1, None)
          else
            let '(code2, graph_def) := ReadBinaryProto is_mmap path in
            if negb (code2 =? OK) then Ret (code2, None)
            else
              let '(code3, sess1) := Create sess graph_def in
              if negb (code3 =? OK) then Ret (code3, None)
              else
                r <- read_nodes graph_def model0 ;;
                match r with
                | None => Ret (INVALID_ARGUMENT, None)
                | Some m =>
                    if n_context m =? u32 (-1) then Ret (INVALID_ARGUMENT, None)
                    else Ret (OK, Some (m, sess1))
                end
  end.

(** A node named input_node whose shape has the dimensions [d1], [d2] and
    [d3] at its indices 1, 2 and 3. *)
Definition input_shape (node : NodeDef) (d1 d2 d3 : Z) : Prop :=
  node_name node = "input_node"%string /\
  exists dims,
    attr_shape node = Some dims /\
    nth_error dims 1 = Some d1 /\
    nth_error dims 2 = Some d2 /\
    nth_error dims 3 = Some d3.

(** The sizes the loop derives from such a node. *)
Definition derived_from (m : ModelState) (d1 d2 d3 : Z) : Prop :=
  n_steps m = u32 d1 /\
  n_context m = u32 (Z.quot (d2 - 1) 2) /\
  mfcc_feats_per_timestep m = u32 (d2 * d3).

(** ** More collaborators for the examples *)

(** A whole-signal extractor in line with [example_mfcc]: one frame per
    full window of the pre-emphasised signal. *)
Definition example_signal_mfcc (aBuffer : list Z) (aSampleRate aNCep : Z)
  : Z * list float32 :=
  let signal := preemphasis (f32_of_Z 0) aBuffer in
  let n :=
    (if length aBuffer <? 400 then 0 else (length aBuffer - 240) / 160)%nat in
  (Z.of_nat n,
   concat (map (fun k => snd (example_mfcc (frame_at 400 160 k signal))) (seq 0 n))).

(** A configuration without steps. *)
Definition stepless_model : ModelState :=
  {| alphabet_size := 2; beam_width := 1; n_steps := 0;
     mfcc_feats_per_timestep := 78; n_context := 1 |}.

(** A graph for [example_model], and collaborators that load it. *)
Definition example_graph : list NodeDef :=
  [ {| node_name := "previous_state_c"; attr_shape := Some [1; 4]; attr_value := None |};
    {| node_name := "input_node"; attr_shape := Some [1; 2; 3; 26]; attr_value := None |};
    {| node_name := "logits_shape"; attr_shape := None;
       attr_value := Some (IntVector [2; 1; 3]) |} ].

Definition example_InitializeFromFile (path : string) : Z := OK.
Definition example_NewSession (path : option string) : Z * nat := (OK, O).
Definition example_ReadBinaryProto (is_mmap : bool) (path : string)
  : Z * list NodeDef := (OK, example_graph).
Definition example_Create (sess : nat) (graph_def : list NodeDef) : Z * nat := (OK, sess).
Definition example_alphabet (path : string) : Z := 2.

Lemma Ret_inj {A : Type} (a b : A) : Ret a = Ret b -> a = b.
Proof. now intros [= ->]. Qed.

(** ** Lists, sizes and wrap-around *)

Lemma size_nonneg {A : Type} (l : list A) : 0 <= size l.
Proof. unfold size. lia. Qed.

Lemma size_app {A : Type} (l1 l2 : list A) : size (l1 ++ l2) = size l1 + size l2.
Proof. unfold size. rewrite length_app. lia. Qed.

Lemma size_nil {A : Type} : size (@nil A) = 0.
Proof. reflexivity. Qed.

Lemma size_cons {A : Type} (a : A) (l : list A) : size (a :: l) = size l + 1.
Proof. unfold size. cbn [length]. lia. Qed.

Lemma size_repeat {A : Type} (a : A) (n : nat) : size (repeat a n) = Z.of_nat n.
Proof. unfold size. now rewrite repeat_length. Qed.

Lemma to_nat_size {A : Type} (l : list A) : Z.to_nat (size l) = length l.
Proof. unfold size. lia. Qed.

Lemma size_skipn {A : Type} (k : Z) (l : list A) :
  0 <= k <= size l -> size (skipn (Z.to_nat k) l) = size l - k.
Proof. unfold size. intros H. rewrite length_skipn. lia. Qed.

Lemma size_firstn {A : Type} (k : Z) (l : list A) :
  0 <= k <= size l -> size (firstn (Z.to_nat k) l) = k.
Proof. unfold size. intros H. rewrite length_firstn. lia. Qed.

Lemma u32_small (z : Z) : 0 <= z < 2 ^ 32 -> u32 z = z.
Proof. intros H. unfold u32. now apply Z.mod_small. Qed.

Lemma resize_0 (l : list float32) : resize 0 l = [].
Proof. reflexivity. Qed.

(** Rotating by [k] and dropping the last [k] elements drops the first [k]. *)
Lemma resize_rotate (k : Z) (l : list float32) :
  0 <= k <= size l ->
  resize (size l - k) (rotate k l) = skipn (Z.to_nat k) l.
Proof.
  intros H. unfold resize, rotate, size in *.
  assert (Hl : length (skipn (Z.to_nat k) l) = Z.to_nat (Z.of_nat (length l) - k)).
  { rewrite length_skipn. lia. }
  rewrite firstn_app, <- Hl, firstn_all, Nat.sub_diag, firstn_O, app_nil_r.
  rewrite length_app, length_firstn.
  replace (length (skipn (Z.to_nat k) l) - _)%nat with O by lia.
  cbn [repeat]. now rewrite app_nil_r.
Qed.

(** ** Unfolding of the loops *)

Lemma processMfccWindow_loop_eq fuel ms buf :
  processMfccWindow_loop fuel ms buf =
  match buf with
  | [] => Ret ms
  | _ :: _ =>
      match fuel with
      | O => Fail OutOfFuel
      | S fuel' =>
          let capacity := u32 (n_steps model * mfcc_feats_per_timestep model) in
          let st := stream ms in
          let next_copy_amount :=
            Z.min (u32 (size buf)) (u32 (capacity - size (batch_buffer st))) in
          let batch := batch_buffer st ++ firstn (Z.to_nat next_copy_amount) buf in
          let rest := skipn (Z.to_nat next_copy_amount) buf in
          let ms1 := set_stream ms (set_batch_buffer st batch) in
          if size batch <=? capacity then
            if size batch =? capacity then
              ms2 <- processBatch ms1 batch (n_steps model) ;;
              processMfccWindow_loop fuel'
                (set_stream ms2
                   (set_batch_buffer (stream ms2)
                      (resize 0 (batch_buffer (stream ms2)))))
                rest
            else processMfccWindow_loop fuel' ms1 rest
          else Fail AssertionFailure
      end
  end.
Proof. destruct fuel, buf; reflexivity. Qed.

Lemma pushMfccBuffer_loop_eq fuel ms buf :
  pushMfccBuffer_loop fuel ms buf =
  match buf with
  | [] => Ret ms
  | _ :: _ =>
      match fuel with
      | O => Fail OutOfFuel
      | S fuel' =>
          let st := stream ms in
          let next_copy_amount :=
            Z.min (size buf)
                  (u32 (mfcc_feats_per_timestep model - size (mfcc_buffer st))) in
          let mfcc := mfcc_buffer st ++ firstn (Z.to_nat next_copy_amount) buf in
          let rest := skipn (Z.to_nat next_copy_amount) buf in
          let ms1 := set_stream ms (set_mfcc_buffer st mfcc) in
          if size mfcc <=? mfcc_feats_per_timestep model then
            if size mfcc =? mfcc_feats_per_timestep model then
              ms2 <- processMfccWindow ms1 mfcc ;;
              if MFCC_FEATURES <=? size (mfcc_buffer (stream ms2)) then
                pushMfccBuffer_loop fuel'
                  (set_stream ms2
                     (set_mfcc_buffer (stream ms2)
                        (resize (size (mfcc_buffer (stream ms2)) - MFCC_FEATURES)
                                (rotate MFCC_FEATURES (mfcc_buffer (stream ms2))))))
                  rest
              else Fail UndefinedBehaviour
            else pushMfccBuffer_loop fuel' ms1 rest
          else Fail AssertionFailure
      end
  end.
Proof. destruct fuel, buf; reflexivity. Qed.

Lemma feedAudioContent_loop_eq fuel ms buffer :
  feedAudioContent_loop fuel ms buffer =
  match buffer with
  | [] => Ret ms
  | _ :: _ =>
      match fuel with
      | O => Fail OutOfFuel
      | S fuel' =>
          let '(st, rest) := fill_audio_buffer (stream ms) buffer in
          ms1 <- process_full_window (set_stream ms st) ;;
          feedAudioContent_loop fuel' ms1 rest
      end
  end.
Proof. destruct fuel, buffer; reflexivity. Qed.

(** ** What each function leaves untouched *)

(** [infer] changes the logits, the session and the trace only. *)
Lemma infer_frame ms buf n ms' :
  infer ms buf n = Ret ms' ->
  exists l ok input,
    stream ms' = set_accumulated_logits (stream ms) (accumulated_logits (stream ms) ++ l) /\
    trace ms' = trace ms ++ [EvInfer input n ok] /\
    (ok = false -> l = []) /\
    (ok = true -> 0 <= n * num_classes -> size l = n * num_classes).
Proof.
  unfold infer. cbv zeta. intros H.
  destruct (_ && _); [|discriminate].
  destruct (Run _ _ _) as [sess [out|]].
  - destruct (Z.leb_spec (n * BATCH_SIZE * num_classes) (size out)) as [Hle|];
      [|discriminate].
    destruct (_ <=? INT_MAX); [|discriminate]. cbn [andb] in H.
    injection H as <-. eexists _, true, _. cbn [stream trace].
    split; [reflexivity|]. split; [reflexivity|]. split; [discriminate|].
    intros _ Hn. unfold BATCH_SIZE in *. rewrite size_firstn; lia.
  - injection H as <-. eexists [], false, _. cbn [stream trace].
    rewrite app_nil_r. destruct (stream ms); repeat split; try reflexivity; discriminate.
Qed.

Lemma batching_kept_refl st : batching_kept st st.
Proof. repeat split. Qed.

Lemma batching_kept_trans st1 st2 st3 :
  batching_kept st1 st2 -> batching_kept st2 st3 -> batching_kept st1 st3.
Proof. unfold batching_kept. intuition congruence. Qed.

Lemma infer_kept ms buf n ms' :
  infer ms buf n = Ret ms' ->
  batching_kept (stream ms) (stream ms') /\
  batch_buffer (stream ms') = batch_buffer (stream ms).
Proof.
  intros H. apply infer_frame in H as (l & ok & input & -> & _).
  repeat split.
Qed.

Lemma processMfccWindow_loop_kept fuel : forall ms buf ms',
  processMfccWindow_loop fuel ms buf = Ret ms' ->
  batching_kept (stream ms) (stream ms').
Proof.
  induction fuel as [|fuel IH]; intros ms buf ms'; rewrite processMfccWindow_loop_eq;
    destruct buf as [|x buf]; try discriminate.
  - intros [= <-]. apply batching_kept_refl.
  - intros [= <-]. apply batching_kept_refl.
  - cbv zeta. destruct (_ <=? _); [|discriminate].
    destruct (_ =? _).
    + unfold processBatch. destruct (infer _ _ _) as [ms2|] eqn:E; [|discriminate].
      cbn [bind]. intros H. apply IH in H. apply infer_kept in E as [E _].
      eapply batching_kept_trans; [|eapply batching_kept_trans; [exact E|]].
      * repeat split.
      * exact H.
    + intros H. apply IH in H. eapply batching_kept_trans; [|exact H]. repeat split.
Qed.

Lemma processMfccWindow_kept ms buf ms' :
  processMfccWindow ms buf = Ret ms' -> batching_kept (stream ms) (stream ms').
Proof. unfold processMfccWindow. intros H. now apply processMfccWindow_loop_kept in H. Qed.

Lemma front_kept_refl st : front_kept st st.
Proof. repeat split. Qed.

Lemma front_kept_trans st1 st2 st3 :
  front_kept st1 st2 -> front_kept st2 st3 -> front_kept st1 st3.
Proof. unfold front_kept. intuition congruence. Qed.

Lemma batching_front_kept st st' : batching_kept st st' -> front_kept st st'.
Proof. unfold batching_kept, front_kept. tauto. Qed.

Lemma pushMfccBuffer_loop_kept fuel : forall ms buf ms',
  pushMfccBuffer_loop fuel ms buf = Ret ms' ->
  front_kept (stream ms) (stream ms').
Proof.
  induction fuel as [|fuel IH]; intros ms buf ms'; rewrite pushMfccBuffer_loop_eq;
    destruct buf as [|x buf]; try discriminate.
  - intros [= <-]. apply front_kept_refl.
  - intros [= <-]. apply front_kept_refl.
  - cbv zeta. destruct (_ <=? _); [|discriminate].
    destruct (_ =? _).
    + destruct (processMfccWindow _ _) as [ms2|] eqn:E; [|discriminate].
      cbn [bind]. destruct (_ <=? _); [|discriminate].
      intros H. apply IH in H. apply processMfccWindow_kept in E.
      apply batching_front_kept in E.
      eapply front_kept_trans; [|eapply front_kept_trans; [exact E|]].
      * repeat split.
      * exact H.
    + intros H. apply IH in H. eapply front_kept_trans; [|exact H]. repeat split.
Qed.

Lemma pushMfccBuffer_kept ms buf ms' :
  pushMfccBuffer ms buf = Ret ms' -> front_kept (stream ms) (stream ms').
Proof. unfold pushMfccBuffer. intros H. now apply pushMfccBuffer_loop_kept in H. Qed.

(** [processAudioWindow] flips the toggle and keeps the samples. *)
Lemma processAudioWindow_kept ms buf ms' :
  processAudioWindow ms buf = Ret ms' ->
  audio_buffer (stream ms') = audio_buffer (stream ms) /\
  last_sample (stream ms') = last_sample (stream ms) /\
  skip_next_mfcc (stream ms') = negb (skip_next_mfcc (stream ms)).
Proof.
  unfold processAudioWindow. cbv zeta.
  destruct (negb (negb _)).
  - intros [= <-]. repeat split.
  - destruct (csf_mfcc buf) as [n mfcc].
    destruct (_ =? _); [|discriminate]. destruct (_ <=? _); [|discriminate].
    intros H. apply pushMfccBuffer_kept in H. destruct H as (H1 & H2 & H3).
    cbn in H1, H2, H3. auto.
Qed.

(** ** Closed forms of the loops on well-sized buffers *)

Lemma wf_model_bounds :
  wf_model ->
  MFCC_FEATURES <= mfcc_feats_per_timestep model /\
  mfcc_feats_per_timestep model < 2 ^ 32 /\
  mfcc_feats_per_timestep model <= n_steps model * mfcc_feats_per_timestep model /\
  n_context model <= INT_MAX.
Proof.
  unfold wf_model, MFCC_FEATURES, INT_MAX. intros (Ha & Hs & Hc & Hf & Hcap).
  rewrite Hf in *. repeat split; nia.
Qed.

(** A timestep appended to a batch with room for it: the batch is run when
    it becomes full, and emptied. *)
Lemma processMfccWindow_closed ms buf :
  0 <= n_steps model * mfcc_feats_per_timestep model < 2 ^ 32 ->
  0 < size buf ->
  size (batch_buffer (stream ms)) + size buf
    <= n_steps model * mfcc_feats_per_timestep model ->
  processMfccWindow ms buf =
  let batch := batch_buffer (stream ms) ++ buf in
  let ms1 :=
    set_stream (log ms (EvMfccWindow buf)) (set_batch_buffer (stream ms) batch) in
  if size batch =? n_steps model * mfcc_feats_per_timestep model then
    ms2 <- processBatch ms1 batch (n_steps model) ;;
    Ret (set_stream ms2 (set_batch_buffer (stream ms2) []))
  else Ret ms1.
Proof.
  intros Hcap Hbuf Hroom. unfold processMfccWindow.
  rewrite processMfccWindow_loop_eq.
  destruct buf as [|x buf]; [exfalso; revert Hbuf; unfold size; cbn; lia|].
  cbv zeta. cbn [stream log].
  pose proof (size_nonneg (batch_buffer (stream ms))) as Hb.
  rewrite (u32_small (n_steps model * _)) by lia.
  rewrite (u32_small (size (x :: buf))) by lia.
  rewrite (u32_small (_ - _)) by lia.
  rewrite Z.min_l by lia.
  rewrite to_nat_size, firstn_all, skipn_all.
  rewrite size_app.
  destruct (Z.leb_spec (size (batch_buffer (stream ms)) + size (x :: buf))
              (n_steps model * mfcc_feats_per_timestep model)); [|lia].
  destruct (_ =? _); [|reflexivity].
  destruct (processBatch _ _ _); reflexivity.
Qed.

(** A feature vector appended to a window with room for it: the window is
    emitted when it becomes full, and loses its oldest vector. *)
Lemma pushMfccBuffer_closed ms buf :
  MFCC_FEATURES <= mfcc_feats_per_timestep model < 2 ^ 32 ->
  0 < size buf ->
  size (mfcc_buffer (stream ms)) + size buf <= mfcc_feats_per_timestep model ->
  pushMfccBuffer ms buf =
  let mfcc := mfcc_buffer (stream ms) ++ buf in
  let ms1 :=
    set_stream (log ms (EvPushMfcc buf)) (set_mfcc_buffer (stream ms) mfcc) in
  if size mfcc =? mfcc_feats_per_timestep model then
    ms2 <- processMfccWindow ms1 mfcc ;;
    Ret (set_stream ms2
           (set_mfcc_buffer (stream ms2) (skipn (Z.to_nat MFCC_FEATURES) mfcc)))
  else Ret ms1.
Proof.
  intros Hf Hbuf Hroom. unfold pushMfccBuffer.
  rewrite pushMfccBuffer_loop_eq.
  destruct buf as [|x buf]; [exfalso; revert Hbuf; unfold size; cbn; lia|].
  cbv zeta. cbn [stream log].
  pose proof (size_nonneg (mfcc_buffer (stream ms))) as Hb.
  rewrite (u32_small (_ - _)) by lia.
  rewrite Z.min_l by lia.
  rewrite to_nat_size, firstn_all, skipn_all.
  rewrite size_app.
  destruct (Z.leb_spec (size (mfcc_buffer (stream ms)) + size (x :: buf))
              (mfcc_feats_per_timestep model)); [|lia].
  destruct (Z.eqb_spec (size (mfcc_buffer (stream ms)) + size (x :: buf))
              (mfcc_feats_per_timestep model)) as [Heq|]; [|reflexivity].
  destruct (processMfccWindow _ _) as [ms2|] eqn:E; [|reflexivity].
  cbn [bind]. apply processMfccWindow_kept in E.
  destruct E as (_ & _ & _ & E). cbn in E. rewrite E.
  rewrite size_app.
  destruct (Z.leb_spec MFCC_FEATURES
              (size (mfcc_buffer (stream ms)) + size (x :: buf))); [|lia].
  rewrite <- size_app, resize_rotate by (rewrite size_app; unfold MFCC_FEATURES in *; lia).
  reflexivity.
Qed.

(** ** [feedAudioContent], one sample at a time *)

Lemma size_push_sample st x :
  size (audio_buffer (push_sample st x)) = size (audio_buffer st) + 1.
Proof. unfold push_sample. cbn [audio_buffer]. rewrite size_app. reflexivity. Qed.

(** A full window is processed and loses its oldest step; the toggle flips. *)
Lemma process_full_window_full ms ms' :
  size (audio_buffer (stream ms)) = AUDIO_WIN_LEN_SAMPLES ->
  process_full_window ms = Ret ms' ->
  exists ms1,
    processAudioWindow ms (audio_buffer (stream ms)) = Ret ms1 /\
    ms' = set_stream ms1
            (set_audio_buffer (stream ms1)
               (skipn (Z.to_nat AUDIO_WIN_STEP_SAMPLES) (audio_buffer (stream ms)))).
Proof.
  intros Hfull. unfold process_full_window. rewrite Hfull, Z.eqb_refl.
  destruct (processAudioWindow _ _) as [ms1|] eqn:E; [|discriminate].
  cbn [bind]. intros [= <-]. exists ms1. split; [reflexivity|].
  apply processAudioWindow_kept in E as (E & _). rewrite E.
  rewrite resize_rotate; [reflexivity|].
  rewrite Hfull. unfold AUDIO_WIN_STEP_SAMPLES, AUDIO_WIN_LEN_SAMPLES. lia.
Qed.

Lemma process_full_window_partial ms :
  size (audio_buffer (stream ms)) <> AUDIO_WIN_LEN_SAMPLES ->
  process_full_window ms = Ret ms.
Proof.
  intros H. unfold process_full_window.
  destruct (Z.eqb_spec (size (audio_buffer (stream ms))) AUDIO_WIN_LEN_SAMPLES);
    [contradiction|reflexivity].
Qed.

Lemma process_full_window_room ms ms' :
  size (audio_buffer (stream ms)) <= AUDIO_WIN_LEN_SAMPLES ->
  process_full_window ms = Ret ms' ->
  size (audio_buffer (stream ms')) < AUDIO_WIN_LEN_SAMPLES.
Proof.
  intros Hle H.
  destruct (Z.eq_dec (size (audio_buffer (stream ms))) AUDIO_WIN_LEN_SAMPLES) as [Hfull|Hpart].
  - destruct (process_full_window_full _ _ Hfull H) as (ms1 & _ & ->).
    cbn [stream set_stream set_audio_buffer audio_buffer].
    rewrite size_skipn; rewrite Hfull;
      unfold AUDIO_WIN_STEP_SAMPLES, AUDIO_WIN_LEN_SAMPLES; lia.
  - rewrite process_full_window_partial in H by assumption.
    injection H as <-. lia.
Qed.

Lemma feed_sample_room ms x ms' :
  size (audio_buffer (stream ms)) < AUDIO_WIN_LEN_SAMPLES ->
  feed_sample ms x = Ret ms' ->
  size (audio_buffer (stream ms')) < AUDIO_WIN_LEN_SAMPLES.
Proof.
  intros Hlt H. unfold feed_sample in H.
  apply process_full_window_room in H; [assumption|].
  cbn [stream set_stream]. rewrite size_push_sample. lia.
Qed.

Lemma feed_samples_room buffer : forall ms ms',
  size (audio_buffer (stream ms)) < AUDIO_WIN_LEN_SAMPLES ->
  feed_samples ms buffer = Ret ms' ->
  size (audio_buffer (stream ms')) < AUDIO_WIN_LEN_SAMPLES.
Proof.
  induction buffer as [|x rest IH]; intros ms ms' Hlt; cbn [feed_samples].
  - now intros [= <-].
  - destruct (feed_sample ms x) as [ms1|] eqn:E; [|discriminate].
    cbn [bind]. apply IH. eapply feed_sample_room; eassumption.
Qed.

(** The nested loops of [feedAudioContent] consume the samples one by one. *)
Lemma feedAudioContent_loop_samples buffer : forall fuel ms,
  size (audio_buffer (stream ms)) < AUDIO_WIN_LEN_SAMPLES ->
  (length buffer < fuel)%nat ->
  feedAudioContent_loop fuel ms buffer = feed_samples ms buffer.
Proof.
  induction buffer as [|x rest IH]; intros fuel ms Hlt Hfuel.
  - now rewrite feedAudioContent_loop_eq.
  - destruct fuel as [|fuel]; [lia|]. cbn [length] in Hfuel.
    rewrite feedAudioContent_loop_eq. cbn [fill_audio_buffer feed_samples].
    destruct (Z.ltb_spec (size (audio_buffer (stream ms))) AUDIO_WIN_LEN_SAMPLES); [|lia].
    unfold feed_sample.
    pose proof (size_push_sample (stream ms) x) as Hpush.
    destruct rest as [|y rest].
    + cbn [fill_audio_buffer].
      destruct (process_full_window _); [|reflexivity].
      cbn [bind feed_samples]. now rewrite feedAudioContent_loop_eq.
    + destruct (Z.eq_dec (size (audio_buffer (push_sample (stream ms) x)))
                  AUDIO_WIN_LEN_SAMPLES) as [Hfull|Hpart].
      * cbn [fill_audio_buffer]. rewrite Hfull, Z.ltb_irrefl.
        destruct (process_full_window _) as [ms1|] eqn:E; [|reflexivity].
        cbn [bind]. apply IH; [|lia].
        eapply process_full_window_room; [|exact E]. cbn [stream set_stream]. lia.
      * rewrite (process_full_window_partial (set_stream ms _)) by assumption.
        cbn [bind].
        rewrite <- (IH (S fuel) (set_stream ms (push_sample (stream ms) x)))
          by (cbn [stream set_stream length] in *; lia).
        rewrite (feedAudioContent_loop_eq (S fuel) (set_stream ms _)).
        reflexivity.
Qed.

Lemma feedAudioContent_samples ms buffer :
  size (audio_buffer (stream ms)) < AUDIO_WIN_LEN_SAMPLES ->
  feedAudioContent ms buffer = feed_samples ms buffer.
Proof.
  intros H. unfold feedAudioContent. apply feedAudioContent_loop_samples; [assumption|lia].
Qed.

Lemma feed_samples_app a : forall ms b,
  feed_samples ms (a ++ b) = (ms1 <- feed_samples ms a ;; feed_samples ms1 b).
Proof.
  induction a as [|x a IH]; intros ms b; cbn [app feed_samples bind]; [reflexivity|].
  destruct (feed_sample ms x); cbn [bind]; [apply IH|reflexivity].
Qed.

Lemma feedAudioContent_room ms buffer ms' :
  size (audio_buffer (stream ms)) < AUDIO_WIN_LEN_SAMPLES ->
  feedAudioContent ms buffer = Ret ms' ->
  size (audio_buffer (stream ms')) < AUDIO_WIN_LEN_SAMPLES.
Proof.
  intros Hlt. rewrite feedAudioContent_samples by assumption.
  now apply feed_samples_room.
Qed.

Lemma feedAudioContent_app ms a b :
  size (audio_buffer (stream ms)) < AUDIO_WIN_LEN_SAMPLES ->
  feedAudioContent ms (a ++ b) =
  (ms1 <- feedAudioContent ms a ;; feedAudioContent ms1 b).
Proof.
  intros Hlt. rewrite !feedAudioContent_samples by assumption.
  rewrite feed_samples_app.
  destruct (feed_samples ms a) as [ms1|] eqn:E; [|reflexivity].
  cbn [bind]. symmetry. apply feedAudioContent_samples.
  eapply feed_samples_room; eassumption.
Qed.

(** ** C1: chunking invariance *)

(** C1.  Chunking invariance: on a stream whose raw window is not full (every
    stream between two calls), feeding the chunks of any partition of a
    sample sequence one call after the other gives the very result of
    feeding the whole sequence in one call: the same fault, or the same
    machine, that is the same audio_buffer, last_sample, skip_next_mfcc,
    mfcc_buffer, batch_buffer and accumulated_logits, the same session and
    the same calls.  Hence finishStream afterwards gives the same result. *)
Theorem chunking_invariance ms (chunks : list (list Z)) :
  size (audio_buffer (stream ms)) < AUDIO_WIN_LEN_SAMPLES ->
  feed_chunks ms chunks = feedAudioContent ms (concat chunks) /\
  (r <- feed_chunks ms chunks ;; finishStream r) =
  (r <- feedAudioContent ms (concat chunks) ;; finishStream r).
Proof.
  intros Hlt.
  assert (H : feed_chunks ms chunks = feedAudioContent ms (concat chunks)).
  { revert ms Hlt. induction chunks as [|c rest IH]; intros ms Hlt.
    - reflexivity.
    - cbn [feed_chunks concat]. rewrite feedAudioContent_app by assumption.
      destruct (feedAudioContent ms c) as [ms1|] eqn:E; [|reflexivity].
      cbn [bind]. apply IH. eapply feedAudioContent_room; eassumption. }
  split; [exact H|]. now rewrite H.
Qed.

(** ** How the trace grows *)

Lemma front_events_app t1 t2 :
  front_events (t1 ++ t2) = front_events t1 ++ front_events t2.
Proof. apply filter_app. Qed.

Lemma front_events_batching t :
  Forall (fun e => is_batching_event e = true) t -> front_events t = [].
Proof.
  induction 1 as [|e t He _ IH]; [reflexivity|].
  unfold front_events in *. cbn [filter]. now rewrite He.
Qed.

Lemma infer_trace ms buf n ms' :
  infer ms buf n = Ret ms' ->
  exists t, trace ms' = trace ms ++ t /\
            Forall (fun e => is_batching_event e = true) t.
Proof.
  intros H. apply infer_frame in H as (l & ok & input & _ & -> & _).
  eexists. split; [reflexivity|]. now repeat constructor.
Qed.

Lemma processMfccWindow_loop_trace fuel : forall ms buf ms',
  processMfccWindow_loop fuel ms buf = Ret ms' ->
  exists t, trace ms' = trace ms ++ t /\
            Forall (fun e => is_batching_event e = true) t.
Proof.
  induction fuel as [|fuel IH]; intros ms buf ms'; rewrite processMfccWindow_loop_eq;
    destruct buf as [|x buf]; try discriminate.
  - intros [= <-]. exists []. now rewrite app_nil_r.
  - intros [= <-]. exists []. now rewrite app_nil_r.
  - cbv zeta. destruct (_ <=? _); [|discriminate].
    destruct (_ =? _).
    + unfold processBatch. destruct (infer _ _ _) as [ms2|] eqn:E; [|discriminate].
      cbn [bind]. intros H. apply IH in H as (t2 & H2 & F2).
      apply infer_trace in E as (t1 & H1 & F1).
      cbn [trace set_stream] in *. exists (t1 ++ t2).
      rewrite H2, H1, app_assoc. split; [reflexivity|]. now apply Forall_app.
    + intros H. apply IH in H as (t & H & F). now exists t.
Qed.

Lemma processMfccWindow_trace ms buf ms' :
  processMfccWindow ms buf = Ret ms' ->
  exists t, trace ms' = trace ms ++ t /\
            Forall (fun e => is_batching_event e = true) t.
Proof.
  unfold processMfccWindow. intros H.
  apply processMfccWindow_loop_trace in H as (t & H & F).
  cbn [trace log] in H. exists (EvMfccWindow buf :: t).
  rewrite H, <- app_assoc. split; [reflexivity|]. now constructor.
Qed.

Lemma pushMfccBuffer_loop_trace fuel : forall ms buf ms',
  pushMfccBuffer_loop fuel ms buf = Ret ms' ->
  exists t, trace ms' = trace ms ++ t /\
            Forall (fun e => is_batching_event e = true) t.
Proof.
  induction fuel as [|fuel IH]; intros ms buf ms'; rewrite pushMfccBuffer_loop_eq;
    destruct buf as [|x buf]; try discriminate.
  - intros [= <-]. exists []. now rewrite app_nil_r.
  - intros [= <-]. exists []. now rewrite app_nil_r.
  - cbv zeta. destruct (_ <=? _); [|discriminate].
    destruct (_ =? _).
    + destruct (processMfccWindow _ _) as [ms2|] eqn:E; [|discriminate].
      cbn [bind]. destruct (_ <=? _); [|discriminate].
      intros H. apply IH in H as (t2 & H2 & F2).
      apply processMfccWindow_trace in E as (t1 & H1 & F1).
      cbn [trace set_stream] in *. exists (t1 ++ t2).
      rewrite H2, H1, app_assoc. split; [reflexivity|]. now apply Forall_app.
    + intros H. apply IH in H as (t & H & F). now exists t.
Qed.

(** [pushMfccBuffer] logs its vector; what follows is batching. *)
Lemma pushMfccBuffer_trace ms buf ms' :
  pushMfccBuffer ms buf = Ret ms' ->
  exists t, trace ms' = trace ms ++ EvPushMfcc buf :: t /\
            Forall (fun e => is_batching_event e = true) t.
Proof.
  unfold pushMfccBuffer. intros H.
  apply pushMfccBuffer_loop_trace in H as (t & H & F).
  cbn [trace log] in H. exists t. now rewrite H, <- app_assoc.
Qed.

(** A window is either skipped, and nothing else happens, or its feature
    vector is pushed. *)
Lemma processAudioWindow_trace ms buf ms' :
  processAudioWindow ms buf = Ret ms' ->
  exists t,
    trace ms' = trace ms ++ decimated (skip_next_mfcc (stream ms)) [buf] ++ t /\
    Forall (fun e => is_batching_event e = true) t /\
    (skip_next_mfcc (stream ms) = true -> t = []).
Proof.
  unfold processAudioWindow. cbv zeta. rewrite negb_involutive.
  destruct (skip_next_mfcc (stream ms)).
  - intros [= <-]. exists []. cbn [trace log set_stream decimated app].
    repeat split. constructor.
  - cbn [decimated]. unfold feature_of.
    destruct (csf_mfcc buf) as [n mfcc].
    destruct (Z.eqb_spec n 1) as [->|]; [|discriminate].
    destruct (_ <=? _); [|discriminate].
    intros H. apply pushMfccBuffer_trace in H as (t & H & F).
    cbn [trace log set_stream snd] in *. exists t.
    rewrite H, <- !app_assoc. split; [reflexivity|]. split; [assumption|discriminate].
Qed.

Ltac split_and := repeat match goal with |- _ /\ _ => split end.

(** ** Multiples *)

Lemma multiple_step d x : x mod d = 0 -> (x + d) mod d = 0.
Proof.
  intros H. replace (x + d) with (x + 1 * d) by lia.
  now rewrite Z_mod_plus_full.
Qed.

Lemma multiple_back d x : x mod d = 0 -> (x - d) mod d = 0.
Proof.
  intros H. replace (x - d) with (x + (-1) * d) by lia.
  now rewrite Z_mod_plus_full.
Qed.

Lemma multiple_room d n x :
  0 < d -> x mod d = 0 -> x < n * d -> x + d <= n * d.
Proof.
  intros Hd Hm Hlt.
  apply Z_div_exact_full_2 in Hm; [|lia].
  set (q := x / d) in *. assert (q < n) by nia. nia.
Qed.

Lemma multiple_self d : d mod d = 0.
Proof. apply Z_mod_same_full. Qed.

(** ** The pipeline on sizes keeps its bounds *)

Section Sizes.

Hypothesis Hwf : wf_model.

Lemma featsize_pos : 0 < mfcc_feats_per_timestep model.
Proof. destruct Hwf as (_ & _ & Hc & -> & _). unfold MFCC_FEATURES. lia. Qed.

Lemma featsize_multiple : mfcc_feats_per_timestep model mod MFCC_FEATURES = 0.
Proof.
  destruct Hwf as (_ & _ & _ & -> & _).
  rewrite Z.mul_comm. apply Z_mod_mult.
Qed.

Lemma feat_ok_room s :
  feat_ok s -> sh_mfcc s + MFCC_FEATURES <= mfcc_feats_per_timestep model.
Proof.
  intros [Hb Hm]. pose proof featsize_multiple as Hf.
  apply Z_div_exact_full_2 in Hm; [|discriminate].
  apply Z_div_exact_full_2 in Hf; [|discriminate].
  unfold MFCC_FEATURES in *. lia.
Qed.

Lemma batch_ok_room s :
  batch_ok s ->
  sh_batch s + mfcc_feats_per_timestep model
    <= n_steps model * mfcc_feats_per_timestep model.
Proof.
  intros [Hb Hm]. apply multiple_room; [apply featsize_pos|assumption|lia].
Qed.

Lemma sh_timestep_ok s :
  batch_ok s ->
  batch_ok (fst (sh_timestep s)) /\
  sh_audio (fst (sh_timestep s)) = sh_audio s /\
  sh_skip (fst (sh_timestep s)) = sh_skip s /\
  sh_mfcc (fst (sh_timestep s)) = sh_mfcc s.
Proof.
  intros Hb. pose proof (batch_ok_room s Hb) as Hroom.
  pose proof featsize_pos as Hpos.
  destruct Hb as [Hb Hm]. unfold sh_timestep. cbv zeta.
  destruct (Z.eqb_spec (sh_batch s + mfcc_feats_per_timestep model)
              (n_steps model * mfcc_feats_per_timestep model));
    unfold batch_ok; cbn [fst sh_set_batch sh_audio sh_skip sh_mfcc sh_batch];
    split_and; try lia; try reflexivity.
  now apply multiple_step.
Qed.

Lemma sh_push_ok s :
  feat_ok s -> batch_ok s ->
  feat_ok (fst (sh_push s)) /\ batch_ok (fst (sh_push s)) /\
  sh_audio (fst (sh_push s)) = sh_audio s /\
  sh_skip (fst (sh_push s)) = sh_skip s.
Proof.
  intros Hf Hb. pose proof (feat_ok_room s Hf) as Hroom.
  pose proof (wf_model_bounds Hwf) as (Hmin & _).
  destruct Hf as [Hf Hm]. unfold sh_push. cbv zeta. unfold MFCC_FEATURES in *.
  destruct (Z.eqb_spec (sh_mfcc s + 26) (mfcc_feats_per_timestep model)) as [Heq|Hne].
  - destruct (sh_timestep_ok (sh_set_mfcc s (sh_mfcc s + 26)) Hb)
      as (Hb' & Ha & Hs & _).
    destruct (sh_timestep _) as [s1 t]. cbn [fst] in *.
    unfold feat_ok, batch_ok in *.
    cbn [sh_set_mfcc sh_audio sh_skip sh_mfcc sh_batch] in *.
    replace (sh_mfcc s + 26 - 26) with (sh_mfcc s) by lia.
    split_and; try tauto; try lia.
  - unfold feat_ok, batch_ok in *.
    cbn [fst sh_set_mfcc sh_audio sh_skip sh_mfcc sh_batch] in *.
    split_and; try tauto; try lia. now apply multiple_step.
Qed.

Lemma sh_window_ok s :
  feat_ok s -> batch_ok s ->
  feat_ok (fst (sh_window s)) /\ batch_ok (fst (sh_window s)) /\
  sh_audio (fst (sh_window s)) = sh_audio s /\
  sh_skip (fst (sh_window s)) = negb (sh_skip s).
Proof.
  intros Hf Hb. unfold sh_window. cbv zeta.
  destruct (negb (negb _)).
  - cbn [fst]. split_and; assumption || reflexivity || apply Hf || apply Hb.
  - destruct (sh_push_ok (sh_set_skip s (negb (sh_skip s))) Hf Hb) as (Hf' & Hb' & Ha & Hs).
    destruct (sh_push _) as [s1 t]. cbn [fst] in *. auto.
Qed.

Lemma sh_sample_ok s : shape_ok s -> shape_ok (fst (sh_sample s)).
Proof.
  intros (Ha & Hf & Hb). unfold sh_sample. cbv zeta.
  destruct (Z.eqb_spec (sh_audio s + 1) AUDIO_WIN_LEN_SAMPLES) as [Heq|Hne].
  - destruct (sh_window_ok (sh_set_audio s (sh_audio s + 1)) Hf Hb) as (Hf' & Hb' & _).
    destruct (sh_window _) as [s1 t]. cbn [fst] in *.
    split; [|split; assumption].
    cbn [sh_set_audio sh_audio]. rewrite Heq.
    unfold AUDIO_WIN_LEN_SAMPLES, AUDIO_WIN_STEP_SAMPLES. lia.
  - cbn [fst]. split; [|split; assumption]. cbn [sh_set_audio sh_audio]. lia.
Qed.

Lemma sh_feed_ok n : forall s, shape_ok s -> shape_ok (fst (sh_feed n s)).
Proof.
  induction n as [|n IH]; intros s Hs; cbn [sh_feed]; [assumption|].
  pose proof (sh_sample_ok s Hs) as H1.
  destruct (sh_sample s) as [s1 t1]. specialize (IH s1 H1).
  destruct (sh_feed n s1) as [s2 t2]. assumption.
Qed.

Lemma sh_pad_ok n : forall s,
  feat_ok s -> batch_ok s ->
  feat_ok (fst (sh_pad n s)) /\ batch_ok (fst (sh_pad n s)) /\
  sh_audio (fst (sh_pad n s)) = sh_audio s.
Proof.
  induction n as [|n IH]; intros s Hf Hb; cbn [sh_pad]; [auto|].
  destruct (sh_push_ok s Hf Hb) as (Hf1 & Hb1 & Ha1 & _).
  destruct (sh_push s) as [s1 t1]. cbn [fst] in *.
  destruct (IH s1 Hf1 Hb1) as (Hf2 & Hb2 & Ha2).
  destruct (sh_pad n s1) as [s2 t2]. cbn [fst] in *.
  split_and; try assumption; congruence.
Qed.

Lemma sh_new_ok : shape_ok sh_new.
Proof.
  destruct Hwf as (_ & _ & Hc & Hf & _).
  unfold shape_ok, feat_ok, batch_ok, sh_new. cbn [sh_audio sh_mfcc sh_batch].
  rewrite Hf. unfold AUDIO_WIN_LEN_SAMPLES, MFCC_FEATURES.
  split_and; try lia.
  - rewrite Z.mul_comm. apply Z_mod_mult.
  - destruct Hwf; nia.
  - apply Z.mod_0_l. lia.
Qed.

End Sizes.

(** ** The machine follows the pipeline on sizes *)

Lemma calls_app t1 t2 : calls (t1 ++ t2) = calls t1 ++ calls t2.
Proof. apply map_app. Qed.

Lemma infer_shape ms buf n ms' :
  infer ms buf n = Ret ms' ->
  shape (stream ms') = shape (stream ms) /\
  calls (trace ms') = calls (trace ms) ++ [CInfer n].
Proof.
  intros H. apply infer_frame in H as (l & ok & input & -> & -> & _).
  split; [reflexivity|]. now rewrite calls_app.
Qed.

Section Simulation.

Hypothesis Hwf : wf_model.

Lemma infer_returns ms buf n :
  counters_ok -> engine_ok ->
  0 <= n <= n_steps model ->
  n * mfcc_feats_per_timestep model <= size buf ->
  returns (infer ms buf n).
Proof.
  intros (Hi & Ht) Hrun Hn Hbuf. pose proof featsize_pos Hwf as Hpos.
  destruct Hwf as (Ha & Hs & Hc & Hf & Hcap).
  unfold infer. cbv zeta.
  rewrite (u32_small (n * _)) by nia.
  rewrite (u32_small (n_steps model * _)) by nia.
  rewrite (u32_small (2 * _ + 1)) by (unfold MFCC_FEATURES in *; nia).
  destruct (Z.leb_spec (n * mfcc_feats_per_timestep model) (size buf)); [|lia].
  rewrite Z.max_r by nia.
  replace (BATCH_SIZE * n_steps model * (2 * n_context model + 1) * MFCC_FEATURES)
    with (n_steps model * mfcc_feats_per_timestep model)
    by (rewrite Hf; unfold BATCH_SIZE; ring).
  rewrite Z.eqb_refl.
  destruct (Z.leb_spec (n_steps model * mfcc_feats_per_timestep model) INT_MAX); [|lia].
  cbn [andb].
  destruct (Run _ _ _) as [sess [out|]] eqn:E.
  - apply Hrun in E; [|lia]. unfold BATCH_SIZE.
    destruct (Z.leb_spec (n * 1 * num_classes) (size out)); [|lia].
    assert (Hcl : 0 <= num_classes) by (unfold num_classes; lia).
    destruct (Z.leb_spec (n * 1 * num_classes) INT_MAX); [|nia].
    eexists; reflexivity.
  - eexists; reflexivity.
Qed.

Lemma processMfccWindow_refines ms buf :
  size buf = mfcc_feats_per_timestep model ->
  batch_ok (shape (stream ms)) ->
  refines (processMfccWindow ms buf) ms (sh_timestep (shape (stream ms))).
Proof.
  intros Hbuf Hb ms'. pose proof featsize_pos Hwf as Hpos.
  pose proof (batch_ok_room Hwf _ Hb) as Hroom. cbn [shape sh_batch] in Hroom.
  rewrite processMfccWindow_closed
    by (destruct Hwf as (_ & ? & _ & _ & ?); nia || lia).
  cbv zeta. unfold sh_timestep. cbn [shape sh_batch].
  rewrite size_app, Hbuf.
  destruct (_ =? _).
  - unfold processBatch.
    destruct (infer _ _ _) as [ms2|] eqn:E; [|discriminate].
    cbn [bind]. intros [= <-]. apply infer_shape in E as (E1 & E2).
    cbn [stream set_stream trace log fst snd] in *.
    split.
    + unfold shape in *. cbn [audio_buffer skip_next_mfcc mfcc_buffer batch_buffer
        set_batch_buffer sh_set_batch sh_audio sh_skip sh_mfcc sh_batch] in *.
      injection E1 as -> -> -> _. reflexivity.
    + rewrite E2, calls_app, <- app_assoc. reflexivity.
  - intros [= <-]. cbn [stream set_stream trace log fst snd].
    split.
    + unfold shape. cbn. rewrite size_app, Hbuf. reflexivity.
    + now rewrite calls_app.
Qed.

Lemma processMfccWindow_returns ms buf :
  counters_ok -> engine_ok ->
  size buf = mfcc_feats_per_timestep model ->
  batch_ok (shape (stream ms)) ->
  returns (processMfccWindow ms buf).
Proof.
  intros Hcnt Hrun Hbuf Hb. pose proof featsize_pos Hwf as Hpos.
  pose proof (batch_ok_room Hwf _ Hb) as Hroom. cbn [shape sh_batch] in Hroom.
  rewrite processMfccWindow_closed
    by (destruct Hwf as (_ & ? & _ & _ & ?); nia || lia).
  cbv zeta.
  destruct (Z.eqb_spec (size (batch_buffer (stream ms) ++ buf))
              (n_steps model * mfcc_feats_per_timestep model)) as [Heq|].
  - unfold processBatch.
    edestruct infer_returns as [ms2 ->];
      [exact Hcnt | exact Hrun | | | cbn [bind]; eexists; reflexivity].
    + destruct Hwf as (_ & ? & _). lia.
    + rewrite Heq. lia.
  - eexists; reflexivity.
Qed.

Lemma shape_set_mfcc st v :
  shape (set_mfcc_buffer st v) = sh_set_mfcc (shape st) (size v).
Proof. reflexivity. Qed.

Lemma shape_set_audio st v :
  shape (set_audio_buffer st v) = sh_set_audio (shape st) (size v).
Proof. reflexivity. Qed.

Lemma shape_set_skip st b :
  shape (set_skip_next_mfcc st b) = sh_set_skip (shape st) b.
Proof. reflexivity. Qed.

Lemma shape_push_sample st x :
  shape (push_sample st x) = sh_set_audio (shape st) (sh_audio (shape st) + 1).
Proof. unfold shape, push_sample, sh_set_audio. cbn. now rewrite size_app. Qed.

Lemma pushMfccBuffer_refines ms buf :
  size buf = MFCC_FEATURES ->
  feat_ok (shape (stream ms)) ->
  batch_ok (shape (stream ms)) ->
  refines (pushMfccBuffer ms buf) ms (sh_push (shape (stream ms))).
Proof.
  intros Hbuf Hf Hb ms'.
  pose proof (wf_model_bounds Hwf) as (Hmin & Hmax & _).
  pose proof (feat_ok_room Hwf _ Hf) as Hroom. cbn [shape sh_mfcc] in Hroom.
  rewrite pushMfccBuffer_closed by (rewrite ?Hbuf; unfold MFCC_FEATURES in *; lia).
  cbv zeta. unfold sh_push. cbn [shape sh_mfcc]. rewrite size_app, Hbuf.
  destruct (Z.eqb_spec (size (mfcc_buffer (stream ms)) + MFCC_FEATURES)
              (mfcc_feats_per_timestep model)) as [Heq|Hne].
  - destruct (processMfccWindow _ _) as [ms2|] eqn:E; [|discriminate].
    cbn [bind]. intros H. apply Ret_inj in H. subst ms'.
    apply processMfccWindow_refines in E;
      [|now rewrite size_app, Hbuf|exact Hb].
    cbn [stream set_stream trace log] in E. rewrite shape_set_mfcc, size_app, Hbuf in E.
    fold (shape (stream ms)) in E |- *.
    destruct (sh_timestep _) as [s1 t]. destruct E as [E1 E2]. cbn [fst snd] in *.
    cbn [stream set_stream trace]. rewrite shape_set_mfcc, E1, E2.
    split.
    + f_equal. rewrite size_skipn; rewrite size_app, Hbuf;
        pose proof (size_nonneg (mfcc_buffer (stream ms))); unfold MFCC_FEATURES in *; lia.
    + rewrite calls_app, <- app_assoc. reflexivity.
  - intros [= <-]. cbn [stream set_stream trace log fst snd].
    rewrite shape_set_mfcc, size_app, Hbuf, calls_app. split; reflexivity.
Qed.

Lemma pushMfccBuffer_returns ms buf :
  counters_ok -> engine_ok ->
  size buf = MFCC_FEATURES ->
  feat_ok (shape (stream ms)) ->
  batch_ok (shape (stream ms)) ->
  returns (pushMfccBuffer ms buf).
Proof.
  intros Hcnt Hrun Hbuf Hf Hb.
  pose proof (wf_model_bounds Hwf) as (Hmin & Hmax & _).
  pose proof (feat_ok_room Hwf _ Hf) as Hroom. cbn [shape sh_mfcc] in Hroom.
  rewrite pushMfccBuffer_closed by (rewrite ?Hbuf; unfold MFCC_FEATURES in *; lia).
  cbv zeta.
  destruct (Z.eqb_spec (size (mfcc_buffer (stream ms) ++ buf))
              (mfcc_feats_per_timestep model)) as [Heq|].
  - edestruct processMfccWindow_returns as [ms2 ->];
      [exact Hcnt | exact Hrun | exact Heq | exact Hb | cbn [bind]; eexists; reflexivity].
  - eexists; reflexivity.
Qed.

Lemma size_feature n (mfcc : list float32) :
  n = 1 -> n * MFCC_FEATURES <= size mfcc ->
  size (firstn (Z.to_nat (n * MFCC_FEATURES)) mfcc) = MFCC_FEATURES.
Proof.
  intros -> H. rewrite size_firstn; unfold MFCC_FEATURES in *; lia.
Qed.

Lemma processAudioWindow_refines ms buf :
  feat_ok (shape (stream ms)) ->
  batch_ok (shape (stream ms)) ->
  refines (processAudioWindow ms buf) ms (sh_window (shape (stream ms))).
Proof.
  intros Hf Hb ms'. unfold processAudioWindow, sh_window. cbv zeta.
  cbn [shape sh_skip].
  destruct (negb (negb _)).
  - intros [= <-]. cbn [stream set_stream trace log fst snd].
    rewrite shape_set_skip, calls_app. split; reflexivity.
  - destruct (csf_mfcc buf) as [n mfcc].
    destruct (Z.eqb_spec n 1) as [Hn|]; [|discriminate].
    destruct (Z.leb_spec (n * MFCC_FEATURES) (size mfcc)) as [Hle|]; [|discriminate].
    intros H. apply pushMfccBuffer_refines in H; [|now apply size_feature|exact Hf|exact Hb].
    cbn [stream set_stream trace log] in H. rewrite shape_set_skip in H.
    fold (shape (stream ms)) in H |- *.
    destruct (sh_push _) as [s1 t]. destruct H as [H1 H2]. cbn [fst snd] in *.
    split; [exact H1|]. rewrite H2, calls_app, <- app_assoc. reflexivity.
Qed.

Lemma processAudioWindow_returns ms buf :
  counters_ok -> engine_ok ->
  (skip_next_mfcc (stream ms) = false -> one_frame buf) ->
  feat_ok (shape (stream ms)) ->
  batch_ok (shape (stream ms)) ->
  returns (processAudioWindow ms buf).
Proof.
  intros Hcnt Hrun Hone Hf Hb. unfold processAudioWindow. cbv zeta.
  rewrite negb_involutive.
  destruct (skip_next_mfcc (stream ms)); [eexists; reflexivity|].
  destruct (Hone eq_refl) as [H1 H26].
  destruct (csf_mfcc buf) as [n mfcc]. cbn [fst snd] in *. subst n.
  cbn [Z.eqb Pos.eqb].
  destruct (Z.leb_spec (1 * MFCC_FEATURES) (size mfcc)); [|lia].
  apply pushMfccBuffer_returns;
    [exact Hcnt|exact Hrun|now apply size_feature|exact Hf|exact Hb].
Qed.

Lemma feat_ok_set_audio s a : feat_ok (sh_set_audio s a) <-> feat_ok s.
Proof. reflexivity. Qed.

Lemma batch_ok_set_audio s a : batch_ok (sh_set_audio s a) <-> batch_ok s.
Proof. reflexivity. Qed.

Lemma feed_sample_refines ms x :
  shape_ok (shape (stream ms)) ->
  refines (feed_sample ms x) ms (sh_sample (shape (stream ms))).
Proof.
  intros (Ha & Hf & Hb) ms' H. unfold feed_sample in H.
  unfold sh_sample. cbv zeta.
  pose proof (shape_push_sample (stream ms) x) as Hsh.
  destruct (Z.eqb_spec (sh_audio (shape (stream ms)) + 1) AUDIO_WIN_LEN_SAMPLES)
    as [Heq|Hne].
  - apply process_full_window_full in H as (ms1 & Hp & ->);
      [|cbn [stream set_stream]; rewrite size_push_sample; exact Heq].
    cbn [stream set_stream] in Hp.
    apply processAudioWindow_refines in Hp;
      [|cbn [stream set_stream]; rewrite Hsh; assumption..].
    cbn [stream set_stream trace] in Hp. rewrite Hsh in Hp.
    destruct (sh_window _) as [s1 t]. destruct Hp as [H1 H2]. cbn [fst snd] in *.
    cbn [stream set_stream trace]. rewrite shape_set_audio, H1. split; [|exact H2].
    f_equal. pose proof (size_push_sample (stream ms) x) as Hp1.
    cbn [shape sh_audio] in Heq |- *.
    rewrite size_skipn; unfold AUDIO_WIN_LEN_SAMPLES, AUDIO_WIN_STEP_SAMPLES in *; lia.
  - rewrite process_full_window_partial in H
      by (cbn [stream set_stream]; rewrite size_push_sample; exact Hne).
    apply Ret_inj in H. subst ms'. cbn [stream set_stream trace fst snd].
    rewrite Hsh, app_nil_r. split; reflexivity.
Qed.

Lemma feed_sample_returns ms x :
  counters_ok -> engine_ok -> full_windows_ok ->
  shape_ok (shape (stream ms)) ->
  returns (feed_sample ms x).
Proof.
  intros Hcnt Hrun Hone (Ha & Hf & Hb). unfold feed_sample, process_full_window.
  cbn [stream set_stream].
  pose proof (shape_push_sample (stream ms) x) as Hsh.
  destruct (Z.eqb_spec (size (audio_buffer (push_sample (stream ms) x)))
              AUDIO_WIN_LEN_SAMPLES) as [Heq|]; [|eexists; reflexivity].
  edestruct processAudioWindow_returns as [ms1 ->];
    [exact Hcnt | exact Hrun | | | | cbn [bind]; eexists; reflexivity].
  - intros _. now apply Hone.
  - cbn [stream set_stream]. rewrite Hsh. exact Hf.
  - cbn [stream set_stream]. rewrite Hsh. exact Hb.
Qed.

Lemma feed_samples_refines buffer : forall ms,
  shape_ok (shape (stream ms)) ->
  refines (feed_samples ms buffer) ms (sh_feed (length buffer) (shape (stream ms))).
Proof.
  induction buffer as [|x rest IH]; intros ms Hok ms'; cbn [feed_samples length sh_feed].
  - intros H. apply Ret_inj in H. subst ms'. cbn [fst snd].
    now rewrite app_nil_r.
  - destruct (feed_sample ms x) as [ms1|] eqn:E; [|discriminate].
    cbn [bind]. intros H.
    pose proof (sh_sample_ok Hwf _ Hok) as Hok1.
    apply feed_sample_refines in E; [|exact Hok].
    destruct (sh_sample _) as [s1 t1]. destruct E as [E1 E2]. cbn [fst snd] in *.
    rewrite <- E1 in *.
    apply IH in H; [|exact Hok1].
    destruct (sh_feed _ _) as [s2 t2]. destruct H as [H1 H2]. cbn [fst snd] in *.
    split; [exact H1|]. now rewrite H2, E2, app_assoc.
Qed.

Lemma feed_samples_returns buffer : forall ms,
  counters_ok -> engine_ok -> full_windows_ok ->
  shape_ok (shape (stream ms)) ->
  returns (feed_samples ms buffer).
Proof.
  induction buffer as [|x rest IH]; intros ms Hcnt Hrun Hone Hok; cbn [feed_samples].
  - eexists; reflexivity.
  - destruct (feed_sample_returns ms x Hcnt Hrun Hone Hok) as [ms1 E]. rewrite E.
    cbn [bind]. apply IH; try assumption.
    apply feed_sample_refines in E as [E _]; [|exact Hok].
    rewrite E. now apply sh_sample_ok.
Qed.

Lemma shape_ok_room ms :
  shape_ok (shape (stream ms)) ->
  size (audio_buffer (stream ms)) < AUDIO_WIN_LEN_SAMPLES.
Proof. intros (Ha & _). cbn [shape sh_audio] in Ha. lia. Qed.

Lemma feedAudioContent_refines ms buffer :
  shape_ok (shape (stream ms)) ->
  refines (feedAudioContent ms buffer) ms (sh_feed (length buffer) (shape (stream ms))).
Proof.
  intros Hok. rewrite feedAudioContent_samples by now apply shape_ok_room.
  now apply feed_samples_refines.
Qed.

Lemma feedAudioContent_returns ms buffer :
  counters_ok -> engine_ok -> full_windows_ok ->
  shape_ok (shape (stream ms)) ->
  returns (feedAudioContent ms buffer).
Proof.
  intros Hcnt Hrun Hone Hok. rewrite feedAudioContent_samples by now apply shape_ok_room.
  now apply feed_samples_returns.
Qed.

(** *** The end of the stream *)

Lemma size_zero_buffer : size zero_buffer = MFCC_FEATURES.
Proof. reflexivity. Qed.

Lemma addZeroMfccWindows_refines n : forall ms,
  feat_ok (shape (stream ms)) ->
  batch_ok (shape (stream ms)) ->
  refines (addZeroMfccWindows n ms) ms (sh_pad n (shape (stream ms))).
Proof.
  induction n as [|n IH]; intros ms Hf Hb ms'; cbn [addZeroMfccWindows sh_pad].
  - intros H. apply Ret_inj in H. subst ms'. cbn [fst snd]. now rewrite app_nil_r.
  - unfold addZeroMfccWindow.
    destruct (pushMfccBuffer ms zero_buffer) as [ms1|] eqn:E; [|discriminate].
    cbn [bind]. intros H.
    destruct (sh_push_ok Hwf _ Hf Hb) as (Hf1 & Hb1 & _).
    apply pushMfccBuffer_refines in E; [|exact size_zero_buffer|exact Hf|exact Hb].
    destruct (sh_push _) as [s1 t1]. destruct E as [E1 E2]. cbn [fst snd] in *.
    rewrite <- E1 in *.
    apply IH in H; [|exact Hf1|exact Hb1].
    destruct (sh_pad _ _) as [s2 t2]. destruct H as [H1 H2]. cbn [fst snd] in *.
    split; [exact H1|]. now rewrite H2, E2, app_assoc.
Qed.

Lemma addZeroMfccWindows_returns n : forall ms,
  counters_ok -> engine_ok ->
  feat_ok (shape (stream ms)) ->
  batch_ok (shape (stream ms)) ->
  returns (addZeroMfccWindows n ms).
Proof.
  induction n as [|n IH]; intros ms Hcnt Hrun Hf Hb; cbn [addZeroMfccWindows].
  - eexists; reflexivity.
  - unfold addZeroMfccWindow.
    destruct (pushMfccBuffer_returns ms zero_buffer Hcnt Hrun size_zero_buffer Hf Hb)
      as [ms1 E].
    rewrite E. cbn [bind].
    apply pushMfccBuffer_refines in E as [E _]; [|exact size_zero_buffer|exact Hf|exact Hb].
    destruct (sh_push_ok Hwf _ Hf Hb) as (Hf1 & Hb1 & _).
    apply IH; [exact Hcnt|exact Hrun|rewrite E; exact Hf1|rewrite E; exact Hb1].
Qed.

(** The padding loop runs [n_context] times and its counter stays in range. *)
Lemma add_context_padding_eq ms :
  add_context_padding ms = addZeroMfccWindows (Z.to_nat (n_context model)) ms.
Proof.
  pose proof (wf_model_bounds Hwf) as (_ & _ & _ & Hc).
  unfold add_context_padding. rewrite Z.min_l by lia.
  destruct (Z.leb_spec (n_context model) INT_MAX); [|lia].
  destruct (addZeroMfccWindows _ _); reflexivity.
Qed.

Lemma batch_frames s :
  batch_ok s ->
  0 <= sh_batch s / mfcc_feats_per_timestep model <= n_steps model /\
  sh_batch s / mfcc_feats_per_timestep model * mfcc_feats_per_timestep model
    = sh_batch s.
Proof.
  intros [Hb Hm]. pose proof featsize_pos Hwf as Hpos.
  apply Z_div_exact_full_2 in Hm; [|lia].
  set (q := sh_batch s / mfcc_feats_per_timestep model) in *.
  split; [nia|lia].
Qed.

Lemma process_final_batch_refines ms :
  batch_ok (shape (stream ms)) ->
  refines (process_final_batch ms) ms (sh_final (shape (stream ms))).
Proof.
  intros Hb ms'. pose proof featsize_pos Hwf as Hpos.
  destruct (batch_frames _ Hb) as [Hq _].
  unfold process_final_batch, sh_final. cbv zeta. cbn [shape sh_batch] in *.
  destruct (0 <? _).
  - destruct (Z.eqb_spec (mfcc_feats_per_timestep model) 0); [lia|].
    unfold processBatch. intros H. apply infer_shape in H as [H1 H2].
    cbn [fst snd]. rewrite u32_small in H2; [now split|].
    destruct Hwf as (_ & ? & _ & _ & ?). nia.
  - intros H. apply Ret_inj in H. subst ms'. cbn [fst snd]. now rewrite app_nil_r.
Qed.

Lemma process_final_batch_returns ms :
  counters_ok -> engine_ok ->
  batch_ok (shape (stream ms)) ->
  returns (process_final_batch ms).
Proof.
  intros Hcnt Hrun Hb. pose proof featsize_pos Hwf as Hpos.
  destruct (batch_frames _ Hb) as [Hq Hmul].
  unfold process_final_batch. cbv zeta. cbn [shape sh_batch] in *.
  destruct (0 <? _); [|eexists; reflexivity].
  destruct (Z.eqb_spec (mfcc_feats_per_timestep model) 0); [lia|].
  unfold processBatch. rewrite u32_small
    by (destruct Hwf as (_ & ? & _ & _ & ?); nia).
  apply infer_returns; [exact Hcnt|exact Hrun|exact Hq|lia].
Qed.

Lemma finish_pipeline_refines ms :
  feat_ok (shape (stream ms)) ->
  batch_ok (shape (stream ms)) ->
  refines (finish_pipeline ms) ms (sh_finish (shape (stream ms))).
Proof.
  intros Hf Hb ms'. unfold finish_pipeline, sh_finish.
  destruct (processAudioWindow _ _) as [ms1|] eqn:E1; [|discriminate].
  cbn [bind]. rewrite add_context_padding_eq.
  destruct (addZeroMfccWindows _ _) as [ms2|] eqn:E2; [|discriminate].
  cbn [bind]. intros E3.
  destruct (sh_window_ok Hwf _ Hf Hb) as (Hf1 & Hb1 & _).
  apply processAudioWindow_refines in E1; [|exact Hf|exact Hb].
  destruct (sh_window _) as [s1 t1]. destruct E1 as [S1 T1]. cbn [fst snd] in *.
  rewrite <- S1 in *.
  destruct (sh_pad_ok Hwf (Z.to_nat (n_context model)) _ Hf1 Hb1) as (Hf2 & Hb2 & _).
  apply addZeroMfccWindows_refines in E2; [|exact Hf1|exact Hb1].
  destruct (sh_pad _ _) as [s2 t2]. destruct E2 as [S2 T2]. cbn [fst snd] in *.
  rewrite <- S2 in *.
  apply process_final_batch_refines in E3; [|exact Hb2].
  destruct (sh_final _) as [s3 t3]. destruct E3 as [S3 T3]. cbn [fst snd] in *.
  split; [exact S3|]. now rewrite T3, T2, T1, <- !app_assoc.
Qed.

Lemma finish_pipeline_returns ms :
  counters_ok -> engine_ok ->
  (skip_next_mfcc (stream ms) = false -> one_frame (audio_buffer (stream ms))) ->
  feat_ok (shape (stream ms)) ->
  batch_ok (shape (stream ms)) ->
  returns (finish_pipeline ms).
Proof.
  intros Hcnt Hrun Hone Hf Hb. unfold finish_pipeline.
  destruct (processAudioWindow_returns ms _ Hcnt Hrun Hone Hf Hb) as [ms1 E1].
  rewrite E1. cbn [bind]. rewrite add_context_padding_eq.
  destruct (sh_window_ok Hwf _ Hf Hb) as (Hf1 & Hb1 & _).
  apply processAudioWindow_refines in E1 as [S1 _]; [|exact Hf|exact Hb].
  rewrite <- S1 in *.
  destruct (addZeroMfccWindows_returns (Z.to_nat (n_context model)) ms1 Hcnt Hrun Hf1 Hb1)
    as [ms2 E2].
  rewrite E2. cbn [bind].
  destruct (sh_pad_ok Hwf (Z.to_nat (n_context model)) _ Hf1 Hb1) as (_ & Hb2 & _).
  apply addZeroMfccWindows_refines in E2 as [S2 _]; [|exact Hf1|exact Hb1].
  rewrite <- S2 in *.
  now apply process_final_batch_returns.
Qed.

(** *** Bounds on the buffers *)


Lemma new_stream_mfcc :
  mfcc_buffer new_stream
  = repeat f32_zero (Z.to_nat (n_context model * MFCC_FEATURES)).
Proof.
  destruct Hwf as (_ & Hs & Hc & Hf & Hcap).
  unfold new_stream, resize. cbn [mfcc_buffer firstn length app].
  rewrite firstn_nil, Nat.sub_0_r. cbn [app].
  rewrite u32_small by (unfold MFCC_FEATURES in *; nia).
  now rewrite Z.mul_comm.
Qed.

Lemma shape_new_stream : shape new_stream = sh_new.
Proof.
  destruct Hwf as (_ & _ & Hc & _).
  unfold shape, sh_new. rewrite new_stream_mfcc, size_repeat.
  cbn [new_stream audio_buffer batch_buffer skip_next_mfcc].
  rewrite !size_nil. f_equal. unfold MFCC_FEATURES. lia.
Qed.

Lemma DS_SetupStream_start sess ms :
  DS_SetupStream sess = Some ms -> ms = start (fst (initialize_state sess)).
Proof.
  unfold DS_SetupStream, start. destruct (initialize_state sess) as [sess1 [|]];
    [|discriminate]. now intros [= <-].
Qed.

Lemma finishStream_pipeline ms :
  finishStream ms =
  (ms3 <- finish_pipeline ms ;;
   text <- decode (accumulated_logits (stream ms3)) ;;
   Ret (text, ms3)).
Proof.
  unfold finishStream, finish_pipeline.
  destruct (processAudioWindow _ _); cbn [bind]; [|reflexivity].
  destruct (add_context_padding _); reflexivity.
Qed.


(** *** [infer] on a batch of the pipeline *)

Lemma infer_closed ms buf n :
  0 <= n <= n_steps model ->
  n * mfcc_feats_per_timestep model <= size buf ->
  infer ms buf n =
  if n_steps model * mfcc_feats_per_timestep model <=? INT_MAX then
    let input := infer_input buf n in
    match Run (session ms) input n with
    | (sess, None) =>
        Ret {| stream := stream ms; session := sess;
               trace := trace ms ++ [EvInfer input n false] |}
    | (sess, Some logits_mapped) =>
        if (n * num_classes <=? size logits_mapped) && (n * num_classes <=? INT_MAX) then
          Ret {| stream :=
                   set_accumulated_logits (stream ms)
                     (accumulated_logits (stream ms)
                        ++ firstn (Z.to_nat (n * num_classes)) logits_mapped);
                 session := sess;
                 trace := trace ms ++ [EvInfer input n true] |}
        else Fail UndefinedBehaviour
    end
  else Fail UndefinedBehaviour.
Proof.
  intros Hn Hbuf. pose proof featsize_pos Hwf as Hpos.
  destruct Hwf as (Ha & Hs & Hc & Hf & Hcap).
  unfold infer, infer_input. cbv zeta.
  rewrite (u32_small (n * _)) by nia.
  rewrite (u32_small (n_steps model * _)) by nia.
  rewrite (u32_small (2 * _ + 1)) by (unfold MFCC_FEATURES in *; nia).
  destruct (Z.leb_spec (n * mfcc_feats_per_timestep model) (size buf)); [|lia].
  rewrite Z.max_r by nia.
  replace (BATCH_SIZE * n_steps model * (2 * n_context model + 1) * MFCC_FEATURES)
    with (n_steps model * mfcc_feats_per_timestep model)
    by (rewrite Hf; unfold BATCH_SIZE; ring).
  rewrite Z.eqb_refl. cbn [andb].
  replace (n * BATCH_SIZE * num_classes) with (n * num_classes)
    by (unfold BATCH_SIZE; ring).
  reflexivity.
Qed.

Lemma decode_returns logits :
  (forall inputs, ctc_beam_search_decoder inputs (beam_width model) <> []) ->
  returns (decode logits).
Proof.
  intros Hdec. destruct Hwf as (Ha & _). unfold decode, num_classes, BATCH_SIZE.
  destruct (Z.ltb_spec 0 (1 * (alphabet_size model + 1))); [|lia].
  cbv zeta. match goal with |- context [ctc_beam_search_decoder ?i ?b] =>
    specialize (Hdec i); destruct (ctc_beam_search_decoder i b) as [|[p tokens] rest] end.
  - contradiction.
  - eexists; reflexivity.
Qed.

Lemma finishStream_returns ms :
  counters_ok -> engine_ok ->
  (forall inputs, ctc_beam_search_decoder inputs (beam_width model) <> []) ->
  (skip_next_mfcc (stream ms) = false -> one_frame (audio_buffer (stream ms))) ->
  shape_ok (shape (stream ms)) ->
  returns (finishStream ms).
Proof.
  intros Hcnt Hrun Hdec Hone (Ha & Hf & Hb). rewrite finishStream_pipeline.
  destruct (finish_pipeline_returns ms Hcnt Hrun Hone Hf Hb) as [ms3 ->]. cbn [bind].
  destruct (decode_returns (accumulated_logits (stream ms3)) Hdec) as [text ->].
  cbn [bind]. eexists; reflexivity.
Qed.

End Simulation.

(** ** A stream that was just set up *)

Lemma start_room sess :
  size (audio_buffer (stream (start sess))) < AUDIO_WIN_LEN_SAMPLES.
Proof. cbn. unfold AUDIO_WIN_LEN_SAMPLES. lia. Qed.

Lemma start_shape_ok sess : wf_model -> shape_ok (shape (stream (start sess))).
Proof.
  intros Hwf. cbn [stream start]. rewrite shape_new_stream by assumption.
  now apply sh_new_ok.
Qed.

(** ** The fuel is enough *)

(** Running out of fuel stands for a loop that does not end.  With a
    capacity of the batch that is not zero, no loop of the pipeline runs out
    of the fuel it is given. *)

Lemma infer_fuel ms buf n : infer ms buf n <> Fail OutOfFuel.
Proof.
  unfold infer. cbv zeta. destruct (_ && _); [|discriminate].
  destruct (Run _ _ _) as [sess [out|]]; [|discriminate].
  destruct (_ && _); discriminate.
Qed.

Section Fuel.

Hypothesis Hcap : u32 (n_steps model * mfcc_feats_per_timestep model) <> 0.
Hypothesis Hfeat : 0 <= mfcc_feats_per_timestep model < 2 ^ 32.

Lemma capacity_pos : 0 < u32 (n_steps model * mfcc_feats_per_timestep model) < 2 ^ 32.
Proof.
  pose proof (Z.mod_pos_bound (n_steps model * mfcc_feats_per_timestep model) (2 ^ 32)
                ltac:(reflexivity)) as H.
  unfold u32 in *. lia.
Qed.

Lemma processMfccWindow_loop_fuel fuel : forall ms buf,
  size buf < 2 ^ 32 ->
  (length buf
   + (if (size (batch_buffer (stream ms))
          <? u32 (n_steps model * mfcc_feats_per_timestep model))%Z
      then 0 else 1) <= fuel)%nat ->
  processMfccWindow_loop fuel ms buf <> Fail OutOfFuel.
Proof.
  pose proof capacity_pos as Hpos.
  induction fuel as [|fuel IH]; intros ms buf Hsz Hfuel;
    rewrite processMfccWindow_loop_eq; destruct buf as [|x buf]; try discriminate.
  - cbn [length] in Hfuel. lia.
  - cbv zeta.
    set (cap := u32 (n_steps model * mfcc_feats_per_timestep model)) in *.
    set (l := x :: buf) in *.
    assert (Hl : 0 < size l) by (unfold l; rewrite size_cons; pose proof (size_nonneg buf); lia).
    pose proof (size_nonneg (batch_buffer (stream ms))) as Hb.
    rewrite (u32_small (size l)) by lia.
    set (next := Z.min (size l) (u32 (cap - size (batch_buffer (stream ms))))).
    assert (Hnext : 0 <= next <= size l).
    { unfold next.
      pose proof (Z.mod_pos_bound (cap - size (batch_buffer (stream ms))) (2 ^ 32)
                    ltac:(reflexivity)).
      unfold u32 at 1. lia. }
    assert (Hrest : length (skipn (Z.to_nat next) l) = (length l - Z.to_nat next)%nat)
      by apply length_skipn.
    assert (Hrsz : size (skipn (Z.to_nat next) l) < 2 ^ 32)
      by (rewrite size_skipn by lia; lia).
    rewrite size_app, size_firstn by lia.
    destruct (Z.ltb_spec (size (batch_buffer (stream ms))) cap) as [Hlt|Hge].
    + assert (Hone : 1 <= next <= cap - size (batch_buffer (stream ms))).
      { unfold next. rewrite u32_small by lia. lia. }
      destruct (Z.leb_spec (size (batch_buffer (stream ms)) + next) cap); [|lia].
      destruct (Z.eqb_spec (size (batch_buffer (stream ms)) + next) cap).
      * unfold processBatch. destruct (infer _ _ _) as [ms2|f] eqn:E.
        -- cbn [bind]. apply IH; [assumption|].
           cbn [stream set_stream batch_buffer set_batch_buffer]. rewrite resize_0.
           change (size (@nil float32)) with 0.
           destruct (Z.ltb_spec 0 cap); [|lia]. unfold size in *. lia.
        -- cbn [bind]. intros [= ->]. now apply infer_fuel in E.
      * apply IH; [assumption|].
        cbn [stream set_stream batch_buffer set_batch_buffer].
        rewrite size_app, size_firstn by lia.
        destruct (Z.ltb_spec (size (batch_buffer (stream ms)) + next) cap); [|lia].
        unfold size in *. lia.
    + destruct (Z.leb_spec (size (batch_buffer (stream ms)) + next) cap); [|discriminate].
      assert (Hz : next = 0) by lia.
      destruct (Z.eqb_spec (size (batch_buffer (stream ms)) + next) cap); [|lia].
      unfold processBatch. destruct (infer _ _ _) as [ms2|f] eqn:E.
      * cbn [bind]. apply IH; [assumption|].
        cbn [stream set_stream batch_buffer set_batch_buffer]. rewrite resize_0.
        change (size (@nil float32)) with 0.
        destruct (Z.ltb_spec 0 cap); [|lia]. rewrite Hrest, Hz. lia.
      * cbn [bind]. intros [= ->]. now apply infer_fuel in E.
Qed.

Lemma processMfccWindow_fuel ms buf :
  size buf < 2 ^ 32 -> processMfccWindow ms buf <> Fail OutOfFuel.
Proof.
  intros Hsz. unfold processMfccWindow. apply processMfccWindow_loop_fuel; [assumption|].
  destruct (_ <? _); lia.
Qed.

Lemma pushMfccBuffer_loop_fuel fuel : forall ms buf,
  (length buf
   + (if (size (mfcc_buffer (stream ms)) <? mfcc_feats_per_timestep model)%Z
      then 0 else 1) <= fuel)%nat ->
  pushMfccBuffer_loop fuel ms buf <> Fail OutOfFuel.
Proof.
  induction fuel as [|fuel IH]; intros ms buf Hfuel;
    rewrite pushMfccBuffer_loop_eq; destruct buf as [|x buf]; try discriminate.
  - cbn [length] in Hfuel. lia.
  - cbv zeta.
    set (fpt := mfcc_feats_per_timestep model) in *.
    set (l := x :: buf) in *.
    assert (Hl : 0 < size l) by (unfold l; rewrite size_cons; pose proof (size_nonneg buf); lia).
    pose proof (size_nonneg (mfcc_buffer (stream ms))) as Hb.
    set (next := Z.min (size l) (u32 (fpt - size (mfcc_buffer (stream ms))))).
    assert (Hnext : 0 <= next <= size l).
    { unfold next.
      pose proof (Z.mod_pos_bound (fpt - size (mfcc_buffer (stream ms))) (2 ^ 32)
                    ltac:(reflexivity)).
      unfold u32 at 1. lia. }
    assert (Hrest : length (skipn (Z.to_nat next) l) = (length l - Z.to_nat next)%nat)
      by apply length_skipn.
    rewrite size_app, size_firstn by lia.
    destruct (Z.leb_spec (size (mfcc_buffer (stream ms)) + next) fpt) as [Hle|];
      [|discriminate].
    assert (Hstep : (if size (mfcc_buffer (stream ms)) <? fpt then 1 <= next else next = 0)).
    { destruct (Z.ltb_spec (size (mfcc_buffer (stream ms))) fpt).
      - unfold next. rewrite u32_small by lia. lia.
      - lia. }
    assert (Hleft : (length (skipn (Z.to_nat next) l) <= fuel)%nat).
    { rewrite Hrest. destruct (size (mfcc_buffer (stream ms)) <? fpt);
        unfold size in *; lia. }
    destruct (Z.eqb_spec (size (mfcc_buffer (stream ms)) + next) fpt) as [Heq|Hne].
    + destruct (processMfccWindow _ _) as [ms2|f] eqn:E.
      * cbn [bind].
        destruct (Z.leb_spec MFCC_FEATURES (size (mfcc_buffer (stream ms2)))) as [Hm|];
          [|discriminate].
        apply IH. cbn [stream set_stream mfcc_buffer set_mfcc_buffer].
        rewrite resize_rotate by (unfold MFCC_FEATURES in *; lia).
        rewrite size_skipn by (unfold MFCC_FEATURES in *; lia).
        apply processMfccWindow_kept in E as (_ & _ & _ & E).
        cbn [stream set_stream mfcc_buffer set_mfcc_buffer] in E.
        rewrite E, size_app, size_firstn, Heq by lia.
        destruct (Z.ltb_spec (fpt - MFCC_FEATURES) fpt);
          [lia|unfold MFCC_FEATURES in *; lia].
      * cbn [bind]. intros [= ->]. revert E. apply processMfccWindow_fuel.
        rewrite size_app, size_firstn by lia. unfold fpt in *. lia.
    + apply IH. cbn [stream set_stream mfcc_buffer set_mfcc_buffer].
      rewrite size_app, size_firstn by lia.
      destruct (Z.ltb_spec (size (mfcc_buffer (stream ms)) + next) fpt); lia.
Qed.

Lemma pushMfccBuffer_fuel ms buf : pushMfccBuffer ms buf <> Fail OutOfFuel.
Proof.
  unfold pushMfccBuffer. apply pushMfccBuffer_loop_fuel. destruct (_ <? _); lia.
Qed.

Lemma processAudioWindow_fuel ms buf : processAudioWindow ms buf <> Fail OutOfFuel.
Proof.
  unfold processAudioWindow. cbv zeta. destruct (negb (negb _)); [discriminate|].
  destruct (csf_mfcc buf) as [n mfcc].
  destruct (_ =? _); [|discriminate]. destruct (_ <=? _); [|discriminate].
  apply pushMfccBuffer_fuel.
Qed.

Lemma feed_samples_fuel buffer : forall ms, feed_samples ms buffer <> Fail OutOfFuel.
Proof.
  induction buffer as [|x rest IH]; intros ms; cbn [feed_samples]; [discriminate|].
  unfold feed_sample, process_full_window.
  destruct (_ =? _).
  - destruct (processAudioWindow _ _) as [ms1|f] eqn:E; cbn [bind].
    + apply IH.
    + intros [= ->]. revert E. apply processAudioWindow_fuel.
  - cbn [bind]. apply IH.
Qed.

Lemma feedAudioContent_fuel ms buffer :
  size (audio_buffer (stream ms)) < AUDIO_WIN_LEN_SAMPLES ->
  feedAudioContent ms buffer <> Fail OutOfFuel.
Proof.
  intros Hroom. rewrite feedAudioContent_samples by assumption.
  apply feed_samples_fuel.
Qed.

Lemma addZeroMfccWindows_fuel n : forall ms,
  addZeroMfccWindows n ms <> Fail OutOfFuel.
Proof.
  induction n as [|n IH]; intros ms; cbn [addZeroMfccWindows]; [discriminate|].
  unfold addZeroMfccWindow.
  destruct (pushMfccBuffer ms zero_buffer) as [ms1|f] eqn:E; cbn [bind].
  - apply IH.
  - intros [= ->]. revert E. apply pushMfccBuffer_fuel.
Qed.

Lemma finishStream_fuel ms : finishStream ms <> Fail OutOfFuel.
Proof.
  unfold finishStream.
  destruct (processAudioWindow _ _) as [ms1|f] eqn:E1; cbn [bind];
    [|intros [= ->]; revert E1; apply processAudioWindow_fuel].
  unfold add_context_padding.
  destruct (addZeroMfccWindows _ ms1) as [ms2|f] eqn:E2; cbn [bind];
    [|intros [= ->]; revert E2; apply addZeroMfccWindows_fuel].
  destruct (_ <=? _); cbn [bind]; [|discriminate].
  destruct (process_final_batch ms2) as [ms3|f] eqn:E3; cbn [bind].
  - unfold decode. destruct (0 <? _); [|discriminate]. cbv zeta.
    destruct (ctc_beam_search_decoder _ _) as [|[p tokens] rest]; discriminate.
  - intros [= ->]. revert E3. unfold process_final_batch. cbv zeta.
    destruct (0 <? _); [|discriminate]. destruct (_ =? _); [discriminate|].
    apply infer_fuel.
Qed.

End Fuel.

(** ** The logits and the calls *)



Section Logits.

Hypothesis Hsteps : 0 <= n_steps model.
Hypothesis Hclasses : 0 <= num_classes.














End Logits.

(** ** C5: an inference failure does not stop the stream *)


(** ** C7: sizes of the feature window and of the batch *)


(** ** C8: the feature window slides by one vector *)

(** C8.  FeatureWindower sliding.  A feature vector of MFCC_FEATURES values
    pushed into a window with room for it is appended to mfcc_buffer.  When
    the size then reaches mfcc_feats_per_timestep, the whole buffer goes to
    processMfccWindow as one timestep, and afterwards the buffer has lost its
    first MFCC_FEATURES values: it keeps the newest
    mfcc_feats_per_timestep - MFCC_FEATURES ones, in order (the pushed vector
    last, when the window holds more than one vector).  Otherwise nothing
    else happens. *)
Theorem feature_window_sliding ms vec :
  MFCC_FEATURES <= mfcc_feats_per_timestep model < 2 ^ 32 ->
  size vec = MFCC_FEATURES ->
  size (mfcc_buffer (stream ms)) + size vec <= mfcc_feats_per_timestep model ->
  let window := mfcc_buffer (stream ms) ++ vec in
  let kept := skipn (Z.to_nat MFCC_FEATURES) window in
  let ms1 :=
    set_stream (log ms (EvPushMfcc vec)) (set_mfcc_buffer (stream ms) window) in
  pushMfccBuffer ms vec =
    (if size window =? mfcc_feats_per_timestep model then
       ms2 <- processMfccWindow ms1 window ;;
       Ret (set_stream ms2 (set_mfcc_buffer (stream ms2) kept))
     else Ret ms1) /\
  (size window = mfcc_feats_per_timestep model ->
   size kept = mfcc_feats_per_timestep model - MFCC_FEATURES /\
   window = firstn (Z.to_nat MFCC_FEATURES) window ++ kept /\
   (MFCC_FEATURES <= size (mfcc_buffer (stream ms)) ->
    kept = skipn (Z.to_nat MFCC_FEATURES) (mfcc_buffer (stream ms)) ++ vec)).
Proof.
  intros Hf Hvec Hroom window kept ms1. split.
  - subst window kept ms1.
    apply pushMfccBuffer_closed;
      [assumption|rewrite Hvec; unfold MFCC_FEATURES; lia|assumption].
  - intros Hfull. subst kept window.
    pose proof (size_nonneg (mfcc_buffer (stream ms))) as Hnn.
    split_and.
    + rewrite size_skipn; rewrite Hfull; unfold MFCC_FEATURES in *; lia.
    + symmetry. apply firstn_skipn.
    + intros Hold. rewrite skipn_app.
      replace (Z.to_nat MFCC_FEATURES - length (mfcc_buffer (stream ms)))%nat with O;
        [reflexivity|].
      unfold size, MFCC_FEATURES in *. lia.
Qed.

(** ** C9: pre-emphasis *)

(** C9.  Pre-emphasis filter.  On a stream whose raw window is not full,
    feeding the sample x first appends x - PREEMPHASIS_COEFF * last_sample,
    computed in binary32, to audio_buffer and sets last_sample to x; then the
    window is processed if it became full, and the rest of the samples is
    fed.  last_sample is a field of the stream, so it is the sample of the
    previous call when a call starts; processing a window does not touch it,
    and the appended value stays the last of audio_buffer. *)
Theorem preemphasis_filter ms x rest :
  size (audio_buffer (stream ms)) < AUDIO_WIN_LEN_SAMPLES ->
  let st := stream ms in
  let y := f32_sub (f32_of_Z x) (f32_mul PREEMPHASIS_COEFF (last_sample st)) in
  let st1 :=
    {| accumulated_logits := accumulated_logits st;
       audio_buffer := audio_buffer st ++ [y];
       last_sample := f32_of_Z x;
       mfcc_buffer := mfcc_buffer st;
       batch_buffer := batch_buffer st;
       skip_next_mfcc := skip_next_mfcc st |} in
  feedAudioContent ms (x :: rest) =
    (ms1 <- process_full_window (set_stream ms st1) ;; feedAudioContent ms1 rest) /\
  (size (audio_buffer st) + 1 < AUDIO_WIN_LEN_SAMPLES ->
   feedAudioContent ms [x] = Ret (set_stream ms st1)) /\
  (forall ms1,
     process_full_window (set_stream ms st1) = Ret ms1 ->
     last_sample (stream ms1) = f32_of_Z x /\
     exists older, audio_buffer (stream ms1) = older ++ [y]).
Proof.
  intros Hlt st y st1.
  assert (Hst1 : st1 = push_sample st x) by reflexivity.
  assert (Hsize : size (audio_buffer st1) = size (audio_buffer st) + 1)
    by (rewrite Hst1; apply size_push_sample).
  split_and.
  - rewrite feedAudioContent_samples by assumption. cbn [feed_samples].
    unfold feed_sample. fold st. rewrite <- Hst1.
    destruct (process_full_window (set_stream ms st1)) as [ms1|] eqn:E; [|reflexivity].
    cbn [bind]. symmetry. apply feedAudioContent_samples.
    eapply process_full_window_room; [|exact E]. cbn [stream set_stream]. subst st. lia.
  - intros Hroom. rewrite feedAudioContent_samples by assumption. cbn [feed_samples].
    unfold feed_sample. fold st. rewrite <- Hst1.
    rewrite process_full_window_partial; [reflexivity|].
    cbn [stream set_stream]. lia.
  - intros ms1 H.
    destruct (Z.eq_dec (size (audio_buffer st1)) AUDIO_WIN_LEN_SAMPLES) as [Hfull|Hpart].
    + apply process_full_window_full in H as (ms2 & Hp & ->); [|exact Hfull].
      apply processAudioWindow_kept in Hp as (_ & Hlast & _).
      cbn [stream set_stream set_audio_buffer audio_buffer last_sample] in *.
      split; [exact Hlast|].
      exists (skipn (Z.to_nat AUDIO_WIN_STEP_SAMPLES) (audio_buffer st)).
      subst st1. cbn [audio_buffer] in *. rewrite size_app in Hfull.
      rewrite skipn_app.
      replace (Z.to_nat AUDIO_WIN_STEP_SAMPLES - length (audio_buffer st))%nat with O;
        [reflexivity|].
      unfold size, AUDIO_WIN_STEP_SAMPLES, AUDIO_WIN_LEN_SAMPLES in *.
      cbn [length] in Hfull. lia.
    + rewrite process_full_window_partial in H by exact Hpart.
      apply Ret_inj in H. subst ms1. cbn [stream set_stream].
      split; [reflexivity|]. now exists (audio_buffer st).
Qed.

(** ** Windows, one after the other *)

Lemma set_stream_twice ms st1 st2 :
  set_stream (set_stream ms st1) st2 = set_stream ms st2.
Proof. reflexivity. Qed.

Lemma bind_Ret {A : Type} (m : result A) : (a <- m ;; Ret a) = m.
Proof. now destruct m. Qed.

Lemma push_samples_fields buffer : forall st,
  size (audio_buffer (push_samples st buffer)) = size (audio_buffer st) + size buffer /\
  skip_next_mfcc (push_samples st buffer) = skip_next_mfcc st /\
  mfcc_buffer (push_samples st buffer) = mfcc_buffer st /\
  batch_buffer (push_samples st buffer) = batch_buffer st.
Proof.
  induction buffer as [|x rest IH]; intros st; cbn [push_samples fold_left].
  - rewrite size_nil. split_and; reflexivity || lia.
  - destruct (IH (push_sample st x)) as (H1 & H2 & H3 & H4).
    unfold push_samples in *. rewrite H1, H2, H3, H4, size_push_sample, size_cons.
    split_and; reflexivity || lia.
Qed.

(** Samples that fit in the window are only stored. *)
Lemma feed_samples_fill buffer : forall ms,
  size (audio_buffer (stream ms)) + size buffer < AUDIO_WIN_LEN_SAMPLES ->
  feed_samples ms buffer = Ret (set_stream ms (push_samples (stream ms) buffer)).
Proof.
  induction buffer as [|x rest IH]; intros ms Hlt; cbn [feed_samples push_samples fold_left].
  - now destruct ms.
  - rewrite size_cons in Hlt. pose proof (size_nonneg rest).
    unfold feed_sample. rewrite process_full_window_partial
      by (cbn [stream set_stream]; rewrite size_push_sample; lia).
    cbn [bind]. rewrite IH by (cbn [stream set_stream]; rewrite size_push_sample; lia).
    reflexivity.
Qed.

(** Samples that fill the window exactly: the full window is processed. *)
Lemma feed_samples_window buffer : forall ms,
  0 < size buffer ->
  size (audio_buffer (stream ms)) + size buffer = AUDIO_WIN_LEN_SAMPLES ->
  feed_samples ms buffer =
  process_full_window (set_stream ms (push_samples (stream ms) buffer)).
Proof.
  induction buffer as [|x rest IH]; intros ms Hpos Hfull.
  - exfalso. revert Hpos. unfold size. cbn. lia.
  - rewrite size_cons in Hfull. cbn [feed_samples push_samples fold_left].
    unfold feed_sample. destruct rest as [|y rest].
    + cbn [feed_samples fold_left]. apply bind_Ret.
    + pose proof (size_nonneg rest). rewrite size_cons in Hfull.
      rewrite process_full_window_partial
        by (cbn [stream set_stream]; rewrite size_push_sample; lia).
      cbn [bind]. rewrite IH.
      * reflexivity.
      * rewrite size_cons. lia.
      * cbn [stream set_stream]. rewrite size_push_sample, size_cons. lia.
Qed.

(** What processing a full window does to the samples and to the trace. *)
Lemma full_window_step ms ms' :
  size (audio_buffer (stream ms)) = AUDIO_WIN_LEN_SAMPLES ->
  process_full_window ms = Ret ms' ->
  exists t,
    trace ms' =
      trace ms ++ decimated (skip_next_mfcc (stream ms)) [audio_buffer (stream ms)] ++ t /\
    Forall (fun e => is_batching_event e = true) t /\
    (skip_next_mfcc (stream ms) = true -> t = []) /\
    audio_buffer (stream ms')
      = skipn (Z.to_nat AUDIO_WIN_STEP_SAMPLES) (audio_buffer (stream ms)) /\
    skip_next_mfcc (stream ms') = negb (skip_next_mfcc (stream ms)).
Proof.
  intros Hfull H. apply process_full_window_full in H as (ms1 & Hp & ->); [|exact Hfull].
  pose proof (processAudioWindow_kept _ _ _ Hp) as (_ & _ & Hskip).
  apply processAudioWindow_trace in Hp as (t & Ht & Hb & Hnil).
  exists t. cbn [stream set_stream trace set_audio_buffer audio_buffer skip_next_mfcc].
  split_and; assumption || reflexivity.
Qed.

Lemma front_events_decimated ws : forall b,
  front_events (decimated b ws) = decimated b ws.
Proof.
  induction ws as [|w ws IH]; intros b; [reflexivity|].
  destruct b; cbn [decimated]; unfold front_events in *;
    cbn [filter is_batching_event negb]; now rewrite IH.
Qed.

Lemma decimated_snoc ws : forall b w,
  decimated b (ws ++ [w]) =
  decimated b ws ++ decimated (xorb b (Nat.odd (length ws))) [w].
Proof.
  induction ws as [|v ws IH]; intros b w.
  - cbn [app decimated length]. now rewrite xorb_false_r.
  - cbn [app length]. rewrite Nat.odd_succ, <- Nat.negb_odd.
    destruct b; cbn [decimated]; rewrite IH; cbn [app xorb negb];
      destruct (Nat.odd (length ws)); reflexivity.
Qed.

Lemma window_outcomes_app t1 t2 :
  window_outcomes (t1 ++ t2) = window_outcomes t1 ++ window_outcomes t2.
Proof. apply flat_map_app. Qed.

Lemma window_outcomes_front tr :
  window_outcomes (front_events tr) = window_outcomes tr.
Proof.
  induction tr as [|e tr IH]; [reflexivity|].
  unfold window_outcomes, front_events in *.
  destruct e; cbn [filter is_batching_event negb flat_map app]; now rewrite IH.
Qed.

Lemma window_outcomes_decimated ws : forall b k skipped,
  nth_error (window_outcomes (decimated b ws)) k = Some skipped ->
  skipped = xorb b (Nat.odd k).
Proof.
  induction ws as [|w ws IH]; intros b k skipped.
  - destruct k; discriminate.
  - destruct b; cbn [decimated window_outcomes flat_map app];
      fold (window_outcomes (decimated false ws));
      fold (window_outcomes (decimated true ws));
      (destruct k as [|k]; cbn [nth_error];
       [intros [= <-]; reflexivity
       |intros H; apply IH in H; rewrite H, Nat.odd_succ, <- Nat.negb_odd;
        now destruct (Nat.odd k)]).
Qed.

(** The windows seen so far alternate, the first one extracted, and the
    toggle tells which kind comes next. *)
Lemma feed_sample_decimation ms x ms' :
  (exists ws, front_events (trace ms) = decimated false ws /\
              skip_next_mfcc (stream ms) = Nat.odd (length ws)) ->
  feed_sample ms x = Ret ms' ->
  exists ws, front_events (trace ms') = decimated false ws /\
             skip_next_mfcc (stream ms') = Nat.odd (length ws).
Proof.
  intros (ws & Hfront & Hskip) H. unfold feed_sample in H.
  set (ms1 := set_stream ms (push_sample (stream ms) x)) in *.
  destruct (Z.eq_dec (size (audio_buffer (stream ms1))) AUDIO_WIN_LEN_SAMPLES)
    as [Hfull|Hpart].
  - apply full_window_step in H as (t & Ht & Hb & _ & _ & Hs); [|exact Hfull].
    exists (ws ++ [audio_buffer (stream ms1)]). split.
    + rewrite Ht, !front_events_app, front_events_decimated.
      rewrite (front_events_batching t) by assumption.
      rewrite app_nil_r, decimated_snoc. cbn [xorb].
      subst ms1. cbn [trace set_stream stream push_sample skip_next_mfcc] in *.
      now rewrite Hfront, Hskip.
    + rewrite Hs. subst ms1. cbn [stream set_stream push_sample skip_next_mfcc].
      rewrite Hskip, length_app. cbn [length].
      rewrite Nat.add_1_r, Nat.odd_succ, <- Nat.negb_odd. reflexivity.
  - rewrite process_full_window_partial in H by exact Hpart.
    apply Ret_inj in H. subst ms'. exists ws. now split.
Qed.

Lemma feed_samples_decimation buffer : forall ms ms',
  (exists ws, front_events (trace ms) = decimated false ws /\
              skip_next_mfcc (stream ms) = Nat.odd (length ws)) ->
  feed_samples ms buffer = Ret ms' ->
  exists ws, front_events (trace ms') = decimated false ws /\
             skip_next_mfcc (stream ms') = Nat.odd (length ws).
Proof.
  induction buffer as [|x rest IH]; intros ms ms' Hinv; cbn [feed_samples].
  - intros H. apply Ret_inj in H. now subst ms'.
  - destruct (feed_sample ms x) as [ms1|] eqn:E; [|discriminate].
    cbn [bind]. apply IH. eapply feed_sample_decimation; eassumption.
Qed.

(** ** C10: which windows give a feature vector *)

(** C10.  Initial decimation phase.  Whatever is fed, in whatever chunks, to
    a stream that was just set up (skip_next_mfcc is false), the windows
    processed so far alternate: the 1st, 3rd, 5th, ... are passed to the
    extractor and their feature vector is pushed, the 2nd, 4th, 6th, ... are
    skipped.  In particular the first completed window yields a feature
    vector.  (Index k counts from 0, so the window of index k is skipped
    exactly when k is odd.) *)
Theorem initial_decimation_phase sess chunks ms' :
  feed_chunks (start sess) chunks = Ret ms' ->
  exists ws,
    front_events (trace ms') = decimated false ws /\
    skip_next_mfcc (stream ms') = Nat.odd (length ws) /\
    forall k skipped,
      nth_error (window_outcomes (trace ms')) k = Some skipped ->
      skipped = Nat.odd k.
Proof.
  intros H.
  assert (Hinv : exists ws,
             front_events (trace ms') = decimated false ws /\
             skip_next_mfcc (stream ms') = Nat.odd (length ws)).
  { assert (Hstart : size (audio_buffer (stream (start sess))) < AUDIO_WIN_LEN_SAMPLES)
      by (cbn; unfold AUDIO_WIN_LEN_SAMPLES; lia).
    assert (Hinv0 : exists ws,
               front_events (trace (start sess)) = decimated false ws /\
               skip_next_mfcc (stream (start sess)) = Nat.odd (length ws))
      by (exists []; split; reflexivity).
    revert H Hstart Hinv0. generalize (start sess).
    induction chunks as [|c rest IH]; intros ms H Hroom Hinv; cbn [feed_chunks] in H.
    - apply Ret_inj in H. now subst ms'.
    - destruct (feedAudioContent ms c) as [ms1|] eqn:E; [|discriminate].
      cbn [bind] in H. apply (IH ms1 H).
      + eapply feedAudioContent_room; eassumption.
      + rewrite feedAudioContent_samples in E by assumption.
        eapply feed_samples_decimation; eassumption. }
  destruct Hinv as (ws & Hfront & Hskip). exists ws. split_and; try assumption.
  intros k skipped Hk. rewrite <- window_outcomes_front, Hfront in Hk.
  now apply window_outcomes_decimated in Hk.
Qed.

(** ** C2: the first two windows *)

(** A feature vector that does not complete a batch is pushed without a
    call to the engine. *)
Lemma pushMfccBuffer_quiet ms buf :
  wf_model ->
  size buf = MFCC_FEATURES ->
  size (mfcc_buffer (stream ms)) + MFCC_FEATURES <= mfcc_feats_per_timestep model ->
  size (batch_buffer (stream ms)) + mfcc_feats_per_timestep model
    <= n_steps model * mfcc_feats_per_timestep model ->
  size (mfcc_buffer (stream ms)) + MFCC_FEATURES < mfcc_feats_per_timestep model \/
  size (batch_buffer (stream ms)) + mfcc_feats_per_timestep model
    < n_steps model * mfcc_feats_per_timestep model ->
  returns (pushMfccBuffer ms buf).
Proof.
  intros Hwf Hbuf Hm Hb Hquiet.
  pose proof (wf_model_bounds Hwf) as (Hmin & Hmax & _).
  pose proof (size_nonneg (batch_buffer (stream ms))) as Hnn.
  rewrite pushMfccBuffer_closed by (rewrite ?Hbuf; unfold MFCC_FEATURES in *; lia).
  cbv zeta.
  destruct (Z.eqb_spec (size (mfcc_buffer (stream ms) ++ buf))
              (mfcc_feats_per_timestep model)) as [Heq|]; [|eexists; reflexivity].
  assert (Hcap : 0 <= n_steps model * mfcc_feats_per_timestep model < 2 ^ 32)
    by (destruct Hwf as (_ & ? & _ & _ & ?); unfold MFCC_FEATURES in *; nia).
  rewrite processMfccWindow_closed;
    [|exact Hcap|rewrite Heq; unfold MFCC_FEATURES in *; lia
     |cbn [stream set_stream log set_mfcc_buffer batch_buffer]; rewrite Heq; exact Hb].
  cbv zeta. cbn [stream set_stream log set_mfcc_buffer batch_buffer].
  rewrite size_app, Heq.
  rewrite size_app, Hbuf in Heq.
  destruct (Z.eqb_spec (size (batch_buffer (stream ms)) + mfcc_feats_per_timestep model)
              (n_steps model * mfcc_feats_per_timestep model)); [lia|].
  cbn [bind]. eexists; reflexivity.
Qed.

(** Without such a batch, the first window is pushed and the second one
    skipped. *)
Lemma first_windows_quiet sess buffer :
  wf_model -> full_windows_ok ->
  size buffer = AUDIO_WIN_LEN_SAMPLES + AUDIO_WIN_STEP_SAMPLES ->
  n_steps model <> 1 \/ n_context model <> 0 ->
  returns (feedAudioContent (start sess) buffer).
Proof.
  intros Hwf Hone Hsize Hquiet.
  pose proof (wf_model_bounds Hwf) as (Hmin & Hmax & Hcap & _).
  set (b1 := firstn (Z.to_nat AUDIO_WIN_LEN_SAMPLES) buffer).
  set (b2 := skipn (Z.to_nat AUDIO_WIN_LEN_SAMPLES) buffer).
  assert (Hb1 : size b1 = AUDIO_WIN_LEN_SAMPLES)
    by (apply size_firstn; unfold AUDIO_WIN_LEN_SAMPLES, AUDIO_WIN_STEP_SAMPLES in *; lia).
  assert (Hb2 : size b2 = AUDIO_WIN_STEP_SAMPLES)
    by (unfold b2; rewrite size_skipn;
        unfold AUDIO_WIN_LEN_SAMPLES, AUDIO_WIN_STEP_SAMPLES in *; lia).
  assert (Hbuf : buffer = b1 ++ b2) by (symmetry; apply firstn_skipn).
  rewrite Hbuf, feedAudioContent_samples, feed_samples_app by apply start_room.
  (* the first window is pushed *)
  rewrite feed_samples_window
    by (cbn [stream start new_stream audio_buffer]; rewrite ?size_nil, Hb1;
        unfold AUDIO_WIN_LEN_SAMPLES; lia).
  set (full1 := set_stream (start sess) (push_samples (stream (start sess)) b1)).
  destruct (push_samples_fields b1 (stream (start sess))) as (Ha1 & Hs1 & Hm1 & Hbt1).
  assert (Hfull1 : size (audio_buffer (stream full1)) = AUDIO_WIN_LEN_SAMPLES)
    by (unfold full1; cbn [stream set_stream]; rewrite Ha1, Hb1; reflexivity).
  assert (E1 : returns (processAudioWindow full1 (audio_buffer (stream full1)))).
  { unfold processAudioWindow. cbv zeta. unfold full1 at 1 2. cbn [stream set_stream].
    rewrite Hs1. cbn [start stream new_stream skip_next_mfcc negb].
    destruct (Hone _ Hfull1) as [H1 H26].
    destruct (csf_mfcc (audio_buffer (stream full1))) as [n mfcc]. cbn [fst snd] in *.
    subst n. cbn [Z.eqb Pos.eqb].
    destruct (Z.leb_spec (1 * MFCC_FEATURES) (size mfcc)); [|lia].
    pose proof Hwf as (_ & Hs & Hc & Hf & _).
    apply pushMfccBuffer_quiet; [exact Hwf|now apply size_feature|..];
      cbn [stream set_stream log set_skip_next_mfcc mfcc_buffer batch_buffer];
      unfold full1; cbn [stream set_stream]; rewrite ?Hm1, ?Hbt1;
      cbn [start stream]; rewrite ?(new_stream_mfcc Hwf);
      cbn [new_stream batch_buffer]; rewrite ?size_repeat, ?size_nil;
      rewrite ?Hf; unfold MFCC_FEATURES in *.
    - lia.
    - nia.
    - destruct Hquiet as [Hq|Hq]; [right; nia|left; lia]. }
  destruct E1 as [ms1 E1].
  unfold process_full_window. rewrite Hfull1, Z.eqb_refl, E1. cbn [bind].
  (* the second window is skipped *)
  apply processAudioWindow_kept in E1 as (Ha & _ & Hskip).
  unfold full1 in Hskip. cbn [stream set_stream] in Hskip. rewrite Hs1 in Hskip.
  cbn [start stream new_stream skip_next_mfcc negb] in Hskip.
  set (ms1' := set_stream ms1 _).
  assert (Hleft : size (audio_buffer (stream ms1'))
                  = AUDIO_WIN_LEN_SAMPLES - AUDIO_WIN_STEP_SAMPLES).
  { unfold ms1'. cbn [stream set_stream set_audio_buffer audio_buffer].
    rewrite resize_rotate, size_skipn; rewrite Ha, Hfull1;
      unfold AUDIO_WIN_LEN_SAMPLES, AUDIO_WIN_STEP_SAMPLES; lia. }
  rewrite feed_samples_window
    by (rewrite ?Hleft, Hb2; unfold AUDIO_WIN_LEN_SAMPLES, AUDIO_WIN_STEP_SAMPLES; lia).
  destruct (push_samples_fields b2 (stream ms1')) as (Ha2 & Hs2 & _).
  unfold process_full_window. cbn [stream set_stream].
  rewrite Ha2, Hleft, Hb2.
  change (AUDIO_WIN_LEN_SAMPLES - AUDIO_WIN_STEP_SAMPLES + AUDIO_WIN_STEP_SAMPLES
          =? AUDIO_WIN_LEN_SAMPLES) with true. cbv iota.
  unfold processAudioWindow. cbv zeta. cbn [stream set_stream].
  rewrite Hs2. unfold ms1'. cbn [stream set_stream set_audio_buffer skip_next_mfcc].
  rewrite Hskip. cbn [negb bind]. eexists; reflexivity.
Qed.

(** The first two windows of a stream reach the engine only when one
    timestep makes a batch: with one step per batch and no context. *)
Lemma first_windows_return sess buffer :
  wf_model -> engine_ok -> full_windows_ok ->
  num_classes <= INT_MAX ->
  size buffer = AUDIO_WIN_LEN_SAMPLES + AUDIO_WIN_STEP_SAMPLES ->
  returns (feedAudioContent (start sess) buffer).
Proof.
  intros Hwf Hrun Hone Hcl Hsize.
  destruct (Z.eq_dec (n_steps model) 1) as [Hs1|Hs1].
  - destruct (Z.eq_dec (n_context model) 0) as [Hc0|Hc0].
    + apply feedAudioContent_returns; try assumption; [|now apply start_shape_ok].
      destruct Hwf as (_ & _ & _ & Hf & _).
      unfold counters_ok. rewrite Hf, Hs1, Hc0. unfold MFCC_FEATURES, INT_MAX in *. lia.
    + now apply first_windows_quiet; [..|right].
  - now apply first_windows_quiet; [..|left].
Qed.

(** C2, as the code has it.  Window arithmetic with decimation: on a stream
    that was just set up, after exactly AUDIO_WIN_LEN_SAMPLES samples one
    window w1 has been processed and audio_buffer keeps
    AUDIO_WIN_LEN_SAMPLES - AUDIO_WIN_STEP_SAMPLES samples; after
    AUDIO_WIN_STEP_SAMPLES more, a second window w2 has been processed.  Of
    the two only the first yields a feature vector: the second is skipped.
    The alphabet with its blank fits an int: with one step per batch and no
    context the first window already makes a batch, and infer counts its
    logits with an int. *)
Theorem window_arithmetic sess buffer :
  wf_model -> engine_ok -> full_windows_ok ->
  num_classes <= INT_MAX ->
  size buffer = AUDIO_WIN_LEN_SAMPLES + AUDIO_WIN_STEP_SAMPLES ->
  exists ms1 ms2 w1 w2,
    feedAudioContent (start sess) (firstn (Z.to_nat AUDIO_WIN_LEN_SAMPLES) buffer)
      = Ret ms1 /\
    front_events (trace ms1) = [EvAudioWindow w1 false; EvPushMfcc (feature_of w1)] /\
    size (audio_buffer (stream ms1)) = AUDIO_WIN_LEN_SAMPLES - AUDIO_WIN_STEP_SAMPLES /\
    feedAudioContent (start sess) buffer = Ret ms2 /\
    front_events (trace ms2) =
      [EvAudioWindow w1 false; EvPushMfcc (feature_of w1); EvAudioWindow w2 true] /\
    size (audio_buffer (stream ms2)) = AUDIO_WIN_LEN_SAMPLES - AUDIO_WIN_STEP_SAMPLES /\
    size w1 = AUDIO_WIN_LEN_SAMPLES /\ size w2 = AUDIO_WIN_LEN_SAMPLES.
Proof.
  intros Hwf Hrun Hone Hcl Hsize.
  set (b1 := firstn (Z.to_nat AUDIO_WIN_LEN_SAMPLES) buffer).
  set (b2 := skipn (Z.to_nat AUDIO_WIN_LEN_SAMPLES) buffer).
  assert (Hb1 : size b1 = AUDIO_WIN_LEN_SAMPLES)
    by (apply size_firstn; unfold AUDIO_WIN_LEN_SAMPLES, AUDIO_WIN_STEP_SAMPLES in *; lia).
  assert (Hb2 : size b2 = AUDIO_WIN_STEP_SAMPLES)
    by (unfold b2; rewrite size_skipn;
        unfold AUDIO_WIN_LEN_SAMPLES, AUDIO_WIN_STEP_SAMPLES in *; lia).
  assert (Hbuf : buffer = b1 ++ b2) by (symmetry; apply firstn_skipn).
  pose proof (start_room sess) as Hroom.
  destruct (first_windows_return sess buffer Hwf Hrun Hone Hcl Hsize) as [ms2 E2].
  pose proof E2 as E. rewrite Hbuf, feedAudioContent_app in E by assumption.
  destruct (feedAudioContent (start sess) b1) as [ms1|] eqn:E1; [|discriminate].
  cbn [bind] in E.
  (* the first window *)
  pose proof E1 as F1. rewrite feedAudioContent_samples in F1 by assumption.
  rewrite feed_samples_window in F1
    by (cbn [stream start new_stream audio_buffer]; rewrite ?size_nil, Hb1;
        unfold AUDIO_WIN_LEN_SAMPLES; lia).
  set (full1 := set_stream (start sess) (push_samples (stream (start sess)) b1)) in *.
  destruct (push_samples_fields b1 (stream (start sess))) as (Ha1 & Hs1 & _).
  assert (Hfull1 : size (audio_buffer (stream full1)) = AUDIO_WIN_LEN_SAMPLES)
    by (unfold full1; cbn [stream set_stream]; rewrite Ha1, Hb1; reflexivity).
  apply full_window_step in F1 as (t1 & Ht1 & Hbat1 & _ & Haud1 & Hskip1); [|exact Hfull1].
  unfold full1 in Ht1, Hskip1.
  cbn [stream set_stream trace] in Ht1, Hskip1. rewrite Hs1 in Ht1, Hskip1.
  cbn [start stream trace new_stream skip_next_mfcc negb app] in Ht1, Hskip1.
  assert (Hleft : size (audio_buffer (stream ms1))
                  = AUDIO_WIN_LEN_SAMPLES - AUDIO_WIN_STEP_SAMPLES).
  { rewrite Haud1, size_skipn; rewrite Hfull1;
      unfold AUDIO_WIN_LEN_SAMPLES, AUDIO_WIN_STEP_SAMPLES; lia. }
  (* the second window *)
  assert (Hroom1 : size (audio_buffer (stream ms1)) < AUDIO_WIN_LEN_SAMPLES)
    by (rewrite Hleft; unfold AUDIO_WIN_LEN_SAMPLES, AUDIO_WIN_STEP_SAMPLES; lia).
  rewrite feedAudioContent_samples in E by assumption.
  rewrite feed_samples_window in E
    by (rewrite ?Hleft, Hb2; unfold AUDIO_WIN_LEN_SAMPLES, AUDIO_WIN_STEP_SAMPLES; lia).
  set (full2 := set_stream ms1 (push_samples (stream ms1) b2)) in *.
  destruct (push_samples_fields b2 (stream ms1)) as (Ha2 & Hs2 & _).
  assert (Hfull2 : size (audio_buffer (stream full2)) = AUDIO_WIN_LEN_SAMPLES).
  { unfold full2. cbn [stream set_stream]. rewrite Ha2, Hleft, Hb2.
    unfold AUDIO_WIN_LEN_SAMPLES, AUDIO_WIN_STEP_SAMPLES. lia. }
  apply full_window_step in E as (t2 & Ht2 & _ & Hnil2 & Haud2 & _); [|exact Hfull2].
  unfold full2 in Ht2, Hnil2.
  cbn [stream set_stream trace] in Ht2, Hnil2. rewrite Hs2, Hskip1 in Ht2, Hnil2.
  rewrite (Hnil2 eq_refl), app_nil_r in Ht2.
  exists ms1, ms2, (audio_buffer (stream full1)), (audio_buffer (stream full2)).
  split_and; try assumption; try reflexivity.
  - rewrite Ht1, front_events_app, front_events_decimated.
    rewrite (front_events_batching t1) by assumption. reflexivity.
  - rewrite Ht2, Ht1, !front_events_app, !front_events_decimated.
    rewrite (front_events_batching t1) by assumption. reflexivity.
  - rewrite Haud2, size_skipn; rewrite Hfull2;
      unfold AUDIO_WIN_LEN_SAMPLES, AUDIO_WIN_STEP_SAMPLES; lia.
Qed.

(** ** C3: context padding at the end of the stream *)

Lemma pushed_vectors_app t1 t2 :
  pushed_vectors (t1 ++ t2) = pushed_vectors t1 ++ pushed_vectors t2.
Proof. apply flat_map_app. Qed.

Lemma pushed_vectors_batching t :
  Forall (fun e => is_batching_event e = true) t -> pushed_vectors t = [].
Proof.
  induction 1 as [|e t He _ IH]; [reflexivity|].
  unfold pushed_vectors in *. destruct e; try discriminate; cbn [flat_map app]; exact IH.
Qed.

Lemma window_outcomes_batching t :
  Forall (fun e => is_batching_event e = true) t -> window_outcomes t = [].
Proof.
  induction 1 as [|e t He _ IH]; [reflexivity|].
  unfold window_outcomes in *. destruct e; try discriminate; cbn [flat_map app]; exact IH.
Qed.

(** The padding loop pushes [n] zero vectors and processes no window. *)
Lemma addZeroMfccWindows_trace n : forall ms ms',
  addZeroMfccWindows n ms = Ret ms' ->
  exists t,
    trace ms' = trace ms ++ t /\
    pushed_vectors t = repeat zero_buffer n /\
    window_outcomes t = [].
Proof.
  induction n as [|n IH]; intros ms ms'; cbn [addZeroMfccWindows].
  - intros H. apply Ret_inj in H. subst ms'. exists []. now rewrite app_nil_r.
  - unfold addZeroMfccWindow.
    destruct (pushMfccBuffer ms zero_buffer) as [ms1|] eqn:E; [|discriminate].
    cbn [bind]. intros H. apply IH in H as (t2 & H2 & P2 & W2).
    apply pushMfccBuffer_trace in E as (t1 & H1 & F1).
    exists ((EvPushMfcc zero_buffer :: t1) ++ t2). split_and.
    + now rewrite H2, H1, app_assoc.
    + rewrite pushed_vectors_app, P2.
      change (EvPushMfcc zero_buffer :: t1) with ([EvPushMfcc zero_buffer] ++ t1).
      rewrite pushed_vectors_app, (pushed_vectors_batching t1) by assumption.
      reflexivity.
    + rewrite window_outcomes_app, W2.
      change (EvPushMfcc zero_buffer :: t1) with ([EvPushMfcc zero_buffer] ++ t1).
      rewrite window_outcomes_app, (window_outcomes_batching t1) by assumption.
      reflexivity.
Qed.

(** The final flush is at most one inference call. *)
Lemma process_final_batch_trace ms ms' :
  process_final_batch ms = Ret ms' ->
  exists t,
    trace ms' = trace ms ++ t /\
    (t = [] \/ exists input n ok, t = [EvInfer input n ok]).
Proof.
  unfold process_final_batch. cbv zeta.
  destruct (0 <? _).
  - destruct (_ =? _); [discriminate|]. unfold processBatch. intros H.
    apply infer_frame in H as (l & ok & input & _ & H & _).
    eexists. split; [exact H|]. right. now eexists _, _, _.
  - intros H. apply Ret_inj in H. subst ms'. exists []. rewrite app_nil_r. auto.
Qed.


(** ** C6: decoding nothing, and finishing a stream that was fed nothing *)

Lemma call_frames_app c1 c2 : call_frames (c1 ++ c2) = call_frames c1 ++ call_frames c2.
Proof. apply flat_map_app. Qed.

Lemma call_timesteps_app c1 c2 :
  call_timesteps (c1 ++ c2) = (call_timesteps c1 + call_timesteps c2)%nat.
Proof. unfold call_timesteps. now rewrite filter_app, length_app. Qed.

Lemma call_frames_pushes n : call_frames (repeat CPush n) = [].
Proof. induction n; [reflexivity|exact IHn]. Qed.

Lemma call_timesteps_pushes n : call_timesteps (repeat CPush n) = O.
Proof. induction n; [reflexivity|exact IHn]. Qed.

Lemma infer_frames_calls tr : infer_frames tr = call_frames (calls tr).
Proof.
  induction tr as [|e tr IH]; [reflexivity|].
  unfold infer_frames, call_frames, calls in *.
  destruct e; cbn [map call_of flat_map app]; now rewrite IH.
Qed.

Lemma timesteps_calls tr : length (timesteps tr) = call_timesteps (calls tr).
Proof.
  induction tr as [|e tr IH]; [reflexivity|].
  unfold timesteps, call_timesteps, calls in *.
  destruct e; cbn [map call_of flat_map app filter length]; now rewrite IH.
Qed.

Section EmptyStream.

Hypothesis Hwf : wf_model.

(** Pushes that do not fill the feature window only make it grow. *)
Lemma sh_pad_fill k : forall s,
  sh_mfcc s + MFCC_FEATURES * Z.of_nat k < mfcc_feats_per_timestep model ->
  sh_pad k s = (sh_set_mfcc s (sh_mfcc s + MFCC_FEATURES * Z.of_nat k), repeat CPush k).
Proof.
  unfold MFCC_FEATURES.
  induction k as [|k IH]; intros s Hlt; cbn [sh_pad repeat].
  - destruct s as [a b m c]. unfold sh_set_mfcc. cbn [sh_audio sh_skip sh_mfcc sh_batch].
    replace (m + 26 * Z.of_nat 0) with m by lia. reflexivity.
  - unfold sh_push. cbv zeta. unfold MFCC_FEATURES.
    destruct (Z.eqb_spec (sh_mfcc s + 26) (mfcc_feats_per_timestep model)); [lia|].
    rewrite IH by (cbn [sh_set_mfcc sh_mfcc]; lia).
    cbn [sh_set_mfcc sh_mfcc sh_audio sh_skip sh_batch app].
    replace (sh_mfcc s + 26 + 26 * Z.of_nat k)
      with (sh_mfcc s + 26 * Z.of_nat (S k)) by lia.
    reflexivity.
Qed.

Lemma sh_pad_S k s :
  sh_pad (S k) s =
  let '(s1, t1) := sh_push s in
  let '(s2, t2) := sh_pad k s1 in
  (s2, t1 ++ t2).
Proof. reflexivity. Qed.

Lemma sh_pad_snoc k : forall s,
  sh_pad (S k) s =
  let '(s1, t1) := sh_pad k s in
  let '(s2, t2) := sh_push s1 in
  (s2, t1 ++ t2).
Proof.
  induction k as [|k IH]; intros s.
  - cbn [sh_pad]. destruct (sh_push s) as [s1 t1]. cbn [app]. now rewrite app_nil_r.
  - rewrite (sh_pad_S (S k) s), (sh_pad_S k s).
    destruct (sh_push s) as [s1 t1]. rewrite IH.
    destruct (sh_pad k s1) as [s2 t2]. destruct (sh_push s2) as [s3 t3].
    now rewrite app_assoc.
Qed.

(** A stream finished right after its setup: one timestep, one inference
    call, on one frame. *)
Lemma sh_finish_new :
  call_frames (snd (sh_finish sh_new)) = [1] /\
  call_timesteps (snd (sh_finish sh_new)) = 1%nat.
Proof.
  pose proof featsize_pos Hwf as Hpos.
  destruct Hwf as (_ & Hs & Hc & Hf & _).
  unfold sh_finish, sh_window. cbv zeta. cbn [sh_new sh_skip negb].
  set (s0 := sh_set_skip sh_new true).
  destruct (sh_push s0) as [s1 t1] eqn:E1.
  destruct (sh_pad (Z.to_nat (n_context model)) s1) as [s2 t2] eqn:E2.
  assert (E : sh_pad (S (Z.to_nat (n_context model))) s0 = (s2, t1 ++ t2))
    by (rewrite sh_pad_S; now rewrite E1, E2).
  rewrite sh_pad_snoc, sh_pad_fill in E
    by (unfold s0; cbn [sh_mfcc sh_set_skip sh_new]; unfold MFCC_FEATURES in *; lia).
  unfold sh_push, sh_timestep in E. cbv zeta in E. unfold s0 in E.
  cbn [sh_set_mfcc sh_mfcc sh_batch sh_audio sh_skip sh_new sh_set_skip] in E.
  destruct (Z.eqb_spec
              (MFCC_FEATURES * n_context model
               + MFCC_FEATURES * Z.of_nat (Z.to_nat (n_context model)) + MFCC_FEATURES)
              (mfcc_feats_per_timestep model)) as [_|Hne];
    [|unfold MFCC_FEATURES in *; lia].
  destruct (sh_final s2) as [s3 t3] eqn:E3. cbn [snd].
  replace ((CWindow false :: t1) ++ t2 ++ t3)
    with ([CWindow false] ++ (t1 ++ t2) ++ t3)
    by (cbn [app]; now rewrite app_assoc).
  unfold sh_final in E3.
  destruct (Z.eqb_spec (0 + mfcc_feats_per_timestep model)
              (n_steps model * mfcc_feats_per_timestep model)) as [H1|H1];
    cbn [sh_set_batch sh_set_mfcc sh_mfcc sh_batch sh_audio sh_skip] in E;
    apply pair_equal_spec in E as [Es Et]; rewrite <- Et; rewrite <- Es in E3;
    cbn [sh_batch sh_set_mfcc sh_set_batch sh_set_skip sh_new] in E3.
  - assert (Hone : n_steps model = 1) by nia. rewrite Hone.
    cbn [Z.ltb Z.compare] in E3. apply pair_equal_spec in E3 as [_ <-].
    rewrite !call_frames_app, !call_timesteps_app,
      call_frames_pushes, call_timesteps_pushes. split; reflexivity.
  - destruct (Z.ltb_spec 0 (0 + mfcc_feats_per_timestep model)); [|lia].
    apply pair_equal_spec in E3 as [_ <-].
    replace ((0 + mfcc_feats_per_timestep model) / mfcc_feats_per_timestep model)
      with 1 by (rewrite Z.add_0_l, Z_div_same_full; lia).
    rewrite !call_frames_app, !call_timesteps_app,
      call_frames_pushes, call_timesteps_pushes. split; reflexivity.
Qed.

End EmptyStream.

(** C6, as the code has it.  Empty-input decode: decoding an empty logit
    sequence returns the empty transcript and is not an error.  A stream
    finished right after its setup, with no sample fed, is not that case:
    finishStream still passes the empty raw window to the extractor and adds
    the context padding, which makes exactly one timestep and one inference
    call, on one frame.  The transcript is the decoder's for the logits
    accumulated by that call; it is the empty one when they are empty.
    The stream returns when the int counters of infer can count the batch
    of the model and its logits. *)
Theorem empty_input_decode :
  wf_model -> counters_ok -> engine_ok -> decoder_contract ->
  decode [] = Ret EmptyString /\
  forall sess,
    one_frame [] ->
    exists text ms',
      finishStream (start sess) = Ret (text, ms') /\
      length (timesteps (trace ms')) = 1%nat /\
      infer_frames (trace ms') = [1] /\
      decode (accumulated_logits (stream ms')) = Ret text /\
      (accumulated_logits (stream ms') = [] -> text = EmptyString).
Proof.
  intros Hwf Hcnt Hrun (Hdec & (p & rest & Hnil) & Hlab).
  assert (Hempty : decode [] = Ret EmptyString).
  { destruct Hwf as (Ha & _). unfold decode, num_classes, BATCH_SIZE.
    destruct (Z.ltb_spec 0 (1 * (alphabet_size model + 1))); [|lia].
    cbv zeta. change (size (@nil float32)) with 0.
    rewrite Z.div_0_l by lia. cbn [Z.to_nat seq map].
    now rewrite Hnil, Hlab. }
  split; [exact Hempty|].
  intros sess Hone.
  pose proof (start_shape_ok sess Hwf) as Hok.
  destruct (finishStream_returns Hwf (start sess) Hcnt Hrun Hdec (fun _ => Hone) Hok)
    as [[text ms'] E].
  exists text, ms'. pose proof E as E'.
  rewrite finishStream_pipeline in E'.
  destruct (finish_pipeline (start sess)) as [ms3|] eqn:E3; [|discriminate].
  cbn [bind] in E'.
  destruct (decode (accumulated_logits (stream ms3))) as [text'|] eqn:E4; [|discriminate].
  cbn [bind] in E'. apply Ret_inj in E'. injection E' as -> ->.
  destruct Hok as (_ & Hf & Hb).
  apply finish_pipeline_refines in E3 as [_ T]; [|assumption..].
  cbn [start stream trace calls map app] in T.
  rewrite shape_new_stream in T by assumption.
  destruct (sh_finish_new Hwf) as [Hframes Hsteps].
  split_and.
  - exact E.
  - now rewrite timesteps_calls, T.
  - now rewrite infer_frames_calls, T.
  - exact E4.
  - intros Hz. rewrite Hz, Hempty in E4. now apply Ret_inj in E4.
Qed.

(** ** A whole stream follows the pipeline on sizes *)

Lemma stream_summary_shape sess buffer :
  wf_model -> counters_ok -> engine_ok -> full_windows_ok ->
  (forall w, size w < AUDIO_WIN_LEN_SAMPLES -> one_frame w) ->
  (forall inputs, ctc_beam_search_decoder inputs (beam_width model) <> []) ->
  exists text,
    stream_summary sess buffer = Ret (shape_summary (length buffer), text).
Proof.
  intros Hwf Hcnt Hrun Hfull Hpart Hdec. unfold stream_summary, shape_summary.
  pose proof (start_shape_ok sess Hwf) as Hok.
  destruct (feedAudioContent_returns Hwf (start sess) buffer Hcnt Hrun Hfull Hok)
    as [ms1 E1].
  rewrite E1. cbn [bind].
  apply feedAudioContent_refines in E1 as [S1 T1]; [|assumption..].
  cbn [start stream trace calls map app] in S1, T1.
  rewrite shape_new_stream in S1, T1 by assumption.
  pose proof (sh_feed_ok Hwf (length buffer) _ (sh_new_ok Hwf)) as Hok1.
  rewrite <- S1 in Hok1.
  assert (Hone : skip_next_mfcc (stream ms1) = false
                 -> one_frame (audio_buffer (stream ms1))).
  { intros _. apply Hpart. now apply shape_ok_room. }
  destruct (finishStream_returns Hwf ms1 Hcnt Hrun Hdec Hone Hok1) as [[text ms2] E2].
  rewrite E2. cbn [bind fst snd]. exists text.
  rewrite finishStream_pipeline in E2.
  destruct (finish_pipeline ms1) as [ms3|] eqn:E3; [|discriminate].
  cbn [bind] in E2.
  destruct (decode (accumulated_logits (stream ms3))); [|discriminate].
  cbn [bind] in E2. apply Ret_inj in E2. injection E2 as _ <-.
  destruct Hok1 as (_ & Hf1 & Hb1).
  apply finish_pipeline_refines in E3 as [_ T3]; [|assumption..].
  rewrite S1 in T3.
  now rewrite !infer_frames_calls, timesteps_calls, T3, T1.
Qed.

(** ** Sliding windows over a list *)

Lemma frames_S {A : Type} len step n (l : list A) :
  frames len step (S n) l = frames len step n l ++ [frame_at len step n l].
Proof. unfold frames. now rewrite seq_S, map_app. Qed.

Lemma length_frames {A : Type} len step n (l : list A) :
  length (frames len step n l) = n.
Proof. unfold frames. now rewrite length_map, length_seq. Qed.

(** A full window does not see what is appended behind it. *)
Lemma frame_at_app {A : Type} len step k (l v : list A) :
  (step * k + len <= length l)%nat ->
  frame_at len step k (l ++ v) = frame_at len step k l.
Proof.
  intros H. unfold frame_at. rewrite skipn_app, firstn_app, length_skipn.
  replace (len - (length l - step * k))%nat with O by lia.
  now rewrite firstn_0, app_nil_r.
Qed.

Lemma frames_app {A : Type} len step n (l v : list A) :
  n = O \/ (step * (n - 1) + len <= length l)%nat ->
  frames len step n (l ++ v) = frames len step n l.
Proof.
  intros H. unfold frames. apply map_ext_in. intros k Hk.
  apply in_seq in Hk. apply frame_at_app. destruct H as [->|H]; [lia|]. nia.
Qed.

Lemma slides_start {A : Type} len step (l : list A) : slides len step l l [].
Proof.
  unfold slides. cbn [length]. rewrite Nat.mul_0_r. cbn [skipn frames seq map].
  repeat split; auto; lia.
Qed.

(** Values appended to the buffer. *)
Lemma slides_app {A : Type} len step (fed buf v : list A) emitted :
  slides len step fed buf emitted ->
  slides len step (fed ++ v) (buf ++ v) emitted.
Proof.
  unfold slides. cbv zeta. intros (Hbuf & Hle & Hem & Hfull).
  repeat match goal with |- _ /\ _ => split end.
  - rewrite skipn_app, <- Hbuf.
    replace (step * length emitted - length fed)%nat with O by lia.
    reflexivity.
  - rewrite length_app. lia.
  - now rewrite frames_app.
  - rewrite length_app. destruct Hfull; [now left|right; lia].
Qed.

(** A full buffer is emitted and shifted by one step. *)
Lemma slides_emit {A : Type} len step (fed buf : list A) emitted :
  slides len step fed buf emitted ->
  length buf = len -> (step <= len)%nat ->
  slides len step fed (skipn step buf) (emitted ++ [buf]).
Proof.
  unfold slides. cbv zeta. intros (Hbuf & Hle & Hem & Hfull) Hlen Hstep.
  rewrite length_app. cbn [length].
  assert (Hfed : (length fed = step * length emitted + len)%nat).
  { rewrite <- Hlen, Hbuf, length_skipn. lia. }
  repeat match goal with |- _ /\ _ => split end.
  - rewrite Hbuf at 1. rewrite skipn_skipn. f_equal. lia.
  - lia.
  - rewrite Nat.add_1_r, frames_S, <- Hem. f_equal. f_equal.
    unfold frame_at. rewrite <- Hbuf, <- Hlen. symmetry. apply firstn_all.
  - right. replace (length emitted + 1 - 1)%nat with (length emitted) by lia. lia.
Qed.

(** What the buffer holds, counted. *)
Lemma slides_length {A : Type} len step (fed buf : list A) emitted :
  slides len step fed buf emitted ->
  (length fed = step * length emitted + length buf)%nat.
Proof.
  unfold slides. cbv zeta. intros (Hbuf & Hle & _). rewrite Hbuf, length_skipn. lia.
Qed.

(** ** The raw window slides over the pre-emphasised signal *)

Lemma last_cons_default {A : Type} (l : list A) : forall a d,
  last (a :: l) d = last l a.
Proof.
  induction l as [|b l IH]; intros a d; [reflexivity|].
  change (last (a :: b :: l) d) with (last (b :: l) d). now rewrite !IH.
Qed.

Lemma preemphasis_snoc buffer : forall prev x,
  preemphasis prev (buffer ++ [x]) =
  preemphasis prev buffer
    ++ [f32_sub (f32_of_Z x)
          (f32_mul PREEMPHASIS_COEFF (last (map f32_of_Z buffer) prev))].
Proof.
  induction buffer as [|y buffer IH]; intros prev x; [reflexivity|].
  cbn [app preemphasis map]. now rewrite IH, last_cons_default.
Qed.

Lemma length_preemphasis buffer : forall prev,
  length (preemphasis prev buffer) = length buffer.
Proof.
  induction buffer as [|y buffer IH]; intros prev; [reflexivity|].
  cbn [preemphasis length]. now rewrite IH.
Qed.

Lemma audio_windows_app t1 t2 :
  audio_windows (t1 ++ t2) = audio_windows t1 ++ audio_windows t2.
Proof. apply flat_map_app. Qed.

Lemma audio_windows_batching t :
  Forall (fun e => is_batching_event e = true) t -> audio_windows t = [].
Proof.
  induction 1 as [|e t He _ IH]; [reflexivity|].
  unfold audio_windows in *. destruct e; try discriminate; cbn [flat_map app]; exact IH.
Qed.

Lemma audio_windows_decimated b w : audio_windows (decimated b [w]) = [w].
Proof. now destruct b. Qed.

Lemma feed_sample_windowed fed ms x ms' :
  windowed fed ms -> feed_sample ms x = Ret ms' -> windowed (fed ++ [x]) ms'.
Proof.
  intros (Hsl & Hroom & Hkeep & Hlast) H. unfold feed_sample in H.
  set (ms1 := set_stream ms (push_sample (stream ms) x)) in *.
  assert (Hsl1 : slides (Z.to_nat AUDIO_WIN_LEN_SAMPLES) (Z.to_nat AUDIO_WIN_STEP_SAMPLES)
                   (preemphasis (f32_of_Z 0) (fed ++ [x]))
                   (audio_buffer (stream ms1)) (audio_windows (trace ms1))).
  { rewrite preemphasis_snoc, <- Hlast. now apply slides_app. }
  assert (Hsize : size (audio_buffer (stream ms1)) = size (audio_buffer (stream ms)) + 1)
    by apply size_push_sample.
  assert (Hlast1 : last_sample (stream ms1) = last (map f32_of_Z (fed ++ [x])) (f32_of_Z 0))
    by (rewrite map_app; cbn [map]; rewrite last_last; reflexivity).
  destruct (Z.eq_dec (size (audio_buffer (stream ms1))) AUDIO_WIN_LEN_SAMPLES)
    as [Hfull|Hpart].
  - apply process_full_window_full in H as (ms2 & Hp & ->); [|exact Hfull].
    pose proof (processAudioWindow_kept _ _ _ Hp) as (_ & Hl & _).
    apply processAudioWindow_trace in Hp as (t & Ht & Hb & _).
    unfold windowed. cbn [stream set_stream trace set_audio_buffer audio_buffer last_sample].
    rewrite Ht, !audio_windows_app, audio_windows_decimated,
      (audio_windows_batching t Hb), app_nil_r.
    split_and.
    + apply slides_emit; [exact Hsl1| |].
      * unfold size in Hfull. rewrite <- Hfull. lia.
      * unfold AUDIO_WIN_LEN_SAMPLES, AUDIO_WIN_STEP_SAMPLES. lia.
    + rewrite size_skipn; rewrite Hfull;
        unfold AUDIO_WIN_LEN_SAMPLES, AUDIO_WIN_STEP_SAMPLES; lia.
    + right. rewrite size_skipn; rewrite Hfull;
        unfold AUDIO_WIN_LEN_SAMPLES, AUDIO_WIN_STEP_SAMPLES; lia.
    + now rewrite Hl.
  - rewrite process_full_window_partial in H by exact Hpart.
    apply Ret_inj in H. subst ms'. unfold windowed. split_and.
    + exact Hsl1.
    + lia.
    + destruct Hkeep as [Hnil|Hge]; [now left|right; lia].
    + exact Hlast1.
Qed.

Lemma feed_samples_windowed buffer : forall fed ms ms',
  windowed fed ms -> feed_samples ms buffer = Ret ms' -> windowed (fed ++ buffer) ms'.
Proof.
  induction buffer as [|x rest IH]; intros fed ms ms' Hinv; cbn [feed_samples].
  - intros H. apply Ret_inj in H. subst ms'. now rewrite app_nil_r.
  - destruct (feed_sample ms x) as [ms1|] eqn:E; [|discriminate].
    cbn [bind]. intros H.
    replace (fed ++ x :: rest) with ((fed ++ [x]) ++ rest) by now rewrite <- app_assoc.
    eapply IH; [|exact H]. eapply feed_sample_windowed; eassumption.
Qed.

Lemma start_windowed sess : windowed [] (start sess).
Proof.
  unfold windowed. cbn [start stream trace new_stream audio_buffer last_sample
    audio_windows flat_map preemphasis map last].
  split_and.
  - apply slides_start.
  - rewrite size_nil. unfold AUDIO_WIN_LEN_SAMPLES. lia.
  - now left.
  - reflexivity.
Qed.

(** Several calls consume their chunks as one run of samples. *)
Lemma feed_chunks_samples chunks : forall ms,
  size (audio_buffer (stream ms)) < AUDIO_WIN_LEN_SAMPLES ->
  feed_chunks ms chunks = feed_samples ms (concat chunks).
Proof.
  induction chunks as [|c rest IH]; intros ms Hlt; [reflexivity|].
  cbn [feed_chunks concat]. rewrite feed_samples_app.
  rewrite feedAudioContent_samples by assumption.
  destruct (feed_samples ms c) as [ms1|] eqn:E; [|reflexivity].
  cbn [bind]. apply IH. eapply feed_samples_room; eassumption.
Qed.

(** Window framing.  Whatever is fed to a stream that was just set up, in
    whatever chunks, the windows handed to processAudioWindow are the
    windows of AUDIO_WIN_LEN_SAMPLES samples, AUDIO_WIN_STEP_SAMPLES apart,
    of the pre-emphasised signal: none is lost, repeated or misaligned.
    Their number is 0 below one window of samples and
    (samples - (len - step)) / step otherwise; audio_buffer holds the signal
    from the start of the next window on, and last_sample is the last raw
    sample fed. *)
Theorem audio_window_framing sess chunks ms' :
  feed_chunks (start sess) chunks = Ret ms' ->
  let len := Z.to_nat AUDIO_WIN_LEN_SAMPLES in
  let step := Z.to_nat AUDIO_WIN_STEP_SAMPLES in
  let buffer := concat chunks in
  let signal := preemphasis (f32_of_Z 0) buffer in
  let n := length (audio_windows (trace ms')) in
  audio_windows (trace ms') = frames len step n signal /\
  audio_buffer (stream ms') = skipn (step * n) signal /\
  n = (if length buffer <? len then 0 else (length buffer - (len - step)) / step)%nat /\
  last_sample (stream ms') = last (map f32_of_Z buffer) (f32_of_Z 0).
Proof.
  intros H. cbv zeta.
  rewrite feed_chunks_samples in H by apply start_room.
  apply (feed_samples_windowed _ [] _ _ (start_windowed sess)) in H.
  cbn [app] in H. destruct H as (Hsl & Hroom & Hkeep & Hlast).
  pose proof (slides_length _ _ _ _ _ Hsl) as Hlen.
  rewrite length_preemphasis in Hlen.
  destruct Hsl as (Hbuf & _ & Hem & _).
  split_and; try assumption.
  unfold size, AUDIO_WIN_LEN_SAMPLES, AUDIO_WIN_STEP_SAMPLES in *.
  change (Z.to_nat 400) with 400%nat in *. change (Z.to_nat 160) with 160%nat in *.
  destruct (Nat.ltb_spec (length (concat chunks)) 400).
  - destruct Hkeep as [Hnil|Hge]; [now rewrite Hnil|lia].
  - destruct Hkeep as [Hnil|Hge]; [rewrite Hnil in Hlen; cbn [length] in Hlen; lia|].
    change (400 - 160)%nat with 240%nat.
    set (n := length (audio_windows (trace ms'))) in *.
    set (a := length (audio_buffer (stream ms'))) in *.
    assert (Ha : (240 <= a < 400)%nat) by lia.
    replace (length (concat chunks) - 240)%nat with ((a - 240) + n * 160)%nat by lia.
    rewrite Nat.div_add by lia. rewrite Nat.div_small by lia. reflexivity.
Qed.

(** ** The feature window and the batch, by content *)

Lemma timesteps_app t1 t2 : timesteps (t1 ++ t2) = timesteps t1 ++ timesteps t2.
Proof. apply flat_map_app. Qed.

Lemma sent_frames_app t1 t2 : sent_frames (t1 ++ t2) = sent_frames t1 ++ sent_frames t2.
Proof. apply flat_map_app. Qed.

Section Framing.

Hypothesis Hwf : wf_model.

Lemma capacity_bounds :
  0 < mfcc_feats_per_timestep model /\
  0 < n_steps model /\
  0 <= n_steps model * mfcc_feats_per_timestep model < 2 ^ 32.
Proof.
  pose proof (featsize_pos Hwf). destruct Hwf as (_ & ? & _ & _ & ?).
  split_and; try assumption; nia.
Qed.

Lemma infer_input_full batch :
  size batch = n_steps model * mfcc_feats_per_timestep model ->
  infer_input batch (n_steps model) = batch.
Proof.
  intros H. unfold infer_input. rewrite Z.sub_diag. cbn [Z.to_nat repeat].
  rewrite app_nil_r, <- H, to_nat_size. apply firstn_all.
Qed.

(** The frames of a partial batch, then zeros. *)
Lemma infer_input_partial batch n :
  0 <= n -> size batch = n * mfcc_feats_per_timestep model ->
  infer_input batch n =
  batch ++ repeat f32_zero
             (Z.to_nat ((n_steps model - n) * mfcc_feats_per_timestep model)).
Proof.
  intros Hn H. unfold infer_input. rewrite <- H, to_nat_size, firstn_all.
  do 2 f_equal. lia.
Qed.

Lemma padded_input_infer batch n ok :
  0 < n <= n_steps model ->
  size batch = n * mfcc_feats_per_timestep model ->
  padded_input (EvInfer (infer_input batch n) n ok) /\
  firstn (Z.to_nat (n * mfcc_feats_per_timestep model)) (infer_input batch n) = batch.
Proof.
  intros Hn H. destruct capacity_bounds as (Hf & _ & _).
  rewrite infer_input_partial by lia.
  assert (Hlen : Z.to_nat (n * mfcc_feats_per_timestep model) = length batch)
    by (rewrite <- H; apply to_nat_size).
  cbn [padded_input]. split_and.
  - lia.
  - lia.
  - rewrite size_app, size_repeat, H. rewrite Z2Nat.id by nia. ring.
  - rewrite Hlen, skipn_app, skipn_all, Nat.sub_diag. reflexivity.
  - rewrite Hlen, firstn_app, firstn_all, Nat.sub_diag. cbn [firstn]. apply app_nil_r.
Qed.

(** What one timestep does to the batch and to the trace. *)
Lemma processMfccWindow_exact ms buf ms' :
  size buf = mfcc_feats_per_timestep model ->
  batch_ok (shape (stream ms)) ->
  processMfccWindow ms buf = Ret ms' ->
  batching_kept (stream ms) (stream ms') /\
  timesteps (trace ms') = timesteps (trace ms) ++ [buf] /\
  pushed_vectors (trace ms') = pushed_vectors (trace ms) /\
  sent_frames (trace ms') ++ batch_buffer (stream ms')
    = sent_frames (trace ms) ++ batch_buffer (stream ms) ++ buf /\
  (Forall padded_input (trace ms) -> Forall padded_input (trace ms')).
Proof.
  intros Hbuf Hb H. pose proof (processMfccWindow_kept _ _ _ H) as Hkept.
  split; [exact Hkept|].
  destruct capacity_bounds as (Hf & Hs & Hcap).
  pose proof (batch_ok_room Hwf _ Hb) as Hroom. cbn [shape sh_batch] in Hroom.
  rewrite processMfccWindow_closed in H by lia.
  cbv zeta in H.
  destruct (Z.eqb_spec (size (batch_buffer (stream ms) ++ buf))
              (n_steps model * mfcc_feats_per_timestep model)) as [Hfull|Hpart].
  - unfold processBatch in H.
    rewrite (infer_closed Hwf) in H by lia. cbv zeta in H.
    destruct (_ <=? INT_MAX); [|discriminate].
    destruct (padded_input_infer (batch_buffer (stream ms) ++ buf) (n_steps model) true)
      as [Hp1 Hf1]; [lia|exact Hfull|].
    destruct (padded_input_infer (batch_buffer (stream ms) ++ buf) (n_steps model) false)
      as [Hp2 Hf2]; [lia|exact Hfull|].
    destruct (Run _ _ _) as [sess [out|]].
    + destruct (_ && _); [|discriminate].
      cbn [bind] in H. apply Ret_inj in H. subst ms'.
      cbn [stream trace set_stream log set_batch_buffer set_accumulated_logits batch_buffer].
      rewrite !timesteps_app, !pushed_vectors_app, !sent_frames_app.
      cbn [timesteps pushed_vectors sent_frames flat_map app].
      rewrite Hf1, !app_nil_r. split_and; try reflexivity.
      intros Hall. apply Forall_app. split; [|now apply Forall_cons].
      apply Forall_app. split; [exact Hall|now repeat constructor].
    + cbn [bind] in H. apply Ret_inj in H. subst ms'.
      cbn [stream trace set_stream log set_batch_buffer batch_buffer].
      rewrite !timesteps_app, !pushed_vectors_app, !sent_frames_app.
      cbn [timesteps pushed_vectors sent_frames flat_map app].
      rewrite Hf2, !app_nil_r. split_and; try reflexivity.
      intros Hall. apply Forall_app. split; [|now apply Forall_cons].
      apply Forall_app. split; [exact Hall|now repeat constructor].
  - apply Ret_inj in H. subst ms'.
    cbn [stream trace set_stream log set_batch_buffer batch_buffer].
    rewrite !timesteps_app, !pushed_vectors_app, !sent_frames_app.
    cbn [timesteps pushed_vectors sent_frames flat_map app].
    rewrite !app_nil_r. split_and; try reflexivity.
    intros Hall. apply Forall_app. split; [exact Hall|now repeat constructor].
Qed.

(** [framed] looks at the trace, at [mfcc_buffer] and at [batch_buffer]. *)
Lemma framed_front ms ms' :
  trace ms' = trace ms ->
  mfcc_buffer (stream ms') = mfcc_buffer (stream ms) ->
  batch_buffer (stream ms') = batch_buffer (stream ms) ->
  framed ms -> framed ms'.
Proof.
  unfold framed, feat_ok, batch_ok, shape. cbn [sh_mfcc sh_batch].
  now intros -> -> ->.
Qed.

Lemma pushMfccBuffer_framed ms vec ms' :
  framed ms -> size vec = MFCC_FEATURES ->
  pushMfccBuffer ms vec = Ret ms' -> framed ms'.
Proof.
  intros (Hf & Hb & Hvec & Hsl & Hbatch & Hpad) Hsize H.
  pose proof (wf_model_bounds Hwf) as (Hmin & Hmax & _).
  pose proof (feat_ok_room Hwf _ Hf) as Hroom. cbn [shape sh_mfcc] in Hroom.
  assert (Hok : feat_ok (shape (stream ms')) /\ batch_ok (shape (stream ms'))).
  { pose proof (pushMfccBuffer_refines Hwf ms vec Hsize Hf Hb ms' H) as [E _].
    destruct (sh_push_ok Hwf _ Hf Hb) as (Hf1 & Hb1 & _).
    rewrite E. now split. }
  destruct Hok as [Hf' Hb']. split; [exact Hf'|]. split; [exact Hb'|].
  rewrite pushMfccBuffer_closed in H by (rewrite ?Hsize; unfold MFCC_FEATURES in *; lia).
  cbv zeta in H.
  set (mfcc1 := mfcc_buffer (stream ms) ++ vec) in *.
  set (ms1 := set_stream (log ms (EvPushMfcc vec)) (set_mfcc_buffer (stream ms) mfcc1)) in *.
  assert (Hp1 : pushed_vectors (trace ms1) = pushed_vectors (trace ms) ++ [vec])
    by (unfold ms1; cbn [trace set_stream log]; now rewrite pushed_vectors_app).
  assert (Ht1 : timesteps (trace ms1) = timesteps (trace ms))
    by (unfold ms1; cbn [trace set_stream log]; rewrite timesteps_app; apply app_nil_r).
  assert (Hs1 : sent_frames (trace ms1) = sent_frames (trace ms))
    by (unfold ms1; cbn [trace set_stream log]; rewrite sent_frames_app; apply app_nil_r).
  assert (Hfed : initial_context ++ concat (pushed_vectors (trace ms) ++ [vec])
                 = (initial_context ++ concat (pushed_vectors (trace ms))) ++ vec).
  { rewrite concat_app. cbn [concat]. now rewrite app_nil_r, app_assoc. }
  assert (Hsl1 : slides (Z.to_nat (mfcc_feats_per_timestep model)) (Z.to_nat MFCC_FEATURES)
                   (initial_context ++ concat (pushed_vectors (trace ms) ++ [vec]))
                   mfcc1 (timesteps (trace ms)))
    by (rewrite Hfed; now apply slides_app).
  assert (Hvec1 : Forall (fun v => size v = MFCC_FEATURES) (pushed_vectors (trace ms) ++ [vec]))
    by (apply Forall_app; split; [exact Hvec|now repeat constructor]).
  destruct (Z.eqb_spec (size mfcc1) (mfcc_feats_per_timestep model)) as [Hfull|Hpart].
  - destruct (processMfccWindow ms1 mfcc1) as [ms2|] eqn:E; [|discriminate].
    cbn [bind] in H. apply Ret_inj in H. subst ms'.
    apply processMfccWindow_exact in E as (_ & Ht2 & Hp2 & Hs2 & Hpad2);
      [|exact Hfull|exact Hb].
    cbn [stream trace set_stream set_mfcc_buffer mfcc_buffer batch_buffer].
    rewrite Ht2, Hp2, Ht1, Hp1. split_and.
    + exact Hvec1.
    + apply slides_emit; [exact Hsl1| |].
      * unfold size in Hfull. rewrite <- Hfull. lia.
      * unfold MFCC_FEATURES in *. lia.
    + rewrite concat_app. cbn [concat]. rewrite app_nil_r, Hbatch, Hs2, Hs1.
      unfold ms1. cbn [stream set_stream set_mfcc_buffer batch_buffer].
      now rewrite app_assoc.
    + apply Hpad2. unfold ms1. cbn [trace set_stream log].
      apply Forall_app. split; [exact Hpad|now repeat constructor].
  - apply Ret_inj in H. subst ms'.
    rewrite Ht1, Hp1, Hs1. split_and.
    + exact Hvec1.
    + exact Hsl1.
    + exact Hbatch.
    + unfold ms1. cbn [trace set_stream log].
      apply Forall_app. split; [exact Hpad|now repeat constructor].
Qed.

Lemma framed_log_window ms w skipped b :
  framed ms ->
  framed (log (set_stream ms (set_skip_next_mfcc (stream ms) b)) (EvAudioWindow w skipped)).
Proof.
  intros (Hf & Hb & Hvec & Hsl & Hbatch & Hpad).
  unfold framed. cbn [stream trace set_stream log set_skip_next_mfcc mfcc_buffer batch_buffer].
  rewrite pushed_vectors_app, timesteps_app, sent_frames_app.
  cbn [pushed_vectors timesteps sent_frames flat_map app]. rewrite !app_nil_r.
  split; [exact Hf|]. split; [exact Hb|].
  split_and; try assumption.
  apply Forall_app. split; [exact Hpad|now repeat constructor].
Qed.

Lemma processAudioWindow_framed ms buf ms' :
  framed ms -> processAudioWindow ms buf = Ret ms' -> framed ms'.
Proof.
  intros Hfr H. unfold processAudioWindow in H. cbv zeta in H.
  destruct (negb (negb _)).
  - apply Ret_inj in H. subst ms'. now apply framed_log_window.
  - destruct (csf_mfcc buf) as [n mfcc].
    destruct (Z.eqb_spec n 1) as [Hn|]; [|discriminate].
    destruct (Z.leb_spec (n * MFCC_FEATURES) (size mfcc)) as [Hle|]; [|discriminate].
    refine (pushMfccBuffer_framed _ _ _ _ (size_feature _ _ Hn Hle) H).
    now apply framed_log_window.
Qed.

Lemma feed_sample_framed ms x ms' :
  framed ms -> feed_sample ms x = Ret ms' -> framed ms'.
Proof.
  intros Hfr H. unfold feed_sample in H.
  set (ms1 := set_stream ms (push_sample (stream ms) x)) in *.
  assert (Hfr1 : framed ms1) by (eapply framed_front; [| | |exact Hfr]; reflexivity).
  destruct (Z.eq_dec (size (audio_buffer (stream ms1))) AUDIO_WIN_LEN_SAMPLES)
    as [Hfull|Hpart].
  - apply process_full_window_full in H as (ms2 & Hp & ->); [|exact Hfull].
    apply processAudioWindow_framed in Hp; [|exact Hfr1].
    eapply framed_front; [| | |exact Hp]; reflexivity.
  - rewrite process_full_window_partial in H by exact Hpart.
    apply Ret_inj in H. now subst ms'.
Qed.

Lemma feed_samples_framed buffer : forall ms ms',
  framed ms -> feed_samples ms buffer = Ret ms' -> framed ms'.
Proof.
  induction buffer as [|x rest IH]; intros ms ms' Hfr; cbn [feed_samples].
  - intros H. apply Ret_inj in H. now subst ms'.
  - destruct (feed_sample ms x) as [ms1|] eqn:E; [|discriminate].
    cbn [bind]. apply IH. eapply feed_sample_framed; eassumption.
Qed.

Lemma addZeroMfccWindows_framed n : forall ms ms',
  framed ms -> addZeroMfccWindows n ms = Ret ms' -> framed ms'.
Proof.
  induction n as [|n IH]; intros ms ms' Hfr; cbn [addZeroMfccWindows].
  - intros H. apply Ret_inj in H. now subst ms'.
  - unfold addZeroMfccWindow.
    destruct (pushMfccBuffer ms zero_buffer) as [ms1|] eqn:E; [|discriminate].
    cbn [bind]. apply IH.
    eapply pushMfccBuffer_framed; [exact Hfr|exact size_zero_buffer|exact E].
Qed.

Lemma start_framed sess : framed (start sess).
Proof.
  pose proof (start_shape_ok sess Hwf) as (_ & Hf & Hb).
  unfold framed. split; [exact Hf|]. split; [exact Hb|].
  cbn [start stream trace pushed_vectors timesteps sent_frames flat_map concat app
       batch_buffer new_stream].
  rewrite app_nil_r. split_and.
  - constructor.
  - rewrite (new_stream_mfcc Hwf).
    replace (n_context model * MFCC_FEATURES) with (MFCC_FEATURES * n_context model) by ring.
    apply slides_start.
  - reflexivity.
  - constructor.
Qed.

(** The final flush: the partial batch goes to the engine, padded. *)
Lemma process_final_batch_framed ms ms' :
  framed ms -> process_final_batch ms = Ret ms' ->
  pushed_vectors (trace ms') = pushed_vectors (trace ms) /\
  timesteps (trace ms') = timesteps (trace ms) /\
  mfcc_buffer (stream ms') = mfcc_buffer (stream ms) /\
  concat (timesteps (trace ms')) = sent_frames (trace ms') /\
  Forall padded_input (trace ms').
Proof.
  intros (Hf & Hb & Hvec & Hsl & Hbatch & Hpad) H.
  destruct capacity_bounds as (Hfp & Hs & Hcap).
  destruct (batch_frames Hwf _ Hb) as [Hq Hmul]. cbn [shape sh_batch] in Hq, Hmul.
  unfold process_final_batch in H. cbv zeta in H.
  destruct (Z.ltb_spec 0 (size (batch_buffer (stream ms)))) as [Hpos|Hzero].
  - destruct (Z.eqb_spec (mfcc_feats_per_timestep model) 0); [lia|].
    unfold processBatch in H. rewrite u32_small in H by nia.
    set (q := size (batch_buffer (stream ms)) / mfcc_feats_per_timestep model) in *.
    assert (Hq1 : 0 < q <= n_steps model) by nia.
    rewrite (infer_closed Hwf) in H by lia. cbv zeta in H.
    destruct (_ <=? INT_MAX); [|discriminate].
    destruct (padded_input_infer (batch_buffer (stream ms)) q true) as [Hp1 Hf1];
      [exact Hq1|lia|].
    destruct (padded_input_infer (batch_buffer (stream ms)) q false) as [Hp2 Hf2];
      [exact Hq1|lia|].
    destruct (Run _ _ _) as [sess [out|]].
    + destruct (_ && _); [|discriminate]. apply Ret_inj in H. subst ms'.
      cbn [stream trace set_accumulated_logits mfcc_buffer].
      rewrite pushed_vectors_app, timesteps_app, sent_frames_app.
      cbn [pushed_vectors timesteps sent_frames flat_map app].
      rewrite Hf1, !app_nil_r. split_and; try reflexivity; try assumption.
      apply Forall_app. split; [exact Hpad|now apply Forall_cons].
    + apply Ret_inj in H. subst ms'. cbn [stream trace mfcc_buffer].
      rewrite pushed_vectors_app, timesteps_app, sent_frames_app.
      cbn [pushed_vectors timesteps sent_frames flat_map app].
      rewrite Hf2, !app_nil_r. split_and; try reflexivity; try assumption.
      apply Forall_app. split; [exact Hpad|now apply Forall_cons].
  - apply Ret_inj in H. subst ms'.
    assert (Hnil : batch_buffer (stream ms) = []).
    { pose proof (size_nonneg (batch_buffer (stream ms))).
      destruct (batch_buffer (stream ms)); [reflexivity|].
      rewrite size_cons in Hzero. pose proof (size_nonneg l). lia. }
    rewrite Hnil, app_nil_r in Hbatch. split_and; try reflexivity; assumption.
Qed.

Lemma length_concat_vectors (vs : list (list float32)) :
  Forall (fun v => size v = MFCC_FEATURES) vs ->
  length (concat vs) = (Z.to_nat MFCC_FEATURES * length vs)%nat.
Proof.
  induction 1 as [|v vs Hv _ IH]; [reflexivity|].
  cbn [concat length]. rewrite length_app, IH.
  unfold size, MFCC_FEATURES in *. lia.
Qed.

Lemma concat_zero_buffers n :
  concat (repeat zero_buffer n) = repeat f32_zero (Z.to_nat MFCC_FEATURES * n).
Proof.
  induction n as [|n IH]; [now rewrite Nat.mul_0_r|].
  cbn [repeat concat]. rewrite IH. unfold zero_buffer.
  rewrite <- repeat_app. f_equal. lia.
Qed.

Lemma initial_context_zeros :
  initial_context = concat (repeat zero_buffer (Z.to_nat (n_context model))).
Proof.
  destruct Hwf as (_ & _ & Hc & _).
  rewrite concat_zero_buffers. unfold initial_context. f_equal.
  unfold MFCC_FEATURES. lia.
Qed.

(** One timestep per feature vector, once the first [n_context] are in. *)
Lemma framed_count ms :
  framed ms ->
  length (timesteps (trace ms))
  = (length (pushed_vectors (trace ms)) - Z.to_nat (n_context model))%nat.
Proof.
  intros (Hf & _ & Hvec & Hsl & _).
  pose proof (slides_length _ _ _ _ _ Hsl) as Hlen.
  destruct Hsl as (_ & _ & _ & Hfull).
  rewrite length_app, (length_concat_vectors _ Hvec) in Hlen, Hfull.
  unfold initial_context in Hlen, Hfull. rewrite repeat_length in Hlen, Hfull.
  destruct Hf as [Hf _]. cbn [shape sh_mfcc] in Hf. unfold size in Hf.
  destruct Hwf as (_ & _ & Hc & Hfp & _). rewrite Hfp in *.
  unfold MFCC_FEATURES in *.
  set (t := length (timesteps (trace ms))) in *.
  set (p := length (pushed_vectors (trace ms))) in *.
  set (m := length (mfcc_buffer (stream ms))) in *.
  lia.
Qed.

Lemma feed_chunks_framed sess chunks ms' :
  feed_chunks (start sess) chunks = Ret ms' -> framed ms'.
Proof.
  rewrite feed_chunks_samples by apply start_room.
  apply feed_samples_framed, start_framed.
Qed.

(** The end of a stream: the context padding closes the last windows, and
    all the timesteps go to the engine. *)
Lemma finishStream_framed ms text ms' :
  framed ms -> finishStream ms = Ret (text, ms') ->
  exists vectors,
    pushed_vectors (trace ms')
      = vectors ++ repeat zero_buffer (Z.to_nat (n_context model)) /\
    Forall (fun v => size v = MFCC_FEATURES) vectors /\
    timesteps (trace ms')
      = frames (Z.to_nat (mfcc_feats_per_timestep model)) (Z.to_nat MFCC_FEATURES)
               (length vectors)
               (initial_context ++ concat vectors ++ initial_context) /\
    concat (timesteps (trace ms')) = sent_frames (trace ms') /\
    Forall padded_input (trace ms').
Proof.
  intros Hfr H. unfold finishStream in H.
  destruct (processAudioWindow _ _) as [ms1|] eqn:E1; [|discriminate].
  cbn [bind] in H. rewrite (add_context_padding_eq Hwf) in H.
  destruct (addZeroMfccWindows _ _) as [ms2|] eqn:E2; [|discriminate].
  cbn [bind] in H.
  destruct (process_final_batch ms2) as [ms3|] eqn:E3; [|discriminate].
  cbn [bind] in H. destruct (decode _); [|discriminate].
  cbn [bind] in H. apply Ret_inj in H. injection H as _ <-.
  apply processAudioWindow_framed in E1; [|exact Hfr].
  pose proof (addZeroMfccWindows_framed _ _ _ E1 E2) as Hfr2.
  apply addZeroMfccWindows_trace in E2 as (t & Ht & Hp & _).
  pose proof (framed_count ms2 Hfr2) as Hcount.
  apply process_final_batch_framed in E3 as (P3 & T3 & _ & S3 & Pad3); [|exact Hfr2].
  destruct Hfr2 as (_ & _ & Hvec & (_ & _ & Hem & _) & _).
  rewrite Hcount in Hem.
  assert (Hp2 : pushed_vectors (trace ms2)
                = pushed_vectors (trace ms1)
                    ++ repeat zero_buffer (Z.to_nat (n_context model)))
    by (now rewrite Ht, pushed_vectors_app, Hp).
  rewrite Hp2 in Hvec, Hem, P3.
  rewrite length_app, repeat_length in Hem.
  replace (length (pushed_vectors (trace ms1)) + Z.to_nat (n_context model)
           - Z.to_nat (n_context model))%nat
    with (length (pushed_vectors (trace ms1))) in Hem by lia.
  exists (pushed_vectors (trace ms1)). split_and.
  - exact P3.
  - now apply Forall_app in Hvec.
  - rewrite T3, Hem, concat_app, <- initial_context_zeros. reflexivity.
  - exact S3.
  - exact Pad3.
Qed.

End Framing.

(** Feature window framing.  With a well-formed model, whatever is fed to a
    stream that was just set up: every feature vector pushed so far has
    MFCC_FEATURES entries, and the timesteps handed to processMfccWindow
    are the windows of 2*n_context+1 vectors, one vector apart, over n_context
    zero vectors followed by the vectors pushed; there is one per vector
    from the (n_context+1)-th on, and mfcc_buffer holds the vectors from
    the start of the next window on.  After finishStream the sequence ends
    with n_context zero vectors as well, and there is exactly one timestep
    per feature vector extracted from the audio: the k-th is that vector
    with its n_context neighbours on each side. *)
Theorem timestep_framing sess chunks ms1 :
  wf_model ->
  feed_chunks (start sess) chunks = Ret ms1 ->
  let len := Z.to_nat (mfcc_feats_per_timestep model) in
  let step := Z.to_nat MFCC_FEATURES in
  let context := Z.to_nat (n_context model) in
  (let vectors := pushed_vectors (trace ms1) in
   let fed := initial_context ++ concat vectors in
   Forall (fun v => size v = MFCC_FEATURES) vectors /\
   timesteps (trace ms1) = frames len step (length vectors - context) fed /\
   mfcc_buffer (stream ms1) = skipn (step * (length vectors - context)) fed) /\
  (forall text ms2,
     finishStream ms1 = Ret (text, ms2) ->
     exists vectors,
       pushed_vectors (trace ms2) = vectors ++ repeat zero_buffer context /\
       Forall (fun v => size v = MFCC_FEATURES) vectors /\
       timesteps (trace ms2)
         = frames len step (length vectors)
                  (initial_context ++ concat vectors ++ initial_context)).
Proof.
  intros Hwf H. cbv zeta. apply (feed_chunks_framed Hwf) in H. split.
  - pose proof (framed_count Hwf ms1 H) as Hcount.
    destruct H as (_ & _ & Hvec & (Hbuf & _ & Hem & _) & _).
    rewrite Hcount in Hbuf, Hem. now split_and.
  - intros text ms2 Hfin.
    destruct (finishStream_framed Hwf _ _ _ H Hfin) as (vectors & Hp & Hv & Ht & _).
    now exists vectors.
Qed.

(** Batch framing.  With a well-formed model, whatever is fed to a stream
    that was just set up: the timesteps emitted so far, in order, are the
    frames of the input tensors handed to the engine followed by the
    content of batch_buffer; every input tensor has n_steps timesteps, of
    which the first n_frames (between 1 and n_steps) are those frames and
    the others are zeros.  After finishStream nothing is left behind: the
    frames handed to the engine are exactly the timesteps, in order. *)
Theorem engine_input_framing sess chunks ms1 :
  wf_model ->
  feed_chunks (start sess) chunks = Ret ms1 ->
  (concat (timesteps (trace ms1))
     = sent_frames (trace ms1) ++ batch_buffer (stream ms1) /\
   Forall padded_input (trace ms1)) /\
  (forall text ms2,
     finishStream ms1 = Ret (text, ms2) ->
     concat (timesteps (trace ms2)) = sent_frames (trace ms2) /\
     Forall padded_input (trace ms2)).
Proof.
  intros Hwf H. apply (feed_chunks_framed Hwf) in H. split.
  - destruct H as (_ & _ & _ & _ & Hbatch & Hpad). now split.
  - intros text ms2 Hfin.
    destruct (finishStream_framed Hwf _ _ _ H Hfin) as (vectors & _ & _ & _ & Hs & Hpad).
    now split.
Qed.

(** ** Which windows give the feature vectors *)

Lemma audio_windows_front tr : audio_windows (front_events tr) = audio_windows tr.
Proof.
  induction tr as [|e tr IH]; [reflexivity|].
  unfold audio_windows, front_events in *.
  destruct e; cbn [filter is_batching_event negb flat_map app]; now rewrite IH.
Qed.

Lemma pushed_vectors_front tr : pushed_vectors (front_events tr) = pushed_vectors tr.
Proof.
  induction tr as [|e tr IH]; [reflexivity|].
  unfold pushed_vectors, front_events in *.
  destruct e; cbn [filter is_batching_event negb flat_map app]; now rewrite IH.
Qed.

Lemma audio_windows_decimated_all ws : forall b, audio_windows (decimated b ws) = ws.
Proof.
  induction ws as [|w ws IH]; intros b; [reflexivity|].
  destruct b; cbn [decimated audio_windows flat_map app];
    fold (audio_windows (decimated false ws));
    fold (audio_windows (decimated true ws)); now rewrite IH.
Qed.

(** Under decimation the vector of index [k] comes from the window of
    index [2k], or [2k+1] when the first window is skipped. *)
Lemma pushed_vectors_decimated ws : forall b k v,
  nth_error (pushed_vectors (decimated b ws)) k = Some v ->
  exists w,
    nth_error ws (2 * k + (if b then 1 else 0)) = Some w /\ v = feature_of w.
Proof.
  induction ws as [|w ws IH]; intros b k v.
  - destruct k; discriminate.
  - destruct b; cbn [decimated pushed_vectors flat_map app];
      fold (pushed_vectors (decimated false ws));
      fold (pushed_vectors (decimated true ws)).
    + intros H. apply IH in H as (w' & Hw & ->). exists w'. split; [|reflexivity].
      replace (2 * k + 1)%nat with (S (2 * k + 0)) by lia. exact Hw.
    + destruct k as [|k]; cbn [nth_error].
      * intros [= <-]. now exists w.
      * intros H. apply IH in H as (w' & Hw & ->). exists w'. split; [|reflexivity].
        replace (2 * S k + 0)%nat with (S (2 * k + 1)) by lia. exact Hw.
Qed.

Lemma length_pushed_decimated ws : forall b,
  length (pushed_vectors (decimated b ws))
  = ((length ws + (if b then 0 else 1)) / 2)%nat.
Proof.
  induction ws as [|w ws IH]; intros b.
  - now destruct b.
  - destruct b; cbn [decimated pushed_vectors flat_map app length];
      fold (pushed_vectors (decimated false ws));
      fold (pushed_vectors (decimated true ws)); rewrite IH.
    + f_equal. lia.
    + replace (S (length ws) + 1)%nat with (length ws + 0 + 1 * 2)%nat by lia.
      rewrite Nat.div_add by lia. lia.
Qed.

Lemma nth_error_frames {A : Type} len step n (l : list A) k w :
  nth_error (frames len step n l) k = Some w -> w = frame_at len step k l.
Proof.
  unfold frames. rewrite nth_error_map.
  destruct (nth_error (seq 0 n) k) as [j|] eqn:E; cbn [option_map]; [|discriminate].
  intros [= <-].
  assert (Hk : (k < length (seq 0 n))%nat)
    by (apply nth_error_Some; rewrite E; discriminate).
  rewrite length_seq in Hk.
  apply nth_error_nth with (d := O) in E.
  rewrite seq_nth in E by exact Hk. now subst j.
Qed.

(** Feature stride.  Whatever is fed to a stream that was just set up, in
    whatever chunks, the feature vectors pushed while feeding come from
    every other window: the vector of index k is the one the extractor
    gives for the AUDIO_WIN_LEN_SAMPLES samples of the pre-emphasised
    signal that start at sample 2 * AUDIO_WIN_STEP_SAMPLES * k, and with n
    windows completed there are (n + 1) / 2 vectors. *)
Theorem feature_stride sess chunks ms' :
  feed_chunks (start sess) chunks = Ret ms' ->
  let len := Z.to_nat AUDIO_WIN_LEN_SAMPLES in
  let step := Z.to_nat AUDIO_WIN_STEP_SAMPLES in
  let signal := preemphasis (f32_of_Z 0) (concat chunks) in
  length (pushed_vectors (trace ms'))
    = ((length (audio_windows (trace ms')) + 1) / 2)%nat /\
  forall k v,
    nth_error (pushed_vectors (trace ms')) k = Some v ->
    v = feature_of (frame_at len (2 * step) k signal).
Proof.
  intros H. cbv zeta.
  rewrite feed_chunks_samples in H by apply start_room.
  pose proof (feed_samples_windowed _ [] _ _ (start_windowed sess) H) as Hw.
  cbn [app] in Hw. destruct Hw as ((_ & _ & Hem & _) & _).
  assert (Hinv0 : exists ws,
             front_events (trace (start sess)) = decimated false ws /\
             skip_next_mfcc (stream (start sess)) = Nat.odd (length ws))
    by (exists []; split; reflexivity).
  destruct (feed_samples_decimation _ _ _ Hinv0 H) as (ws & Hfront & _).
  assert (Hws : audio_windows (trace ms') = ws)
    by (now rewrite <- audio_windows_front, Hfront, audio_windows_decimated_all).
  rewrite <- pushed_vectors_front, Hfront. split.
  - now rewrite length_pushed_decimated, Hws.
  - intros k v Hk. apply pushed_vectors_decimated in Hk as (w & Hk & ->).
    rewrite <- Hws, Hem in Hk. apply nth_error_frames in Hk. subst w.
    f_equal. unfold frame_at. do 2 f_equal. lia.
Qed.

(** ** Samples that do not fill the window *)

Lemma push_samples_content buffer : forall st,
  audio_buffer (push_samples st buffer)
    = audio_buffer st ++ preemphasis (last_sample st) buffer /\
  last_sample (push_samples st buffer)
    = last (map f32_of_Z buffer) (last_sample st) /\
  accumulated_logits (push_samples st buffer) = accumulated_logits st.
Proof.
  induction buffer as [|x rest IH]; intros st; cbn [push_samples fold_left preemphasis map].
  - cbn [last]. now rewrite app_nil_r.
  - destruct (IH (push_sample st x)) as (H1 & H2 & H3). unfold push_samples in *.
    rewrite H1, H2, H3, last_cons_default. cbn [push_sample audio_buffer last_sample
      accumulated_logits]. now rewrite <- app_assoc.
Qed.

(** Buffering below a window.  Samples that leave audio_buffer short of a
    full window are only stored, pre-emphasised: feedAudioContent cannot
    fail on them, calls neither the extractor nor the engine (the session
    and the trace are unchanged), and changes no field but audio_buffer and
    last_sample. *)
Theorem partial_window_buffered ms buffer :
  size (audio_buffer (stream ms)) + size buffer < AUDIO_WIN_LEN_SAMPLES ->
  exists st',
    feedAudioContent ms buffer
      = Ret {| stream := st'; session := session ms; trace := trace ms |} /\
    audio_buffer st'
      = audio_buffer (stream ms) ++ preemphasis (last_sample (stream ms)) buffer /\
    last_sample st' = last (map f32_of_Z buffer) (last_sample (stream ms)) /\
    accumulated_logits st' = accumulated_logits (stream ms) /\
    mfcc_buffer st' = mfcc_buffer (stream ms) /\
    batch_buffer st' = batch_buffer (stream ms) /\
    skip_next_mfcc st' = skip_next_mfcc (stream ms).
Proof.
  intros Hlt. pose proof (size_nonneg buffer).
  exists (push_samples (stream ms) buffer).
  rewrite feedAudioContent_samples by lia.
  rewrite feed_samples_fill by exact Hlt.
  destruct (push_samples_fields buffer (stream ms)) as (_ & Hs & Hm & Hb).
  destruct (push_samples_content buffer (stream ms)) as (Ha & Hl & Hacc).
  split_and; try assumption. reflexivity.
Qed.

(** ** The loops end, unless a batch has no room at all *)

(** Termination.  When the capacity n_steps * mfcc_feats_per_timestep of
    batch_buffer is not zero (as an unsigned int), no loop of the pipeline
    runs for ever: each of processMfccWindow, pushMfccBuffer,
    feedAudioContent and finishStream ends within the number of iterations
    its input allows, or stops on a fault. *)
Theorem loops_terminate :
  u32 (n_steps model * mfcc_feats_per_timestep model) <> 0 ->
  0 <= mfcc_feats_per_timestep model < 2 ^ 32 ->
  (forall ms buf, size buf < 2 ^ 32 -> processMfccWindow ms buf <> Fail OutOfFuel) /\
  (forall ms buf, pushMfccBuffer ms buf <> Fail OutOfFuel) /\
  (forall ms buffer,
     size (audio_buffer (stream ms)) < AUDIO_WIN_LEN_SAMPLES ->
     feedAudioContent ms buffer <> Fail OutOfFuel) /\
  (forall ms, finishStream ms <> Fail OutOfFuel).
Proof.
  intros Hcap Hfeat. split_and.
  - intros ms buf. now apply processMfccWindow_fuel.
  - intros ms buf. now apply pushMfccBuffer_fuel.
  - intros ms buffer. now apply feedAudioContent_fuel.
  - intros ms. now apply finishStream_fuel.
Qed.

Lemma infer_no_steps ms buf :
  n_steps model = 0 ->
  exists ms', infer ms buf 0 = Ret ms' /\
              batch_buffer (stream ms') = batch_buffer (stream ms).
Proof.
  intros Hs. unfold infer. cbv zeta. rewrite Hs.
  repeat (rewrite Z.mul_0_l || rewrite Z.mul_0_r).
  change (u32 0) with 0.
  cbn [Z.max Z.eqb Z.to_nat firstn Z.sub Z.opp repeat app].
  destruct (Z.leb_spec 0 (size buf)) as [_|Hneg];
    [|pose proof (size_nonneg buf); lia].
  cbn [andb]. destruct (Run _ _ _) as [sess [out|]].
  - destruct (Z.leb_spec 0 (size out)) as [_|Hneg];
      [|pose proof (size_nonneg out); lia].
    eexists. split; reflexivity.
  - eexists. split; reflexivity.
Qed.

(** A model without steps.  With n_steps = 0, a timestep that reaches an
    empty batch_buffer is never consumed: every iteration of the loop of
    processMfccWindow copies nothing, runs the engine on an empty batch and
    starts over, whatever the number of iterations allowed. *)
Theorem zero_steps_spin buf :
  n_steps model = 0 -> buf <> [] ->
  forall fuel ms,
    batch_buffer (stream ms) = [] ->
    processMfccWindow_loop fuel ms buf = Fail OutOfFuel.
Proof.
  intros Hs Hbuf. induction fuel as [|fuel IH]; intros ms Hbatch;
    rewrite processMfccWindow_loop_eq;
    (destruct buf as [|x rest] eqn:Eb; [contradiction|]); [reflexivity|].
  cbv zeta. rewrite Hbatch, Hs, Z.mul_0_l.
  change (size (@nil float32)) with 0.
  change (u32 0) with 0. change (0 - 0) with 0. change (u32 0) with 0.
  assert (Hmin : Z.min (u32 (size (x :: rest))) 0 = 0).
  { apply Z.min_r. unfold u32. apply Z.mod_pos_bound. lia. }
  rewrite Hmin. cbn [Z.to_nat firstn skipn app].
  change (size (@nil float32)) with 0.
  cbn [Z.leb Z.eqb Z.compare]. unfold processBatch.
  destruct (infer_no_steps (set_stream ms (set_batch_buffer (stream ms) [])) [] Hs)
    as (ms2 & -> & Hb2).
  cbn [bind]. apply IH. cbn [stream set_stream set_batch_buffer batch_buffer].
  apply resize_0.
Qed.

(** ** The one-shot call *)

(** One-shot transcription.  DS_SpeechToText returns no text exactly when
    the stream cannot be set up; otherwise its result (text, session or
    fault) is the one of the streaming calls: DS_SetupStream,
    DS_FeedAudioContent on the chunks of any partition of the buffer, then
    DS_FinishStream. *)
Theorem speech_to_text_streaming sess chunks :
  DS_SpeechToText sess (concat chunks) =
  match DS_SetupStream sess with
  | None => Ret (None, fst (initialize_state sess))
  | Some ctx =>
      ms1 <- feed_chunks ctx chunks ;;
      r <- DS_FinishStream ms1 ;;
      Ret (Some (fst r), snd r)
  end.
Proof.
  unfold DS_SpeechToText, DS_FeedAudioContent.
  destruct (DS_SetupStream sess) as [ctx|] eqn:E; [|reflexivity].
  apply DS_SetupStream_start in E. subst ctx.
  rewrite feed_chunks_samples, feedAudioContent_samples by apply start_room.
  reflexivity.
Qed.

(** ** The last samples of a stream *)

Lemma audio_windows_outcomes t : window_outcomes t = [] -> audio_windows t = [].
Proof.
  induction t as [|e t IH]; [reflexivity|].
  unfold window_outcomes, audio_windows in *.
  destruct e; cbn [flat_map app]; try exact IH. discriminate.
Qed.

Lemma pushed_vectors_decimated_one b w :
  pushed_vectors (decimated b [w]) = if b then [] else [feature_of w].
Proof. now destruct b. Qed.

(** What finishStream adds to the front of the pipeline: one last window,
    then the context padding. *)
Lemma finishStream_front ms text ms' :
  wf_model ->
  finishStream ms = Ret (text, ms') ->
  audio_windows (trace ms') = audio_windows (trace ms) ++ [audio_buffer (stream ms)] /\
  window_outcomes (trace ms')
    = window_outcomes (trace ms) ++ [skip_next_mfcc (stream ms)] /\
  pushed_vectors (trace ms')
    = pushed_vectors (trace ms)
        ++ (if skip_next_mfcc (stream ms) then []
            else [feature_of (audio_buffer (stream ms))])
        ++ repeat zero_buffer (Z.to_nat (n_context model)).
Proof.
  intros Hwf Hfin. unfold finishStream in Hfin.
  destruct (processAudioWindow _ _) as [msa|] eqn:E1; [|discriminate].
  cbn [bind] in Hfin. rewrite (add_context_padding_eq Hwf) in Hfin.
  destruct (addZeroMfccWindows _ _) as [msb|] eqn:E2; [|discriminate].
  cbn [bind] in Hfin.
  destruct (process_final_batch msb) as [msc|] eqn:E3; [|discriminate].
  cbn [bind] in Hfin. destruct (decode _); [|discriminate].
  cbn [bind] in Hfin. apply Ret_inj in Hfin. injection Hfin as _ <-.
  apply processAudioWindow_trace in E1 as (t1 & T1 & B1 & _).
  apply addZeroMfccWindows_trace in E2 as (t2 & T2 & P2 & W2).
  apply process_final_batch_trace in E3 as (t3 & T3 & F3).
  assert (B3 : Forall (fun e => is_batching_event e = true) t3)
    by (destruct F3 as [->|(input & k & ok & ->)]; now repeat constructor).
  rewrite T3, T2, T1.
  rewrite !audio_windows_app, !window_outcomes_app, !pushed_vectors_app.
  rewrite audio_windows_decimated, pushed_vectors_decimated_one.
  rewrite (audio_windows_batching t1 B1), (audio_windows_batching t3 B3).
  rewrite (window_outcomes_batching t1 B1), (window_outcomes_batching t3 B3).
  rewrite (pushed_vectors_batching t1 B1), (pushed_vectors_batching t3 B3).
  rewrite (audio_windows_outcomes t2 W2), W2, P2, !app_nil_r.
  split_and.
  - reflexivity.
  - f_equal. now destruct (skip_next_mfcc (stream ms)).
  - now rewrite <- app_assoc.
Qed.

(** The windows of a stream fed from its set-up, and its toggle. *)
Lemma feed_samples_windows sess buffer ms' :
  feed_samples (start sess) buffer = Ret ms' ->
  front_events (trace ms') = decimated false (audio_windows (trace ms')) /\
  skip_next_mfcc (stream ms') = Nat.odd (length (audio_windows (trace ms'))).
Proof.
  intros H.
  assert (Hinv0 : exists ws,
             front_events (trace (start sess)) = decimated false ws /\
             skip_next_mfcc (stream (start sess)) = Nat.odd (length ws))
    by (exists []; split; reflexivity).
  destruct (feed_samples_decimation _ _ _ Hinv0 H) as (ws & Hfront & Hskip).
  assert (Hws : audio_windows (trace ms') = ws)
    by (now rewrite <- audio_windows_front, Hfront, audio_windows_decimated_all).
  now rewrite Hws.
Qed.

(** The final flush.  When a stream that was fed from its set-up is
    finished, the samples left in audio_buffer (fewer than a window) are
    handed to processAudioWindow as one last window, which takes its turn in
    the decimation: after an even number of completed windows it is passed
    to the extractor and gives the last feature vector, after an odd number
    it is skipped and these samples are dropped.  Then come the n_context
    zero vectors. *)
Theorem final_flush sess chunks ms1 text ms2 :
  wf_model ->
  feed_chunks (start sess) chunks = Ret ms1 ->
  finishStream ms1 = Ret (text, ms2) ->
  let n := length (audio_windows (trace ms1)) in
  let last_window := audio_buffer (stream ms1) in
  audio_windows (trace ms2) = audio_windows (trace ms1) ++ [last_window] /\
  window_outcomes (trace ms2) = window_outcomes (trace ms1) ++ [Nat.odd n] /\
  pushed_vectors (trace ms2)
    = pushed_vectors (trace ms1)
        ++ (if Nat.odd n then [] else [feature_of last_window])
        ++ repeat zero_buffer (Z.to_nat (n_context model)).
Proof.
  intros Hwf H Hfin. cbv zeta.
  rewrite feed_chunks_samples in H by apply start_room.
  apply feed_samples_windows in H as (_ & Hskip).
  rewrite <- Hskip. now apply (finishStream_front _ text).
Qed.

(** ** How many timesteps a recording gives *)

Lemma windowed_count fed ms :
  windowed fed ms ->
  length (audio_windows (trace ms))
  = (if length fed <? 400 then 0 else (length fed - 240) / 160)%nat.
Proof.
  intros (Hsl & Hroom & Hkeep & _).
  pose proof (slides_length _ _ _ _ _ Hsl) as Hlen.
  rewrite length_preemphasis in Hlen.
  unfold size, AUDIO_WIN_LEN_SAMPLES, AUDIO_WIN_STEP_SAMPLES in *.
  change (Z.to_nat 400) with 400%nat in *. change (Z.to_nat 160) with 160%nat in *.
  destruct (Nat.ltb_spec (length fed) 400).
  - destruct Hkeep as [Hnil|Hge]; [now rewrite Hnil|lia].
  - destruct Hkeep as [Hnil|Hge]; [rewrite Hnil in Hlen; cbn [length] in Hlen; lia|].
    set (n := length (audio_windows (trace ms))) in *.
    set (a := length (audio_buffer (stream ms))) in *.
    assert (Ha : (240 <= a < 400)%nat) by lia.
    replace (length fed - 240)%nat with ((a - 240) + n * 160)%nat by lia.
    rewrite Nat.div_add by lia. rewrite Nat.div_small by lia. reflexivity.
Qed.

Lemma half_after_flush n :
  ((n + 1) / 2 + (if Nat.odd n then 0 else 1) = n / 2 + 1)%nat.
Proof.
  destruct (Nat.odd n) eqn:E.
  - apply Nat.odd_spec in E as (m & ->).
    replace (2 * m + 1 + 1)%nat with ((m + 1) * 2)%nat by lia.
    replace (2 * m + 1)%nat with (1 + m * 2)%nat by lia.
    rewrite Nat.div_mul, Nat.div_add by lia. cbn. lia.
  - assert (Hev : Nat.even n = true) by (rewrite <- Nat.negb_odd, E; reflexivity).
    apply Nat.even_spec in Hev as (m & ->).
    replace (2 * m + 1)%nat with (1 + m * 2)%nat by lia.
    replace (2 * m)%nat with (m * 2)%nat by lia.
    rewrite Nat.div_mul, Nat.div_add by lia. cbn. lia.
Qed.

(** Timestep count.  With a well-formed model, a stream that is set up, fed
    n samples in whatever chunks and finished has completed
    w = (n - 240) / 160 audio windows while feeding (none if n < 400), has
    pushed w / 2 + 1 feature vectors extracted from the audio, followed by
    the n_context zero vectors, and has emitted exactly w / 2 + 1 timesteps:
    a recording always gives at least one timestep, and one more for every
    320 samples from 560 on. *)
Theorem timestep_count sess chunks ms1 text ms2 :
  wf_model ->
  feed_chunks (start sess) chunks = Ret ms1 ->
  finishStream ms1 = Ret (text, ms2) ->
  let n := length (concat chunks) in
  let w := (if n <? 400 then 0 else (n - 240) / 160)%nat in
  length (audio_windows (trace ms1)) = w /\
  length (pushed_vectors (trace ms2)) = (w / 2 + 1 + Z.to_nat (n_context model))%nat /\
  length (timesteps (trace ms2)) = (w / 2 + 1)%nat.
Proof.
  intros Hwf H Hfin. cbv zeta.
  pose proof (feed_chunks_framed Hwf _ _ _ H) as Hfr.
  rewrite feed_chunks_samples in H by apply start_room.
  pose proof (feed_samples_windowed _ [] _ _ (start_windowed sess) H) as Hw.
  cbn [app] in Hw. apply windowed_count in Hw.
  destruct (feed_samples_windows _ _ _ H) as (Hfront & Hskip).
  destruct (finishStream_front _ _ _ Hwf Hfin) as (_ & _ & Hp).
  destruct (finishStream_framed Hwf _ _ _ Hfr Hfin) as (vectors & Hv & _ & Ht & _).
  assert (Hlen : length (pushed_vectors (trace ms2))
                 = (length (audio_windows (trace ms1)) / 2 + 1
                    + Z.to_nat (n_context model))%nat).
  { rewrite Hp, !length_app, repeat_length.
    rewrite <- (pushed_vectors_front (trace ms1)), Hfront, length_pushed_decimated.
    rewrite Hskip, <- half_after_flush. cbv iota.
    destruct (Nat.odd (length (audio_windows (trace ms1)))); cbn [length]; lia. }
  split_and.
  - exact Hw.
  - now rewrite Hlen, Hw.
  - rewrite Ht, length_frames. rewrite Hv, length_app, repeat_length in Hlen.
    rewrite <- Hw. lia.
Qed.

(** ** The logits only grow *)

Lemma extends_refl ms : extends ms ms.
Proof. exists []. now rewrite app_nil_r. Qed.

Lemma extends_trans ms1 ms2 ms3 : extends ms1 ms2 -> extends ms2 ms3 -> extends ms1 ms3.
Proof.
  intros [l1 H1] [l2 H2]. exists (l1 ++ l2). now rewrite H2, H1, app_assoc.
Qed.

Lemma extends_same ms ms' :
  accumulated_logits (stream ms') = accumulated_logits (stream ms) -> extends ms ms'.
Proof. intros H. exists []. now rewrite app_nil_r. Qed.

Lemma infer_extends ms buf n ms' : infer ms buf n = Ret ms' -> extends ms ms'.
Proof.
  intros H. apply infer_frame in H as (l & ok & input & Hs & _).
  exists l. now rewrite Hs.
Qed.

Lemma processMfccWindow_loop_extends fuel : forall ms buf ms',
  processMfccWindow_loop fuel ms buf = Ret ms' -> extends ms ms'.
Proof.
  induction fuel as [|fuel IH]; intros ms buf ms'; rewrite processMfccWindow_loop_eq;
    destruct buf as [|x buf]; try discriminate.
  - intros [= <-]. apply extends_refl.
  - intros [= <-]. apply extends_refl.
  - cbv zeta. destruct (_ <=? _); [|discriminate].
    destruct (_ =? _).
    + unfold processBatch. destruct (infer _ _ _) as [ms2|] eqn:E; [|discriminate].
      cbn [bind]. intros H. apply IH in H. apply infer_extends in E.
      eapply extends_trans; [|eapply extends_trans; [exact E|]].
      * now apply extends_same.
      * eapply extends_trans; [|exact H]. now apply extends_same.
    + intros H. apply IH in H. eapply extends_trans; [|exact H]. now apply extends_same.
Qed.

Lemma processMfccWindow_extends ms buf ms' :
  processMfccWindow ms buf = Ret ms' -> extends ms ms'.
Proof.
  unfold processMfccWindow. intros H. apply processMfccWindow_loop_extends in H.
  eapply extends_trans; [|exact H]. now apply extends_same.
Qed.

Lemma pushMfccBuffer_loop_extends fuel : forall ms buf ms',
  pushMfccBuffer_loop fuel ms buf = Ret ms' -> extends ms ms'.
Proof.
  induction fuel as [|fuel IH]; intros ms buf ms'; rewrite pushMfccBuffer_loop_eq;
    destruct buf as [|x buf]; try discriminate.
  - intros [= <-]. apply extends_refl.
  - intros [= <-]. apply extends_refl.
  - cbv zeta. destruct (_ <=? _); [|discriminate].
    destruct (_ =? _).
    + destruct (processMfccWindow _ _) as [ms2|] eqn:E; [|discriminate].
      cbn [bind]. destruct (_ <=? _); [|discriminate].
      intros H. apply IH in H. apply processMfccWindow_extends in E.
      eapply extends_trans; [|eapply extends_trans; [exact E|]].
      * now apply extends_same.
      * eapply extends_trans; [|exact H]. now apply extends_same.
    + intros H. apply IH in H. eapply extends_trans; [|exact H]. now apply extends_same.
Qed.

Lemma pushMfccBuffer_extends ms buf ms' :
  pushMfccBuffer ms buf = Ret ms' -> extends ms ms'.
Proof.
  unfold pushMfccBuffer. intros H. apply pushMfccBuffer_loop_extends in H.
  eapply extends_trans; [|exact H]. now apply extends_same.
Qed.

Lemma processAudioWindow_extends ms buf ms' :
  processAudioWindow ms buf = Ret ms' -> extends ms ms'.
Proof.
  unfold processAudioWindow. cbv zeta.
  destruct (negb (negb _)).
  - intros [= <-]. now apply extends_same.
  - destruct (csf_mfcc buf) as [n mfcc].
    destruct (_ =? _); [|discriminate]. destruct (_ <=? _); [|discriminate].
    intros H. apply pushMfccBuffer_extends in H.
    eapply extends_trans; [|exact H]. now apply extends_same.
Qed.

Lemma process_full_window_extends ms ms' :
  process_full_window ms = Ret ms' -> extends ms ms'.
Proof.
  unfold process_full_window. destruct (_ =? _).
  - destruct (processAudioWindow _ _) as [ms1|] eqn:E; [|discriminate].
    cbn [bind]. intros [= <-]. apply processAudioWindow_extends in E.
    eapply extends_trans; [exact E|]. now apply extends_same.
  - intros [= <-]. apply extends_refl.
Qed.

Lemma fill_audio_buffer_logits buffer : forall st,
  accumulated_logits (fst (fill_audio_buffer st buffer)) = accumulated_logits st.
Proof.
  induction buffer as [|x rest IH]; intros st; cbn [fill_audio_buffer]; [reflexivity|].
  destruct (_ <? _); [|reflexivity]. now rewrite IH.
Qed.

Lemma feedAudioContent_loop_extends fuel : forall ms buffer ms',
  feedAudioContent_loop fuel ms buffer = Ret ms' -> extends ms ms'.
Proof.
  induction fuel as [|fuel IH]; intros ms buffer ms'; rewrite feedAudioContent_loop_eq;
    destruct buffer as [|x rest]; try discriminate.
  - intros [= <-]. apply extends_refl.
  - intros [= <-]. apply extends_refl.
  - pose proof (fill_audio_buffer_logits (x :: rest) (stream ms)) as Hfill.
    destruct (fill_audio_buffer (stream ms) (x :: rest)) as [st rest'].
    cbn [fst] in Hfill.
    destruct (process_full_window _) as [ms1|] eqn:E; [|discriminate].
    cbn [bind]. intros H. apply IH in H. apply process_full_window_extends in E.
    eapply extends_trans; [|eapply extends_trans; [exact E|exact H]].
    now apply extends_same.
Qed.

Lemma addZeroMfccWindows_extends n : forall ms ms',
  addZeroMfccWindows n ms = Ret ms' -> extends ms ms'.
Proof.
  induction n as [|n IH]; intros ms ms'; cbn [addZeroMfccWindows].
  - intros [= <-]. apply extends_refl.
  - unfold addZeroMfccWindow.
    destruct (pushMfccBuffer ms zero_buffer) as [ms1|] eqn:E; [|discriminate].
    cbn [bind]. intros H. apply IH in H. apply pushMfccBuffer_extends in E.
    eapply extends_trans; eassumption.
Qed.

(** Append-only logits.  Whatever the configuration and the state,
    feedAudioContent and finishStream only append to accumulated_logits:
    the logits an earlier intermediateDecode decoded are a prefix of those
    any later decoding sees, and intermediateDecode itself decodes exactly
    the logits accumulated so far. *)
Theorem logits_append_only :
  (forall ms buffer ms',
     feedAudioContent ms buffer = Ret ms' ->
     exists l,
       accumulated_logits (stream ms') = accumulated_logits (stream ms) ++ l /\
       intermediateDecode ms' = decode (accumulated_logits (stream ms) ++ l)) /\
  (forall ms text ms',
     finishStream ms = Ret (text, ms') ->
     exists l,
       accumulated_logits (stream ms') = accumulated_logits (stream ms) ++ l /\
       decode (accumulated_logits (stream ms) ++ l) = Ret text).
Proof.
  split.
  - intros ms buffer ms' H. unfold feedAudioContent in H.
    apply feedAudioContent_loop_extends in H as [l H]. exists l.
    split; [exact H|]. unfold intermediateDecode. now rewrite H.
  - intros ms text ms' H. unfold finishStream in H.
    destruct (processAudioWindow _ _) as [ms1|] eqn:E1; [|discriminate].
    cbn [bind] in H. unfold add_context_padding in H.
    destruct (addZeroMfccWindows _ _) as [ms2|] eqn:E2; [|discriminate].
    cbn [bind] in H. destruct (_ <=? _); [|discriminate].
    cbn [bind] in H.
    destruct (process_final_batch ms2) as [ms3|] eqn:E3; [|discriminate].
    cbn [bind] in H. destruct (decode _) as [text'|] eqn:E4; [|discriminate].
    cbn [bind] in H. apply Ret_inj in H. injection H as <- <-.
    apply processAudioWindow_extends in E1. apply addZeroMfccWindows_extends in E2.
    assert (E3' : extends ms2 ms3).
    { unfold process_final_batch in E3. cbv zeta in E3.
      destruct (0 <? _).
      - destruct (_ =? _); [discriminate|]. now apply infer_extends in E3.
      - apply Ret_inj in E3. subst ms3. apply extends_refl. }
    destruct (extends_trans _ _ _ E1 (extends_trans _ _ _ E2 E3')) as [l Hl].
    exists l. split; [exact Hl|]. now rewrite <- Hl.
Qed.

(** ** The rows handed to the decoder *)





(** ** DS_AudioToInputVector fills its array from left to right *)

Lemma s32_small z : INT_MIN <= z <= INT_MAX -> s32 z = z.
Proof.
  unfold s32, INT_MIN, INT_MAX. intros H. rewrite Z.mod_small; lia.
Qed.

Lemma int_of_ok z : INT_MIN <= z <= INT_MAX -> int_of z = Ret z.
Proof.
  unfold int_of. intros H.
  destruct (Z.leb_spec INT_MIN z); [|lia]. destruct (Z.leb_spec z INT_MAX); [|lia].
  reflexivity.
Qed.

Lemma s32_u32_small z : 0 <= z <= INT_MAX -> s32 (u32 z) = z.
Proof.
  intros H. rewrite u32_small by (unfold INT_MAX in H; lia).
  apply s32_small. unfold INT_MIN. lia.
Qed.

Lemma load_ok (a : list float32) i :
  0 <= i < size a -> load a i = Ret (nth (Z.to_nat i) a f32_zero).
Proof.
  unfold load. intros H.
  destruct (Z.leb_spec 0 i); [|lia]. destruct (Z.ltb_spec i (size a)); [|lia].
  reflexivity.
Qed.

(** A store right behind what is already written. *)
Lemma store_end (pre : list float32) r v :
  store (pre ++ repeat f32_zero (S r)) (size pre) v
  = Ret (pre ++ v :: repeat f32_zero r).
Proof.
  unfold store. pose proof (size_nonneg pre).
  destruct (Z.leb_spec 0 (size pre)); [|lia].
  destruct (Z.ltb_spec (size pre) (size (pre ++ repeat f32_zero (S r)))) as [_|Hge];
    [|rewrite size_app, size_repeat in Hge; lia].
  cbn [andb]. rewrite to_nat_size, firstn_app, firstn_all, Nat.sub_diag.
  cbn [firstn]. rewrite app_nil_r, skipn_app.
  rewrite skipn_all2 by lia.
  replace (S (length pre) - length pre)%nat with 1%nat by lia.
  reflexivity.
Qed.

Lemma firstn_skipn_S {A : Type} (d : A) (l : list A) (s n : nat) :
  (s < length l)%nat ->
  firstn (S n) (skipn s l) = nth s l d :: firstn n (skipn (S s) l).
Proof.
  revert s. induction l as [|x l IH]; intros s H; [cbn in H; lia|].
  destruct s as [|s]; [reflexivity|].
  cbn [skipn nth]. apply IH. cbn [length] in H. lia.
Qed.

Lemma copy_features_fill (mfcc : list float32) n : forall k pre r base mfcc_base,
  size pre = base + k -> 0 <= mfcc_base -> 0 <= k ->
  mfcc_base + k + Z.of_nat n <= size mfcc ->
  mfcc_base + k + Z.of_nat n <= INT_MAX ->
  (n <= r)%nat ->
  copy_features mfcc n k (pre ++ repeat f32_zero r) base mfcc_base
  = Ret (pre ++ firstn n (skipn (Z.to_nat (mfcc_base + k)) mfcc)
             ++ repeat f32_zero (r - n)).
Proof.
  induction n as [|n IH]; intros k pre r base mfcc_base Hpre Hb Hk Hsrc Hint Hr.
  - cbn [copy_features firstn app]. now rewrite Nat.sub_0_r.
  - cbn [copy_features].
    rewrite int_of_ok by (unfold INT_MIN; lia). cbn [bind].
    rewrite load_ok by lia. cbn [bind].
    destruct r as [|r]; [lia|].
    rewrite <- Hpre, store_end. cbn [bind].
    change (pre ++ nth (Z.to_nat (mfcc_base + k)) mfcc f32_zero :: repeat f32_zero r)
      with (pre ++ [nth (Z.to_nat (mfcc_base + k)) mfcc f32_zero] ++ repeat f32_zero r).
    rewrite app_assoc, IH; try lia.
    + rewrite <- app_assoc. f_equal. cbn [app].
      rewrite (firstn_skipn_S f32_zero) by (unfold size in Hsrc; lia).
      replace (Z.to_nat (mfcc_base + (k + 1))) with (S (Z.to_nat (mfcc_base + k))) by lia.
      replace (S r - S n)%nat with (r - n)%nat by lia.
      reflexivity.
    + rewrite size_app, size_cons, size_nil. lia.
Qed.

Section InputVector.

Variables aNCep aNContext n_frames : Z.
Variable mfcc : list float32.

Hypothesis Hcep : 0 <= aNCep.
Hypothesis Hctx : 0 <= aNContext.
Hypothesis Hframes : 0 <= n_frames.
Hypothesis Hmfcc : size mfcc = n_frames * aNCep.
Hypothesis Hint : (n_frames + 1) * ((aNCep + 1) * (2 * aNContext + 1)) <= INT_MAX.

Local Notation "'kept'" := (kept_frame aNCep n_frames mfcc).
Local Notation "'zeros'" := (repeat f32_zero).

Lemma input_bounds :
  aNCep * (2 * aNContext + 1) <= INT_MAX /\
  n_frames + 1 <= INT_MAX /\
  (n_frames + 1) * aNCep <= INT_MAX /\
  n_frames + 1 + 2 * aNContext <= INT_MAX /\
  (n_frames + 1) * (aNCep * (2 * aNContext + 1)) <= INT_MAX.
Proof.
  assert (Hm : 0 < INT_MAX) by (unfold INT_MAX; lia).
  set (a := n_frames + 1) in *. set (c := 2 * aNContext + 1) in *.
  assert (Ha : 1 <= a) by (unfold a; lia). assert (Hc : 1 <= c) by (unfold c; lia).
  assert (H1 : a * c <= a * ((aNCep + 1) * c)) by nia.
  assert (H2 : a * (aNCep * c) <= a * ((aNCep + 1) * c)) by nia.
  assert (H3 : aNCep * c <= a * (aNCep * c)) by nia.
  assert (H4 : a <= a * c) by nia.
  assert (H5 : a * aNCep <= a * (aNCep * c)) by nia.
  assert (H6 : a + c - 1 <= a * c) by nia.
  split_and; lia.
Qed.

Lemma kept_outside e :
  e < 0 \/ n_frames <= 2 * e -> kept e = zeros (Z.to_nat aNCep).
Proof.
  intros H. unfold kept_frame.
  destruct (Z.leb_spec 0 e); [|reflexivity].
  destruct (Z.ltb_spec (2 * e) n_frames); [lia|reflexivity].
Qed.

Lemma kept_inside e :
  0 <= e -> 2 * e < n_frames ->
  kept e = firstn (Z.to_nat aNCep) (skipn (Z.to_nat (2 * e * aNCep)) mfcc).
Proof.
  intros H0 H1. unfold kept_frame.
  destruct (Z.leb_spec 0 e); [|lia].
  destruct (Z.ltb_spec (2 * e) n_frames); [reflexivity|lia].
Qed.

Lemma size_kept e : size (kept e) = aNCep.
Proof.
  destruct (Z_lt_le_dec e 0) as [Hneg|Hpos];
    [rewrite kept_outside by lia; rewrite size_repeat; lia|].
  destruct (Z_lt_le_dec (2 * e) n_frames) as [Hin|Hout];
    [|rewrite kept_outside by lia; rewrite size_repeat; lia].
  rewrite kept_inside by lia. unfold size in *.
  rewrite length_firstn, length_skipn. nia.
Qed.

Lemma size_kept_slots (f : nat -> Z) l :
  size (concat (map (fun s => kept (f s)) l)) = Z.of_nat (length l) * aNCep.
Proof.
  induction l as [|s l IH]; [reflexivity|].
  cbn [map concat length]. rewrite size_app, size_kept, IH. lia.
Qed.

Lemma kept_slots_outside (f : nat -> Z) l :
  (forall s, In s l -> f s < 0 \/ n_frames <= 2 * f s) ->
  concat (map (fun s => kept (f s)) l) = zeros (length l * Z.to_nat aNCep).
Proof.
  induction l as [|s l IH]; intros H; [reflexivity|].
  cbn [map concat length]. rewrite kept_outside by (apply H; now left).
  rewrite IH by (intros s' Hs'; apply H; now right).
  rewrite <- repeat_app. f_equal.
Qed.

(** One frame copied right behind what is already written. *)
Lemma copy_slot pre r base e :
  size pre = base -> 0 <= e -> 2 * e < n_frames ->
  (Z.to_nat aNCep <= r)%nat ->
  copy_features mfcc (Z.to_nat aNCep) 0 (pre ++ zeros r) base (2 * e * aNCep)
  = Ret (pre ++ kept e ++ zeros (r - Z.to_nat aNCep)).
Proof.
  intros Hpre He0 He1 Hr. destruct input_bounds as (_ & _ & Hb & _).
  rewrite copy_features_fill; try lia; try nia.
  rewrite kept_inside by lia. now rewrite Z.add_0_r.
Qed.

Lemma past_context_fill n : forall pre r i idx,
  Z.of_nat n <= aNContext -> 0 <= i -> 2 * i < n_frames ->
  size pre = idx + (aNContext - Z.of_nat n) * aNCep ->
  (n * Z.to_nat aNCep <= r)%nat ->
  past_context aNCep aNContext mfcc n (Z.of_nat n) i idx (pre ++ zeros r)
  = Ret (pre
           ++ concat (map (fun s => kept (i + Z.of_nat s - aNContext))
                          (seq (Z.to_nat (aNContext - Z.of_nat n)) n))
           ++ zeros (r - n * Z.to_nat aNCep)).
Proof.
  destruct input_bounds as (Hfs & Hn1 & Hnc & Hsum & _).
  induction n as [|n IH]; intros pre r i idx Hj Hi0 Hi1 Hpre Hr.
  - cbn [past_context seq map concat app]. now rewrite Nat.sub_0_r.
  - cbn [past_context]. cbn [Nat.mul] in Hr |- *.
    rewrite int_of_ok by (unfold INT_MIN, INT_MAX in *; lia). cbn [bind].
    replace (Z.of_nat (S n) - 1) with (Z.of_nat n) by lia.
    cbn [seq map concat].
    replace (Z.of_nat (Z.to_nat (aNContext - Z.of_nat (S n))))
      with (aNContext - Z.of_nat (S n)) by lia.
    replace (i + (aNContext - Z.of_nat (S n)) - aNContext) with (i - Z.of_nat (S n)) by lia.
    replace (S (Z.to_nat (aNContext - Z.of_nat (S n))))
      with (Z.to_nat (aNContext - Z.of_nat n)) by lia.
    destruct (Z.ltb_spec ((i - Z.of_nat (S n)) * 2) 0) as [Hneg|Hpos].
    + rewrite (kept_outside (i - Z.of_nat (S n))) by lia.
      replace r with (Z.to_nat aNCep + (r - Z.to_nat aNCep))%nat at 1 by lia.
      rewrite repeat_app, app_assoc, IH; try lia.
      * rewrite <- !app_assoc. repeat (apply f_equal); lia.
      * rewrite size_app, size_repeat. lia.
    + assert (Hfi : (i - Z.of_nat (S n)) * 2 * aNCep <= n_frames * aNCep)
        by (apply Z.mul_le_mono_nonneg_r; lia).
      assert (Hfi0 : 0 <= (i - Z.of_nat (S n)) * 2 * aNCep)
        by (apply Z.mul_nonneg_nonneg; lia).
      assert (Hbase : (aNContext - Z.of_nat (S n)) * aNCep <= aNContext * aNCep)
        by (apply Z.mul_le_mono_nonneg_r; lia).
      assert (Hbase0 : 0 <= (aNContext - Z.of_nat (S n)) * aNCep)
        by (apply Z.mul_nonneg_nonneg; lia).
      assert (Hprod : 0 <= aNContext * aNCep) by (apply Z.mul_nonneg_nonneg; lia).
      rewrite (s32_u32_small ((i - Z.of_nat (S n)) * 2 * aNCep)) by lia.
      rewrite (u32_small (Z.of_nat (S n))) by (unfold INT_MAX in *; lia).
      rewrite (u32_small (aNContext - Z.of_nat (S n))) by (unfold INT_MAX in *; lia).
      rewrite (s32_u32_small ((aNContext - Z.of_nat (S n)) * aNCep)) by lia.
      replace ((i - Z.of_nat (S n)) * 2 * aNCep)
        with (2 * (i - Z.of_nat (S n)) * aNCep) by ring.
      rewrite copy_slot; try lia. cbn [bind].
      rewrite app_assoc, IH; try lia.
      * rewrite <- !app_assoc. repeat (apply f_equal); lia.
      * rewrite size_app, size_kept. lia.
Qed.

Lemma future_context_fill n : forall j pre r i idx,
  1 <= j -> j + Z.of_nat n = aNContext + 1 -> 0 <= i -> 2 * i < n_frames ->
  size pre = idx + aNCep * aNContext + aNCep + (j - 1) * aNCep ->
  (n * Z.to_nat aNCep <= r)%nat ->
  future_context aNCep n_frames mfcc n j i idx (aNCep * aNContext) (pre ++ zeros r)
  = Ret (pre
           ++ concat (map (fun s => kept (i + Z.of_nat s - aNContext))
                          (seq (Z.to_nat (aNContext + j)) n))
           ++ zeros (r - n * Z.to_nat aNCep)).
Proof.
  destruct input_bounds as (Hfs & Hn1 & Hnc & Hsum & _).
  induction n as [|n IH]; intros j pre r i idx Hj Hn Hi0 Hi1 Hpre Hr.
  - cbn [future_context seq map concat app]. now rewrite Nat.sub_0_r.
  - cbn [future_context]. cbn [Nat.mul] in Hr |- *.
    rewrite int_of_ok by (unfold INT_MIN, INT_MAX in *; lia). cbn [bind].
    destruct (Z.leb_spec n_frames ((i + j) * 2)) as [Hout|Hin].
    + rewrite kept_slots_outside.
      * rewrite length_seq, <- repeat_app. cbn [Nat.mul].
        repeat (apply f_equal). lia.
      * intros s Hs. apply in_seq in Hs. right. lia.
    + assert (Hfi : (i + j) * 2 * aNCep <= n_frames * aNCep)
        by (apply Z.mul_le_mono_nonneg_r; lia).
      assert (Hfi0 : 0 <= (i + j) * 2 * aNCep)
        by (apply Z.mul_nonneg_nonneg; lia).
      assert (Hbase : j * aNCep <= aNContext * aNCep)
        by (apply Z.mul_le_mono_nonneg_r; lia).
      assert (Hbase0 : 0 <= (j - 1) * aNCep)
        by (apply Z.mul_nonneg_nonneg; lia).
      assert (Hprod : 0 <= aNContext * aNCep) by (apply Z.mul_nonneg_nonneg; lia).
      rewrite (s32_u32_small ((i + j) * 2 * aNCep)) by lia.
      rewrite (s32_u32_small (aNCep * aNContext + aNCep + (j - 1) * aNCep)) by lia.
      replace ((i + j) * 2 * aNCep) with (2 * (i + j) * aNCep) by ring.
      rewrite copy_slot; try lia. cbn [bind].
      rewrite int_of_ok by (unfold INT_MIN, INT_MAX in *; lia). cbn [bind].
      rewrite app_assoc, IH; try lia.
      * cbn [seq map concat]. rewrite <- !app_assoc.
        replace (i + Z.of_nat (Z.to_nat (aNContext + j)) - aNContext) with (i + j) by lia.
        replace (S (Z.to_nat (aNContext + j))) with (Z.to_nat (aNContext + (j + 1))) by lia.
        repeat (apply f_equal); lia.
      * rewrite size_app, size_kept. lia.
Qed.

Lemma past_context_all pre r i idx :
  0 <= i -> 2 * i < n_frames ->
  size pre = idx ->
  (Z.to_nat aNContext * Z.to_nat aNCep <= r)%nat ->
  past_context aNCep aNContext mfcc (Z.to_nat aNContext) aNContext i idx (pre ++ zeros r)
  = Ret (pre
           ++ concat (map (fun s => kept (i + Z.of_nat s - aNContext))
                          (seq 0 (Z.to_nat aNContext)))
           ++ zeros (r - Z.to_nat aNContext * Z.to_nat aNCep)).
Proof.
  intros Hi0 Hi1 Hpre Hr.
  pose proof (past_context_fill (Z.to_nat aNContext) pre r i idx) as H.
  rewrite Z2Nat.id, Z.sub_diag in H by lia. cbn [Z.to_nat] in H.
  apply H; lia.
Qed.

Lemma context_window_split i :
  context_window aNCep aNContext n_frames mfcc i =
  concat (map (fun s => kept (Z.of_nat i + Z.of_nat s - aNContext))
              (seq 0 (Z.to_nat aNContext)))
    ++ kept (Z.of_nat i)
    ++ concat (map (fun s => kept (Z.of_nat i + Z.of_nat s - aNContext))
                   (seq (Z.to_nat (aNContext + 1)) (Z.to_nat aNContext))).
Proof.
  unfold context_window.
  replace (Z.to_nat (2 * aNContext + 1))
    with (Z.to_nat aNContext + (1 + Z.to_nat aNContext))%nat by lia.
  rewrite seq_app, map_app, concat_app. f_equal.
  rewrite seq_app, map_app, concat_app. cbn [seq map concat Nat.add].
  rewrite app_nil_r. f_equal; [f_equal; lia|].
  do 3 f_equal. lia.
Qed.

Lemma size_context_window i :
  size (context_window aNCep aNContext n_frames mfcc i) = aNCep * (2 * aNContext + 1).
Proof.
  unfold context_window. rewrite size_kept_slots, length_seq. lia.
Qed.

Lemma frame_cells :
  Z.to_nat (aNCep * (2 * aNContext + 1))
  = (Z.to_nat aNContext * Z.to_nat aNCep + Z.to_nat aNCep
     + Z.to_nat aNContext * Z.to_nat aNCep)%nat.
Proof.
  apply Nat2Z.inj. rewrite Z2Nat.id by (apply Z.mul_nonneg_nonneg; lia).
  rewrite !Nat2Z.inj_add, !Nat2Z.inj_mul, !Z2Nat.id by lia. ring.
Qed.

Lemma input_frames_fill n : forall i idx mfcc_idx done r,
  0 <= i -> i + Z.of_nat n = (n_frames + 1) / 2 ->
  idx = i * (aNCep * (2 * aNContext + 1)) ->
  mfcc_idx = 2 * i * aNCep ->
  size done = idx ->
  (n * Z.to_nat (aNCep * (2 * aNContext + 1)) <= r)%nat ->
  input_frames aNCep aNContext n_frames mfcc n i idx mfcc_idx
    (aNCep * aNContext) (aNCep * (2 * aNContext + 1)) (done ++ zeros r)
  = Ret (done
           ++ concat (map (context_window aNCep aNContext n_frames mfcc)
                          (seq (Z.to_nat i) n))
           ++ zeros (r - n * Z.to_nat (aNCep * (2 * aNContext + 1)))).
Proof.
  destruct input_bounds as (Hfs & Hn1 & Hnc & Hsum & Hall).
  assert (Hprod : 0 <= aNCep * aNContext) by (apply Z.mul_nonneg_nonneg; lia).
  assert (Hfs0 : 0 <= aNCep * (2 * aNContext + 1)) by (apply Z.mul_nonneg_nonneg; lia).
  assert (Hhalf : 2 * ((n_frames + 1) / 2) <= n_frames + 1) by (apply Z.mul_div_le; lia).
  set (len := (n_frames + 1) / 2) in *.
  induction n as [|n IH]; intros i idx mfcc_idx done r Hi Hlen Hidx Hmidx Hdone Hr.
  - cbn [input_frames seq map concat app]. now rewrite Nat.sub_0_r.
  - cbn [input_frames]. cbn [Nat.mul] in Hr |- *.
    rewrite frame_cells in Hr.
    set (ac := (Z.to_nat aNContext * Z.to_nat aNCep)%nat) in *.
    assert (Hac : Z.of_nat ac = aNCep * aNContext)
      by (unfold ac; rewrite Nat2Z.inj_mul, !Z2Nat.id by lia; ring).
    assert (Hin : 2 * i < n_frames) by lia.
    rewrite s32_small by (unfold INT_MIN, INT_MAX in *; lia).
    rewrite past_context_all by (fold ac; lia). fold ac. cbn [bind].
    set (P := concat (map (fun s => kept_frame aNCep n_frames mfcc (i + Z.of_nat s - aNContext))
                          (seq 0 (Z.to_nat aNContext)))).
    assert (HP : size P = aNCep * aNContext)
      by (unfold P; rewrite size_kept_slots, length_seq; lia).
    rewrite app_assoc, Hmidx, copy_slot; try lia;
      [|rewrite size_app; lia].
    cbn [bind]. rewrite app_assoc.
    rewrite future_context_fill; try lia;
      [|rewrite !size_app, size_kept; lia].
    cbn [bind].
    assert (Hnext : (i + 1) * (aNCep * (2 * aNContext + 1))
                    <= (n_frames + 1) * (aNCep * (2 * aNContext + 1)))
      by (apply Z.mul_le_mono_nonneg_r; lia).
    assert (Hnext0 : 0 <= i * (aNCep * (2 * aNContext + 1)))
      by (apply Z.mul_nonneg_nonneg; lia).
    rewrite int_of_ok by (unfold INT_MIN; lia). cbn [bind].
    assert (Hm1 : 2 * (i + 1) * aNCep <= (n_frames + 1) * aNCep)
      by (apply Z.mul_le_mono_nonneg_r; lia).
    assert (Hm0 : 0 <= 2 * i * aNCep) by (apply Z.mul_nonneg_nonneg; lia).
    rewrite (u32_small (aNCep * 2)) by (unfold INT_MAX in *; lia).
    rewrite s32_u32_small by lia.
    rewrite <- !app_assoc. fold ac.
    replace (P ++ kept_frame aNCep n_frames mfcc i
               ++ concat (map (fun s => kept_frame aNCep n_frames mfcc
                                          (i + Z.of_nat s - aNContext))
                              (seq (Z.to_nat (aNContext + 1)) (Z.to_nat aNContext)))
               ++ zeros (r - ac - Z.to_nat aNCep - ac))
      with (context_window aNCep aNContext n_frames mfcc (Z.to_nat i)
              ++ zeros (r - ac - Z.to_nat aNCep - ac)).
    + rewrite app_assoc, IH; try lia.
      * rewrite <- app_assoc. cbn [seq map concat]. rewrite <- app_assoc.
        replace (S (Z.to_nat i)) with (Z.to_nat (i + 1)) by lia.
        rewrite frame_cells. fold ac. repeat (apply f_equal).
        generalize (n * (ac + Z.to_nat aNCep + ac))%nat. intros m.
        clear. lia.
      * rewrite size_app, size_context_window. lia.
      * rewrite frame_cells. fold ac. lia.
    + rewrite context_window_split, Z2Nat.id by lia. unfold P.
      now rewrite <- !app_assoc.
Qed.

Lemma map_seq_shift {A : Type} (f : nat -> A) i m :
  map f (seq i m) = map (fun s => f (i + s)%nat) (seq 0 m).
Proof.
  induction m as [|m IH]; [reflexivity|].
  rewrite !seq_S, !map_app, IH. reflexivity.
Qed.

Lemma length_kept_slots (f : nat -> Z) l :
  length (concat (map (fun s => kept (f s)) l)) = (length l * Z.to_nat aNCep)%nat.
Proof.
  pose proof (size_kept_slots f l) as H. unfold size in H.
  apply Nat2Z.inj. rewrite H, Nat2Z.inj_mul, Z2Nat.id by lia. reflexivity.
Qed.

(** The frames kept, with [aNContext] frames of zeros on both sides. *)
Lemma padded_slots :
  let len := Z.to_nat ((n_frames + 1) / 2) in
  let context := zeros (Z.to_nat (aNCep * aNContext)) in
  context
    ++ concat (frames (Z.to_nat aNCep) (2 * Z.to_nat aNCep) len mfcc)
    ++ context
  = concat (map (fun q => kept (Z.of_nat q - aNContext))
                (seq 0 (Z.to_nat aNContext + len + Z.to_nat aNContext))).
Proof.
  cbv zeta.
  assert (Hhalf : 2 * ((n_frames + 1) / 2) <= n_frames + 1) by (apply Z.mul_div_le; lia).
  assert (Hhalf2 : n_frames < 2 * ((n_frames + 1) / 2) + 1).
  { pose proof (Z.mod_pos_bound (n_frames + 1) 2).
    pose proof (Z.div_mod (n_frames + 1) 2). lia. }
  assert (Hlen0 : 0 <= (n_frames + 1) / 2) by (apply Z.div_pos; lia).
  set (len := (n_frames + 1) / 2) in *.
  assert (Hcells : Z.to_nat (aNCep * aNContext) = (Z.to_nat aNContext * Z.to_nat aNCep)%nat).
  { apply Nat2Z.inj. rewrite Z2Nat.id by (apply Z.mul_nonneg_nonneg; lia).
    rewrite Nat2Z.inj_mul, !Z2Nat.id by lia. ring. }
  rewrite !seq_app, !map_app, !concat_app, <- app_assoc. cbn [Nat.add].
  f_equal; [|f_equal].
  - rewrite kept_slots_outside by (intros s Hs; apply in_seq in Hs; left; lia).
    now rewrite length_seq, Hcells.
  - unfold frames. rewrite (map_seq_shift _ (Z.to_nat aNContext)).
    f_equal. apply map_ext_in. intros e He. apply in_seq in He.
    rewrite kept_inside by lia. unfold frame_at. do 2 f_equal. nia.
  - rewrite kept_slots_outside by (intros s Hs; apply in_seq in Hs; right; lia).
    now rewrite length_seq, Hcells.
Qed.

(** A window over frames of equal length is a run of frames. *)
Lemma frame_at_slots (g : nat -> Z) total i m :
  (i + m <= total)%nat ->
  frame_at (m * Z.to_nat aNCep) (Z.to_nat aNCep) i
           (concat (map (fun q => kept (g q)) (seq 0 total)))
  = concat (map (fun q => kept (g q)) (seq i m)).
Proof.
  intros H. unfold frame_at.
  replace total with (i + (m + (total - i - m)))%nat by lia.
  rewrite seq_app, map_app, concat_app. cbn [Nat.add].
  rewrite skipn_app, skipn_all2
    by (rewrite length_kept_slots, length_seq; lia).
  rewrite length_kept_slots, length_seq.
  replace (Z.to_nat aNCep * i - i * Z.to_nat aNCep)%nat with O by lia.
  cbn [skipn app].
  rewrite seq_app, map_app, concat_app, firstn_app.
  rewrite length_kept_slots, length_seq, Nat.sub_diag. cbn [firstn].
  rewrite app_nil_r. apply firstn_all2.
  rewrite length_kept_slots, length_seq. lia.
Qed.

Lemma context_window_padded i :
  let len := Z.to_nat ((n_frames + 1) / 2) in
  let context := zeros (Z.to_nat (aNCep * aNContext)) in
  (i < len)%nat ->
  context_window aNCep aNContext n_frames mfcc i
  = frame_at (Z.to_nat (aNCep * (2 * aNContext + 1))) (Z.to_nat aNCep) i
      (context
         ++ concat (frames (Z.to_nat aNCep) (2 * Z.to_nat aNCep) len mfcc)
         ++ context).
Proof.
  cbv zeta. intros Hi. rewrite padded_slots.
  replace (Z.to_nat (aNCep * (2 * aNContext + 1)))
    with (Z.to_nat (2 * aNContext + 1) * Z.to_nat aNCep)%nat
    by (rewrite <- Z2Nat.inj_mul by lia; f_equal; ring).
  rewrite frame_at_slots by lia.
  unfold context_window. rewrite (map_seq_shift _ i).
  f_equal. apply map_ext. intros s. f_equal. lia.
Qed.

End InputVector.

(** The frames of the input, each with its context. *)
Lemma DS_AudioToInputVector_windows aBuffer aSampleRate aNCep aNContext n_frames mfcc :
  csf_mfcc_signal aBuffer aSampleRate aNCep = (n_frames, mfcc) ->
  0 <= aNCep -> 0 <= aNContext -> 0 <= n_frames ->
  size mfcc = n_frames * aNCep ->
  (n_frames + 1) * ((aNCep + 1) * (2 * aNContext + 1)) <= INT_MAX ->
  DS_AudioToInputVector aBuffer aSampleRate aNCep aNContext
  = Ret (concat (map (context_window aNCep aNContext n_frames mfcc)
                     (seq 0 (Z.to_nat ((n_frames + 1) / 2)))),
         (n_frames + 1) / 2, aNCep * (2 * aNContext + 1)).
Proof.
  intros Hcsf Hcep Hctx Hframes Hmfcc Hint.
  destruct (input_bounds aNCep aNContext n_frames Hcep Hctx Hframes Hint)
    as (Hfs & Hn1 & Hnc & Hsum & Hall).
  assert (Hprod : 0 <= aNCep * aNContext) by (apply Z.mul_nonneg_nonneg; lia).
  assert (Hfs0 : 0 <= aNCep * (2 * aNContext + 1)) by (apply Z.mul_nonneg_nonneg; lia).
  assert (Hhalf : 2 * ((n_frames + 1) / 2) <= n_frames + 1) by (apply Z.mul_div_le; lia).
  assert (Hlen0 : 0 <= (n_frames + 1) / 2) by (apply Z.div_pos; lia).
  unfold DS_AudioToInputVector. rewrite Hcsf.
  rewrite (s32_u32_small (aNCep * aNContext)) by lia.
  rewrite (u32_small (2 * aNCep * aNContext)) by (unfold INT_MAX in *; lia).
  replace (aNCep + 2 * aNCep * aNContext) with (aNCep * (2 * aNContext + 1)) by ring.
  rewrite (s32_u32_small (aNCep * (2 * aNContext + 1))) by lia.
  rewrite int_of_ok by (unfold INT_MIN; lia). cbn [bind].
  rewrite Z.quot_div_nonneg by lia.
  set (len := (n_frames + 1) / 2) in *.
  assert (Hcells : len * (aNCep * (2 * aNContext + 1))
                   <= (n_frames + 1) * (aNCep * (2 * aNContext + 1)))
    by (apply Z.mul_le_mono_nonneg_r; lia).
  assert (Hcells0 : 0 <= len * (aNCep * (2 * aNContext + 1)))
    by (apply Z.mul_nonneg_nonneg; lia).
  rewrite int_of_ok by (unfold INT_MIN; lia). cbn [bind].
  pose proof (input_frames_fill aNCep aNContext n_frames mfcc Hcep Hctx Hframes Hmfcc Hint
                (Z.to_nat len) 0 0 0 []
                (Z.to_nat (len * (aNCep * (2 * aNContext + 1))))) as H.
  cbn [app] in H. rewrite H; try lia.
  - cbn [bind]. change (Z.to_nat 0) with O. do 3 f_equal.
    replace (Z.to_nat (len * (aNCep * (2 * aNContext + 1)))
             - Z.to_nat len * Z.to_nat (aNCep * (2 * aNContext + 1)))%nat
      with O by (rewrite <- Z2Nat.inj_mul by lia; lia).
    cbn [repeat]. apply app_nil_r.
  - reflexivity.
Qed.

(** They are the windows over the kept frames and their padding. *)
Lemma context_windows_padded aNCep aNContext n_frames mfcc :
  0 <= aNCep -> 0 <= aNContext -> 0 <= n_frames ->
  size mfcc = n_frames * aNCep ->
  (n_frames + 1) * ((aNCep + 1) * (2 * aNContext + 1)) <= INT_MAX ->
  let len := Z.to_nat ((n_frames + 1) / 2) in
  let context := repeat f32_zero (Z.to_nat (aNCep * aNContext)) in
  map (context_window aNCep aNContext n_frames mfcc) (seq 0 len)
  = frames (Z.to_nat (aNCep * (2 * aNContext + 1))) (Z.to_nat aNCep) len
      (context
         ++ concat (frames (Z.to_nat aNCep) (2 * Z.to_nat aNCep) len mfcc)
         ++ context).
Proof.
  intros Hcep Hctx Hframes Hmfcc Hint. cbv zeta. unfold frames at 1.
  apply map_ext_in. intros i Hi. apply in_seq in Hi.
  apply (context_window_padded aNCep aNContext n_frames mfcc Hcep Hctx Hframes Hmfcc Hint).
  revert Hi. generalize (Z.to_nat ((n_frames + 1) / 2)). intros len Hi. lia.
Qed.

(** Input vector of a whole signal.  When the extractor returns n_frames
    frames of aNCep features and the sizes fit an int,
    DS_AudioToInputVector returns (n_frames + 1) / 2 frames of
    aNCep * (2 * aNContext + 1) values: it keeps every other frame of the
    signal (the frames 0, 2, 4, ...), puts aNContext frames of zeros before
    and after them, and its frame of index i is the window of
    2 * aNContext + 1 frames that starts at frame i of that sequence, that
    is the kept frame i with aNContext neighbours on each side.  Every
    read and write stays inside its array. *)
Theorem audio_to_input_vector aBuffer aSampleRate aNCep aNContext n_frames mfcc :
  csf_mfcc_signal aBuffer aSampleRate aNCep = (n_frames, mfcc) ->
  0 <= aNCep -> 0 <= aNContext -> 0 <= n_frames ->
  size mfcc = n_frames * aNCep ->
  (n_frames + 1) * ((aNCep + 1) * (2 * aNContext + 1)) <= INT_MAX ->
  let ds_input_length := (n_frames + 1) / 2 in
  let frameSize := aNCep * (2 * aNContext + 1) in
  let kept :=
    concat (frames (Z.to_nat aNCep) (2 * Z.to_nat aNCep) (Z.to_nat ds_input_length) mfcc) in
  let context := repeat f32_zero (Z.to_nat (aNCep * aNContext)) in
  DS_AudioToInputVector aBuffer aSampleRate aNCep aNContext
  = Ret (concat (frames (Z.to_nat frameSize) (Z.to_nat aNCep) (Z.to_nat ds_input_length)
                        (context ++ kept ++ context)),
         ds_input_length, frameSize).
Proof.
  intros Hcsf Hcep Hctx Hframes Hmfcc Hint. cbv zeta.
  rewrite (DS_AudioToInputVector_windows _ _ _ _ _ _ Hcsf) by assumption.
  now rewrite context_windows_padded.
Qed.

(** The two ways to the input of the engine.  Take a well-formed model, a
    stream fed from its set-up and finished, and the whole-signal extractor
    on the same samples with MFCC_FEATURES coefficients.  If the feature
    vectors the stream pushed before its context padding are the frames the
    whole-signal extractor gives at the even positions, then
    DS_AudioToInputVector with the context of the model returns exactly
    what the stream handed to the engine: its frames are the timesteps of
    the stream, in order, of the same length and number. *)
Theorem streaming_input_vector sess chunks ms1 text ms2 aSampleRate n_frames mfcc :
  wf_model ->
  feed_chunks (start sess) chunks = Ret ms1 ->
  finishStream ms1 = Ret (text, ms2) ->
  csf_mfcc_signal (concat chunks) aSampleRate MFCC_FEATURES = (n_frames, mfcc) ->
  0 <= n_frames ->
  size mfcc = n_frames * MFCC_FEATURES ->
  (n_frames + 1) * ((MFCC_FEATURES + 1) * (2 * n_context model + 1)) <= INT_MAX ->
  pushed_vectors (trace ms2)
    = frames (Z.to_nat MFCC_FEATURES) (2 * Z.to_nat MFCC_FEATURES)
             (Z.to_nat ((n_frames + 1) / 2)) mfcc
        ++ repeat zero_buffer (Z.to_nat (n_context model)) ->
  exists ds_input,
    DS_AudioToInputVector (concat chunks) aSampleRate MFCC_FEATURES (n_context model)
      = Ret (ds_input, Z.of_nat (length (timesteps (trace ms2))),
             mfcc_feats_per_timestep model) /\
    concat (timesteps (trace ms2)) = ds_input /\
    sent_frames (trace ms2) = ds_input.
Proof.
  intros Hwf Hfeed Hfin Hcsf Hframes Hmfcc Hint Hagree.
  apply (feed_chunks_framed Hwf) in Hfeed.
  destruct (finishStream_framed Hwf _ _ _ Hfeed Hfin) as (vectors & Hp & _ & Ht & Hs & _).
  rewrite Hp in Hagree. apply app_inv_tail in Hagree. subst vectors.
  rewrite length_frames in Ht.
  pose proof Hwf as (_ & _ & Hc & Hf & _).
  rewrite (DS_AudioToInputVector_windows _ _ _ _ _ _ Hcsf)
    by (assumption || (unfold MFCC_FEATURES; lia)).
  rewrite context_windows_padded by (assumption || (unfold MFCC_FEATURES; lia)).
  eexists. split_and.
  - rewrite Ht, length_frames, Z2Nat.id by (apply Z.div_pos; lia). now rewrite Hf.
  - rewrite Ht, Hf. reflexivity.
  - rewrite <- Hs, Ht, Hf. reflexivity.
Qed.

(** ** DS_CreateModel: what a loaded model was derived from *)

Lemma int64_of_Ret z z' : int64_of z = Ret z' -> z' = z.
Proof. unfold int64_of. destruct (_ && _); [now intros [= <-]|discriminate]. Qed.

Lemma int_of_Ret z z' : int_of z = Ret z' -> z' = z.
Proof. unfold int_of. destruct (_ && _); [now intros [= <-]|discriminate]. Qed.

Lemma read_nodes_spec nodes : forall m m',
  read_nodes nodes m = Ret (Some m') ->
  alphabet_size m' = alphabet_size m /\
  beam_width m' = beam_width m /\
  (((forall node, In node nodes -> node_name node <> "input_node"%string) /\
    n_steps m' = n_steps m /\
    n_context m' = n_context m /\
    mfcc_feats_per_timestep m' = mfcc_feats_per_timestep m) \/
   (exists node d1 d2 d3,
      In node nodes /\ input_shape node d1 d2 d3 /\ derived_from m' d1 d2 d3)) /\
  (forall node values,
     In node nodes ->
     node_name node = "logits_shape"%string ->
     attr_value node = Some (IntVector values) ->
     nth_error values 2 = Some (alphabet_size m + 1)).
Proof.
  induction nodes as [|node rest IH]; intros m m' H.
  - cbn [read_nodes] in H. apply Ret_inj in H. injection H as <-.
    split_and; try reflexivity.
    + left. split_and; try reflexivity. intros node [].
    + intros node values [].
  - cbn [read_nodes] in H.
    destruct (String.eqb_spec (node_name node) "input_node") as [Hname|Hname].
    + destruct (attr_shape node) as [dims|] eqn:Eshape; [|discriminate].
      destruct (nth_error dims 1) as [d1|] eqn:E1; [|discriminate].
      destruct (nth_error dims 2) as [d2|] eqn:E2; [|discriminate].
      destruct (nth_error dims 3) as [d3|] eqn:E3; [|discriminate].
      destruct (int64_of (d2 - 1)) as [c|] eqn:Ec; [|discriminate].
      destruct (int64_of (d2 * d3)) as [f|] eqn:Ef; [|discriminate].
      apply int64_of_Ret in Ec, Ef. subst c f. cbn [bind] in H.
      apply IH in H as (Ha & Hb & Hin & Hlog).
      cbn [alphabet_size beam_width n_steps n_context mfcc_feats_per_timestep] in *.
      split_and; try assumption.
      * right. destruct Hin as [(Hno & Hs & Hc & Hf)|(node' & e1 & e2 & e3 & Hin & Hsh & Hd)].
        -- exists node, d1, d2, d3. split_and.
           ++ now left.
           ++ split; [exact Hname|]. now exists dims.
           ++ now split_and.
        -- exists node', e1, e2, e3. split_and; try assumption. now right.
      * intros node' values [<-|Hin'] Hn Hv; [|now apply (Hlog node' values)].
        rewrite Hname in Hn. discriminate.
    + destruct (String.eqb_spec (node_name node) "logits_shape") as [Hlname|Hlname].
      * destruct (attr_value node) as [[|values|]|] eqn:Eval; try discriminate.
        -- apply IH in H as (Ha & Hb & Hin & Hlog). split_and; try assumption.
           ++ destruct Hin as [(Hno & Hrest)|(node' & e1 & e2 & e3 & Hin & Hrest)].
              ** left. split; [|exact Hrest].
                 intros node' [<-|Hin']; [exact Hname|now apply Hno].
              ** right. exists node', e1, e2, e3. split; [now right|exact Hrest].
           ++ intros node' values [<-|Hin'] Hn Hv; [congruence|now apply (Hlog node' values)].
        -- destruct (nth_error values 2) as [d|] eqn:Ed; [|discriminate].
           destruct (int_of (d - 1)) as [fd|] eqn:Efd; [|discriminate].
           apply int_of_Ret in Efd. subst fd. cbn [bind] in H.
           destruct (Z.eqb_spec (d - 1) (alphabet_size m)) as [Heq|]; [|discriminate].
           apply IH in H as (Ha & Hb & Hin & Hlog). split_and; try assumption.
           ++ destruct Hin as [(Hno & Hrest)|(node' & e1 & e2 & e3 & Hin & Hrest)].
              ** left. split; [|exact Hrest].
                 intros node' [<-|Hin']; [exact Hname|now apply Hno].
              ** right. exists node', e1, e2, e3. split; [now right|exact Hrest].
           ++ intros node' values' [<-|Hin'] Hn Hv; [|now apply (Hlog node' values')].
              rewrite Eval in Hv. injection Hv as <-. rewrite Ed. f_equal. lia.
      * apply IH in H as (Ha & Hb & Hin & Hlog). split_and; try assumption.
        -- destruct Hin as [(Hno & Hrest)|(node' & e1 & e2 & e3 & Hin & Hrest)].
           ++ left. split; [|exact Hrest].
              intros node' [<-|Hin']; [exact Hname|now apply Hno].
           ++ right. exists node', e1, e2, e3. split; [now right|exact Hrest].
        -- intros node' values [<-|Hin'] Hn Hv; [contradiction|now apply (Hlog node' values)].
Qed.

(** The steps of DS_CreateModel, when it gives a model. *)
Lemma DS_CreateModel_loaded aModelPath aNCep aNContext aAlphabetConfigPath aBeamWidth
    code m sess :
  DS_CreateModel aModelPath aNCep aNContext aAlphabetConfigPath aBeamWidth
    = Ret (code, Some (m, sess)) ->
  code = OK /\
  n_context m <> u32 (-1) /\
  exists path is_mmap,
    aModelPath = Some path /\ path <> EmptyString /\
    fst (ReadBinaryProto is_mmap path) = OK /\
    read_nodes (snd (ReadBinaryProto is_mmap path))
      (new_model (Alphabet_GetSize aAlphabetConfigPath) aBeamWidth) = Ret (Some m).
Proof.
  unfold DS_CreateModel. cbv zeta.
  destruct aModelPath as [path|]; [|discriminate].
  destruct (Nat.ltb_spec (String.length path) 1) as [|Hlen]; [discriminate|].
  set (is_mmap := match String.index 0 ".pbmm" path with Some _ => true | None => false end).
  destruct (negb _); [discriminate|].
  destruct (NewSession _) as [code1 sess0].
  destruct (negb _); [discriminate|].
  destruct (ReadBinaryProto is_mmap path) as [code2 graph_def] eqn:Eg.
  destruct (Z.eqb_spec code2 OK) as [Hc2|]; [|discriminate]. cbn [negb].
  destruct (Create sess0 graph_def) as [code3 sess1].
  destruct (negb _); [discriminate|].
  destruct (read_nodes graph_def _) as [[m'|]|] eqn:Er; try discriminate.
  cbn [bind].
  destruct (Z.eqb_spec (n_context m') (u32 (-1))) as [|Hctx]; [discriminate|].
  intros H. apply Ret_inj in H. injection H as <- <- <-.
  split; [reflexivity|]. split; [exact Hctx|].
  exists path, is_mmap. rewrite Eg. cbn [fst snd]. split_and; try assumption; try reflexivity.
  intros ->. cbn in Hlen. lia.
Qed.

(** Loading a model.  DS_CreateModel returns INVALID_ARGUMENT and no model
    for a null or empty path; whatever it returns, the code is OK exactly
    when there is a model.  A model it gives has the alphabet size and the
    beam width it was given, and its n_steps, n_context and
    mfcc_feats_per_timestep are those derived from the dimensions d1, d2,
    d3 of a node named input_node: d1, (d2 - 1) / 2 and d2 * d3; moreover
    every node named logits_shape whose value is a vector of int has the
    alphabet size plus one as third entry. *)
Theorem create_model_result aNCep aNContext aAlphabetConfigPath aBeamWidth :
  DS_CreateModel None aNCep aNContext aAlphabetConfigPath aBeamWidth
    = Ret (INVALID_ARGUMENT, None) /\
  DS_CreateModel (Some EmptyString) aNCep aNContext aAlphabetConfigPath aBeamWidth
    = Ret (INVALID_ARGUMENT, None) /\
  (forall aModelPath code r,
     DS_CreateModel aModelPath aNCep aNContext aAlphabetConfigPath aBeamWidth
       = Ret (code, r) ->
     (code = OK <-> r <> None)) /\
  (forall aModelPath code m sess,
     DS_CreateModel aModelPath aNCep aNContext aAlphabetConfigPath aBeamWidth
       = Ret (code, Some (m, sess)) ->
     alphabet_size m = Alphabet_GetSize aAlphabetConfigPath /\
     beam_width m = aBeamWidth /\
     exists path is_mmap,
       aModelPath = Some path /\
       (exists node d1 d2 d3,
          In node (snd (ReadBinaryProto is_mmap path)) /\
          input_shape node d1 d2 d3 /\ derived_from m d1 d2 d3) /\
       (forall node values,
          In node (snd (ReadBinaryProto is_mmap path)) ->
          node_name node = "logits_shape"%string ->
          attr_value node = Some (IntVector values) ->
          nth_error values 2 = Some (alphabet_size m + 1))).
Proof.
  split_and; try reflexivity.
  - intros aModelPath code r H. destruct r as [[m sess]|].
    + apply DS_CreateModel_loaded in H as (-> & _). split; [discriminate|reflexivity].
    + split; [|congruence]. intros ->. exfalso. revert H.
      unfold DS_CreateModel. cbv zeta.
      destruct aModelPath as [path|]; [|discriminate].
      destruct (_ <? _)%nat; [discriminate|].
      destruct (Z.eqb_spec (if match String.index 0 ".pbmm" path with
                               | Some _ => true | None => false end
                            then InitializeFromFile path else OK) OK) as [_|Hne];
        [|cbn [negb]; intros H; apply Ret_inj in H; injection H as H; congruence].
      cbn [negb]. destruct (NewSession _) as [code1 sess0].
      destruct (Z.eqb_spec code1 OK) as [_|Hne];
        [|cbn [negb]; intros H; apply Ret_inj in H; injection H as H; congruence].
      cbn [negb]. destruct (ReadBinaryProto _ path) as [code2 graph_def].
      destruct (Z.eqb_spec code2 OK) as [_|Hne];
        [|cbn [negb]; intros H; apply Ret_inj in H; injection H as H; congruence].
      cbn [negb]. destruct (Create sess0 graph_def) as [code3 sess1].
      destruct (Z.eqb_spec code3 OK) as [_|Hne];
        [|cbn [negb]; intros H; apply Ret_inj in H; injection H as H; congruence].
      cbn [negb]. destruct (read_nodes graph_def _) as [[m'|]|]; try discriminate.
      cbn [bind]. destruct (_ =? _); discriminate.
  - intros aModelPath code m sess H.
    apply DS_CreateModel_loaded in H as (_ & Hctx & path & is_mmap & -> & _ & _ & Hr).
    apply read_nodes_spec in Hr as (Ha & Hb & Hin & Hlog).
    cbn [new_model alphabet_size beam_width n_context] in *.
    split; [exact Ha|]. split; [exact Hb|].
    exists path, is_mmap. split; [reflexivity|]. split.
    + destruct Hin as [(_ & _ & Hc & _)|Hin]; [contradiction|exact Hin].
    + intros node values Hn Hname Hv. rewrite Ha. now apply (Hlog node values).
Qed.

(** One-shot transcription returns.  With a well-formed model whose
    batches the int counters of infer can count, an engine that gives the
    logits of every frame, a decoder that gives at least one candidate and
    an extractor that gives one frame for every window of at most
    AUDIO_WIN_LEN_SAMPLES samples, DS_SpeechToText ends without a fault on
    every buffer: it returns no text when the run of initialize_state
    fails, and a text otherwise. *)
Theorem speech_to_text_returns sess aBuffer :
  wf_model -> counters_ok -> engine_ok ->
  (forall inputs, ctc_beam_search_decoder inputs (beam_width model) <> []) ->
  (forall w, size w <= AUDIO_WIN_LEN_SAMPLES -> one_frame w) ->
  exists r,
    DS_SpeechToText sess aBuffer = Ret r /\
    (fst r = None <-> snd (initialize_state sess) = false).
Proof.
  intros Hwf Hcnt Hrun Hdec Hone.
  unfold DS_SpeechToText, DS_SetupStream, DS_FeedAudioContent.
  destruct (initialize_state sess) as [sess1 [|]]; cbn [fst snd].
  - fold (start sess1).
    pose proof (start_shape_ok sess1 Hwf) as Hok.
    assert (Hfull : full_windows_ok) by (intros w Hw; apply Hone; lia).
    destruct (feedAudioContent_returns Hwf (start sess1) aBuffer Hcnt Hrun Hfull Hok)
      as [ms1 E1].
    rewrite E1. cbn [bind].
    assert (Hok1 : shape_ok (shape (stream ms1))).
    { pose proof (feedAudioContent_refines Hwf _ aBuffer Hok ms1 E1) as [E _].
      rewrite E. now apply sh_feed_ok. }
    assert (Hlast : skip_next_mfcc (stream ms1) = false
                    -> one_frame (audio_buffer (stream ms1))).
    { intros _. apply Hone. apply shape_ok_room in Hok1. lia. }
    unfold DS_FinishStream.
    destruct (finishStream_returns Hwf ms1 Hcnt Hrun Hdec Hlast Hok1) as [[text ms2] E2].
    rewrite E2. cbn [bind fst snd]. eexists. split; [reflexivity|].
    cbn [fst]. split; discriminate.
  - eexists. split; [reflexivity|]. cbn [fst]. split; reflexivity.
Qed.

(** ** The session and the logits, from the inputs of the engine *)

Lemma replay_app acc t1 t2 : replay acc (t1 ++ t2) = replay (replay acc t1) t2.
Proof. apply fold_left_app. Qed.

Lemma replays_refl ms : replays ms ms.
Proof. exists []. now rewrite app_nil_r. Qed.

Lemma replays_trans ms1 ms2 ms3 : replays ms1 ms2 -> replays ms2 ms3 -> replays ms1 ms3.
Proof.
  intros (t1 & H1 & R1) (t2 & H2 & R2). exists (t1 ++ t2).
  split; [now rewrite H2, H1, app_assoc|]. now rewrite replay_app, <- R1.
Qed.

(** A step that leaves the session, the logits and the trace alone. *)
Lemma replays_same ms ms' :
  trace ms' = trace ms -> session ms' = session ms ->
  accumulated_logits (stream ms') = accumulated_logits (stream ms) ->
  replays ms ms'.
Proof.
  intros Ht Hs Hl. exists []. rewrite app_nil_r. split; [exact Ht|].
  cbn [replay fold_left]. now rewrite Hs, Hl.
Qed.

(** A step that only logs an event of the pipeline itself. *)
Lemma replays_log ms ms' e :
  (forall input n ok, e <> EvInfer input n ok) ->
  trace ms' = trace ms ++ [e] -> session ms' = session ms ->
  accumulated_logits (stream ms') = accumulated_logits (stream ms) ->
  replays ms ms'.
Proof.
  intros He Ht Hs Hl. exists [e]. split; [exact Ht|].
  cbn [replay fold_left]. rewrite Hs, Hl.
  destruct e; try reflexivity. now destruct (He input n_frames ok).
Qed.

Lemma infer_replays ms buf n ms' : infer ms buf n = Ret ms' -> replays ms ms'.
Proof.
  unfold infer. cbv zeta. intros H.
  destruct (_ && _); [|discriminate].
  match type of H with context [Run ?s ?i ?k] =>
    remember i as input eqn:Einput; destruct (Run s input k) as [sess [out|]] eqn:E end.
  - destruct (n * BATCH_SIZE * num_classes <=? size out); [|discriminate].
    destruct (_ <=? INT_MAX); [|discriminate]. cbn [andb] in H.
    apply Ret_inj in H. subst ms'.
    exists [EvInfer input n true]. split; [reflexivity|].
    cbn [replay fold_left replay_step fst snd session stream accumulated_logits
         set_accumulated_logits]. now rewrite E.
  - apply Ret_inj in H. subst ms'.
    exists [EvInfer input n false]. split; [reflexivity|].
    cbn [replay fold_left replay_step fst snd session stream]. now rewrite E.
Qed.

Lemma processMfccWindow_loop_replays fuel : forall ms buf ms',
  processMfccWindow_loop fuel ms buf = Ret ms' -> replays ms ms'.
Proof.
  induction fuel as [|fuel IH]; intros ms buf ms'; rewrite processMfccWindow_loop_eq;
    destruct buf as [|x buf]; try discriminate.
  - intros [= <-]. apply replays_refl.
  - intros [= <-]. apply replays_refl.
  - cbv zeta. destruct (_ <=? _); [|discriminate].
    destruct (_ =? _).
    + unfold processBatch. destruct (infer _ _ _) as [ms2|] eqn:E; [|discriminate].
      cbn [bind]. intros H. apply IH in H. apply infer_replays in E.
      eapply replays_trans; [|eapply replays_trans; [exact E|]].
      * now apply replays_same.
      * eapply replays_trans; [|exact H]. now apply replays_same.
    + intros H. apply IH in H. eapply replays_trans; [|exact H]. now apply replays_same.
Qed.

Lemma processMfccWindow_replays ms buf ms' :
  processMfccWindow ms buf = Ret ms' -> replays ms ms'.
Proof.
  unfold processMfccWindow. intros H. apply processMfccWindow_loop_replays in H.
  eapply replays_trans; [|exact H].
  apply (replays_log _ _ (EvMfccWindow buf)); try reflexivity. discriminate.
Qed.

Lemma pushMfccBuffer_loop_replays fuel : forall ms buf ms',
  pushMfccBuffer_loop fuel ms buf = Ret ms' -> replays ms ms'.
Proof.
  induction fuel as [|fuel IH]; intros ms buf ms'; rewrite pushMfccBuffer_loop_eq;
    destruct buf as [|x buf]; try discriminate.
  - intros [= <-]. apply replays_refl.
  - intros [= <-]. apply replays_refl.
  - cbv zeta. destruct (_ <=? _); [|discriminate].
    destruct (_ =? _).
    + destruct (processMfccWindow _ _) as [ms2|] eqn:E; [|discriminate].
      cbn [bind]. destruct (_ <=? _); [|discriminate].
      intros H. apply IH in H. apply processMfccWindow_replays in E.
      eapply replays_trans; [|eapply replays_trans; [exact E|]].
      * now apply replays_same.
      * eapply replays_trans; [|exact H]. now apply replays_same.
    + intros H. apply IH in H. eapply replays_trans; [|exact H]. now apply replays_same.
Qed.

Lemma pushMfccBuffer_replays ms buf ms' :
  pushMfccBuffer ms buf = Ret ms' -> replays ms ms'.
Proof.
  unfold pushMfccBuffer. intros H. apply pushMfccBuffer_loop_replays in H.
  eapply replays_trans; [|exact H].
  apply (replays_log _ _ (EvPushMfcc buf)); try reflexivity. discriminate.
Qed.

Lemma processAudioWindow_replays ms buf ms' :
  processAudioWindow ms buf = Ret ms' -> replays ms ms'.
Proof.
  unfold processAudioWindow. cbv zeta.
  destruct (negb (negb _)).
  - intros [= <-]. apply (replays_log _ _ (EvAudioWindow buf true)); try reflexivity.
    discriminate.
  - destruct (csf_mfcc buf) as [n mfcc].
    destruct (_ =? _); [|discriminate]. destruct (_ <=? _); [|discriminate].
    intros H. apply pushMfccBuffer_replays in H.
    eapply replays_trans; [|exact H].
    apply (replays_log _ _ (EvAudioWindow buf false)); try reflexivity. discriminate.
Qed.

Lemma process_full_window_replays ms ms' :
  process_full_window ms = Ret ms' -> replays ms ms'.
Proof.
  unfold process_full_window. destruct (_ =? _).
  - destruct (processAudioWindow _ _) as [ms1|] eqn:E; [|discriminate].
    cbn [bind]. intros [= <-]. apply processAudioWindow_replays in E.
    eapply replays_trans; [exact E|]. now apply replays_same.
  - intros [= <-]. apply replays_refl.
Qed.

Lemma feedAudioContent_loop_replays fuel : forall ms buffer ms',
  feedAudioContent_loop fuel ms buffer = Ret ms' -> replays ms ms'.
Proof.
  induction fuel as [|fuel IH]; intros ms buffer ms'; rewrite feedAudioContent_loop_eq;
    destruct buffer as [|x rest]; try discriminate.
  - intros [= <-]. apply replays_refl.
  - intros [= <-]. apply replays_refl.
  - pose proof (fill_audio_buffer_logits (x :: rest) (stream ms)) as Hfill.
    destruct (fill_audio_buffer (stream ms) (x :: rest)) as [st rest'].
    cbn [fst] in Hfill.
    destruct (process_full_window _) as [ms1|] eqn:E; [|discriminate].
    cbn [bind]. intros H. apply IH in H. apply process_full_window_replays in E.
    eapply replays_trans; [|eapply replays_trans; [exact E|exact H]].
    now apply replays_same.
Qed.

Lemma feed_chunks_replays chunks : forall ms ms',
  feed_chunks ms chunks = Ret ms' -> replays ms ms'.
Proof.
  induction chunks as [|c rest IH]; intros ms ms'; cbn [feed_chunks].
  - intros [= <-]. apply replays_refl.
  - destruct (feedAudioContent ms c) as [ms1|] eqn:E; [|discriminate].
    cbn [bind]. intros H. apply IH in H. unfold feedAudioContent in E.
    apply feedAudioContent_loop_replays in E. eapply replays_trans; eassumption.
Qed.

Lemma addZeroMfccWindows_replays n : forall ms ms',
  addZeroMfccWindows n ms = Ret ms' -> replays ms ms'.
Proof.
  induction n as [|n IH]; intros ms ms'; cbn [addZeroMfccWindows].
  - intros [= <-]. apply replays_refl.
  - unfold addZeroMfccWindow.
    destruct (pushMfccBuffer ms zero_buffer) as [ms1|] eqn:E; [|discriminate].
    cbn [bind]. intros H. apply IH in H. apply pushMfccBuffer_replays in E.
    eapply replays_trans; eassumption.
Qed.

Lemma finishStream_replays ms text ms' :
  finishStream ms = Ret (text, ms') ->
  replays ms ms' /\ decode (accumulated_logits (stream ms')) = Ret text.
Proof.
  intros H. unfold finishStream in H.
  destruct (processAudioWindow _ _) as [ms1|] eqn:E1; [|discriminate].
  cbn [bind] in H. unfold add_context_padding in H.
  destruct (addZeroMfccWindows _ _) as [ms2|] eqn:E2; [|discriminate].
  cbn [bind] in H. destruct (_ <=? _); [|discriminate].
  cbn [bind] in H.
  destruct (process_final_batch ms2) as [ms3|] eqn:E3; [|discriminate].
  cbn [bind] in H. destruct (decode _) as [text'|] eqn:E4; [|discriminate].
  cbn [bind] in H. apply Ret_inj in H. injection H as <- <-.
  split; [|exact E4].
  apply processAudioWindow_replays in E1. apply addZeroMfccWindows_replays in E2.
  assert (E3' : replays ms2 ms3).
  { unfold process_final_batch in E3. cbv zeta in E3.
    destruct (0 <? _).
    - destruct (_ =? _); [discriminate|]. now apply infer_replays in E3.
    - apply Ret_inj in E3. subst ms3. apply replays_refl. }
  exact (replays_trans _ _ _ E1 (replays_trans _ _ _ E2 E3')).
Qed.

(** Engine replay.  Whatever the configuration, for a stream fed from its
    set-up on the session sess: the session it holds and its logits are
    those obtained by running the engine on the inputs of its trace, in
    order, from sess and no logits, every run starting from the session
    the run before it left and appending the logits of its frames when it
    succeeds.  The same holds after finishStream, whose text is the
    decoding of these logits. *)
Theorem engine_replay sess chunks ms1 :
  feed_chunks (start sess) chunks = Ret ms1 ->
  (session ms1, accumulated_logits (stream ms1)) = replay (sess, []) (trace ms1) /\
  forall text ms2,
    finishStream ms1 = Ret (text, ms2) ->
    (session ms2, accumulated_logits (stream ms2)) = replay (sess, []) (trace ms2) /\
    decode (snd (replay (sess, []) (trace ms2))) = Ret text.
Proof.
  intros H. apply feed_chunks_replays in H as (t1 & Ht1 & R1).
  cbn [start trace session stream new_stream accumulated_logits app] in Ht1, R1.
  split; [now rewrite Ht1|].
  intros text ms2 Hfin. apply finishStream_replays in Hfin as ((t2 & Ht2 & R2) & Hd).
  assert (R : (session ms2, accumulated_logits (stream ms2))
              = replay (sess, []) (trace ms2))
    by (now rewrite Ht2, Ht1, replay_app, <- R1).
  split; [exact R|]. now rewrite <- R.
Qed.

(** ** Where the int counters of infer overflow *)

Lemma infer_batch_overflow ms buf n :
  wf_model ->
  INT_MAX < n_steps model * mfcc_feats_per_timestep model ->
  infer ms buf n = Fail UndefinedBehaviour.
Proof.
  intros (_ & Hs & Hc & Hf & Hcap) Hbig. unfold infer. cbv zeta.
  rewrite (u32_small (n_steps model * _)) by (unfold MFCC_FEATURES in *; nia).
  destruct (Z.leb_spec
              (Z.max (u32 (n * mfcc_feats_per_timestep model))
                     (n_steps model * mfcc_feats_per_timestep model)) INT_MAX); [lia|].
  now rewrite andb_false_r.
Qed.

Lemma infer_logits_overflow ms buf n sess out :
  wf_model ->
  0 <= n <= n_steps model ->
  n * mfcc_feats_per_timestep model <= size buf ->
  Run (session ms) (infer_input buf n) n = (sess, Some out) ->
  INT_MAX < n * num_classes ->
  infer ms buf n = Fail UndefinedBehaviour.
Proof.
  intros Hwf Hn Hbuf E Hbig. rewrite (infer_closed Hwf) by assumption. cbv zeta.
  destruct (_ <=? INT_MAX); [|reflexivity]. rewrite E.
  destruct (Z.leb_spec (n * num_classes) INT_MAX); [lia|].
  now rewrite andb_false_r.
Qed.

(** With one step per batch and no context the first window of a stream
    makes a batch. *)
Lemma first_window_overflow sess buffer :
  wf_model ->
  n_steps model = 1 -> n_context model = 0 ->
  full_windows_ok ->
  (forall s input n, snd (Run s input n) <> None) ->
  INT_MAX < num_classes ->
  size buffer = AUDIO_WIN_LEN_SAMPLES ->
  feedAudioContent (start sess) buffer = Fail UndefinedBehaviour.
Proof.
  intros Hwf Hs1 Hc0 Hone Hrun Hbig Hsize.
  pose proof Hwf as (_ & _ & _ & Hf & _).
  rewrite Hc0 in Hf. change (MFCC_FEATURES * (2 * 0 + 1)) with MFCC_FEATURES in Hf.
  rewrite feedAudioContent_samples by apply start_room.
  rewrite feed_samples_window
    by (cbn [stream start new_stream audio_buffer]; rewrite ?size_nil, Hsize;
        unfold AUDIO_WIN_LEN_SAMPLES; lia).
  set (full := set_stream (start sess) (push_samples (stream (start sess)) buffer)).
  destruct (push_samples_fields buffer (stream (start sess))) as (Ha1 & Hsk & Hm1 & Hbt1).
  assert (Hfull : size (audio_buffer (stream full)) = AUDIO_WIN_LEN_SAMPLES)
    by (unfold full; cbn [stream set_stream]; rewrite Ha1, Hsize; reflexivity).
  unfold process_full_window. rewrite Hfull, Z.eqb_refl.
  assert (E : processAudioWindow full (audio_buffer (stream full))
              = Fail UndefinedBehaviour); [|now rewrite E].
  unfold processAudioWindow. cbv zeta. unfold full at 1 2. cbn [stream set_stream].
  rewrite Hsk. cbn [start stream new_stream skip_next_mfcc negb].
  destruct (Hone _ Hfull) as [H1 H26].
  destruct (csf_mfcc (audio_buffer (stream full))) as [k mfcc]. cbn [fst snd] in *.
  subst k. cbn [Z.eqb Pos.eqb].
  destruct (Z.leb_spec (1 * MFCC_FEATURES) (size mfcc)); [|lia].
  set (vec := firstn (Z.to_nat (1 * MFCC_FEATURES)) mfcc).
  assert (Hvec : size vec = MFCC_FEATURES) by now apply size_feature.
  set (ms2 := log _ _).
  assert (Hm2 : mfcc_buffer (stream ms2) = []).
  { unfold ms2, full. cbn [stream set_stream log set_skip_next_mfcc mfcc_buffer].
    rewrite Hm1. cbn [start stream]. rewrite (new_stream_mfcc Hwf), Hc0. reflexivity. }
  assert (Hb2 : batch_buffer (stream ms2) = []).
  { unfold ms2, full. cbn [stream set_stream log set_skip_next_mfcc batch_buffer].
    rewrite Hbt1. reflexivity. }
  rewrite pushMfccBuffer_closed
    by (rewrite ?Hm2, ?Hvec, ?Hf, ?size_nil; unfold MFCC_FEATURES; lia).
  cbv zeta. rewrite Hm2. cbn [app]. rewrite Hvec, Hf, Z.eqb_refl.
  set (ms3 := set_stream _ _).
  assert (Hb3 : batch_buffer (stream ms3) = []) by exact Hb2.
  assert (E : processMfccWindow ms3 vec = Fail UndefinedBehaviour); [|now rewrite E].
  rewrite processMfccWindow_closed
    by (rewrite ?Hb3, ?Hvec, ?Hs1, ?Hf, ?size_nil; unfold MFCC_FEATURES; lia).
  cbv zeta. rewrite Hb3. cbn [app]. rewrite Hvec, Hs1, Hf. cbn [Z.mul Pos.mul Z.eqb Pos.eqb].
  change (MFCC_FEATURES =? MFCC_FEATURES) with true. cbv iota.
  set (ms4 := set_stream _ _).
  assert (E : processBatch ms4 vec 1 = Fail UndefinedBehaviour); [|now rewrite E].
  unfold processBatch.
  destruct (Run (session ms4) (infer_input vec 1) 1) as [s1 [out|]] eqn:E.
  - apply (infer_logits_overflow _ _ _ s1 out); try assumption; rewrite ?Hs1, ?Hf; lia.
  - exfalso. apply (Hrun (session ms4) (infer_input vec 1) 1). now rewrite E.
Qed.

(** Int counter overflow.  infer counts the values of the input tensor and
    the logits it appends with int counters that it compares with unsigned
    bounds.  With a well-formed model: a batch of more than INT_MAX values
    makes every inference call undefined, whatever the engine does; a
    successful run whose logits, n_frames * num_classes, are more than
    INT_MAX is undefined as well; so, with one step per batch, no context
    and an alphabet that does not fit an int, feeding the first window of a
    stream is undefined whenever the run of the engine succeeds. *)
Theorem int_counter_overflow :
  wf_model ->
  (INT_MAX < n_steps model * mfcc_feats_per_timestep model ->
   forall ms buf n, infer ms buf n = Fail UndefinedBehaviour) /\
  (forall ms buf n sess out,
     0 <= n <= n_steps model ->
     n * mfcc_feats_per_timestep model <= size buf ->
     Run (session ms) (infer_input buf n) n = (sess, Some out) ->
     INT_MAX < n * num_classes ->
     infer ms buf n = Fail UndefinedBehaviour) /\
  (forall sess buffer,
     n_steps model = 1 -> n_context model = 0 ->
     full_windows_ok ->
     (forall s input n, snd (Run s input n) <> None) ->
     INT_MAX < num_classes ->
     size buffer = AUDIO_WIN_LEN_SAMPLES ->
     feedAudioContent (start sess) buffer = Fail UndefinedBehaviour).
Proof.
  intros Hwf. split_and.
  - intros Hbig ms buf n. now apply infer_batch_overflow.
  - intros ms buf n sess out Hn Hbuf E Hbig. now apply (infer_logits_overflow _ _ _ sess out).
  - intros sess buffer. now apply first_window_overflow.
Qed.

End Pipeline.

Arguments stream {Session} m.
Arguments session {Session} m.
Arguments trace {Session} m.
Arguments start {Session} model sess.
Arguments engine_ok {Session} Run model.
Arguments feedAudioContent {Session} Run csf_mfcc model ms buffer.
Arguments feed_chunks {Session} Run csf_mfcc model ms chunks.
Arguments finishStream {Session} Run csf_mfcc ctc_beam_search_decoder LabelsToString model ms.
Arguments pushMfccBuffer {Session} Run model ms buf.
Arguments processMfccWindow {Session} Run model ms buf.
Arguments processBatch {Session} Run model ms buf n_steps.
Arguments process_full_window {Session} Run csf_mfcc model ms.
Arguments processAudioWindow {Session} Run csf_mfcc model ms buf.
Arguments addZeroMfccWindows {Session} Run model n ms.
Arguments process_final_batch {Session} Run model ms.
Arguments DS_SetupStream {Session} initialize_state model sess.
Arguments stream_summary {Session} Run csf_mfcc ctc_beam_search_decoder LabelsToString model sess buffer.
Arguments feed_summary {Session} Run csf_mfcc model sess buffer.
Arguments set_stream {Session} ms st.
Arguments log {Session} ms e.

(** ** C4: two timesteps per batch, one frame of context *)

Lemma eqb_list_eq l1 : forall l2, eqb_list l1 l2 = true -> l1 = l2.
Proof.
  induction l1 as [|x l1 IH]; intros [|y l2]; cbn [eqb_list]; try discriminate.
  - reflexivity.
  - intros H. apply andb_prop in H as [Hx Hl].
    apply Z.eqb_eq in Hx. apply IH in Hl. now subst.
Qed.

Lemma summary_eqb_eq a b : summary_eqb a b = true -> a = b.
Proof.
  destruct a as [[a1 a2] a3], b as [[b1 b2] b3]. unfold summary_eqb. cbn [fst snd].
  intros H. apply andb_prop in H as [H H3]. apply andb_prop in H as [H1 H2].
  apply eqb_list_eq in H1, H2. apply Nat.eqb_eq in H3. now subst.
Qed.

(** The stream on sizes, for every number of samples that gives five
    timesteps. *)
Lemma shape_summary_boundary model n :
  n_steps model = 2 ->
  mfcc_feats_per_timestep model = 78 ->
  n_context model = 1 ->
  (1520 <= n < 1840)%nat ->
  shape_summary model n
  = ((if (1680 <=? n)%nat then [2; 2] else [2]), [2; 2; 1], 5%nat).
Proof.
  destruct model as [a bw ns f nc]. cbn [n_steps mfcc_feats_per_timestep n_context].
  intros -> -> -> Hn.
  set (m := {| alphabet_size := a; beam_width := bw; n_steps := 2;
               mfcc_feats_per_timestep := 78; n_context := 1 |}).
  assert (Hall : forallb
            (fun k => summary_eqb (shape_summary m k)
                        ((if (1680 <=? k)%nat then [2; 2] else [2]), [2; 2; 1], 5%nat))
            (seq 1520 320) = true)
    by (vm_compute; reflexivity).
  rewrite forallb_forall in Hall. apply summary_eqb_eq, Hall, in_seq. lia.
Qed.

(** C4, as the code has it.  Batch boundary scenario: with n_steps = 2,
    mfcc_feats_per_timestep = 78 and n_context = 1, a stream that is fed 1520
    to 1839 samples and finished produces five timesteps.  It makes two
    full-batch inference calls of 2 timesteps and, last, during finishStream,
    one partial-batch call of 1 timestep.  From 1680 samples on, both
    full-batch calls are made while feeding; below, with 1520 to 1679 samples,
    only the first is, and the second is made by finishStream, when it
    flushes the raw window.  The logits of a batch, 2 * num_classes values,
    are counted by an int in infer. *)
Theorem batch_boundary_scenario (Session : Type)
    (Run : Session -> list float32 -> Z -> Session * option (list float32))
    (csf_mfcc : list float32 -> Z * list float32)
    (ctc_beam_search_decoder : list (list float32) -> Z -> list (float32 * list Z))
    (LabelsToString : list Z -> string)
    (model : ModelState) (sess : Session) (buffer : list Z) :
  n_steps model = 2 ->
  mfcc_feats_per_timestep model = 78 ->
  n_context model = 1 ->
  0 <= alphabet_size model ->
  2 * num_classes model <= INT_MAX ->
  engine_ok Run model ->
  full_windows_ok csf_mfcc ->
  (forall w, size w < AUDIO_WIN_LEN_SAMPLES -> one_frame csf_mfcc w) ->
  (forall inputs, ctc_beam_search_decoder inputs (beam_width model) <> []) ->
  1520 <= size buffer < 1840 ->
  exists text,
    stream_summary Run csf_mfcc ctc_beam_search_decoder LabelsToString model sess buffer
    = Ret ((if 1680 <=? size buffer then [2; 2] else [2]), [2; 2; 1], 5%nat, text).
Proof.
  intros Hs Hf Hc Ha Hcl Hrun Hfull Hpart Hdec Hn.
  assert (Hwf : wf_model model).
  { unfold wf_model, MFCC_FEATURES. rewrite Hs, Hf, Hc. lia. }
  assert (Hcnt : counters_ok model).
  { unfold counters_ok. rewrite Hs, Hf. unfold INT_MAX in *. lia. }
  destruct (stream_summary_shape Session Run csf_mfcc ctc_beam_search_decoder
              LabelsToString model sess buffer Hwf Hcnt Hrun Hfull Hpart Hdec)
    as [text E].
  exists text. rewrite E. unfold size in Hn.
  rewrite shape_summary_boundary by (assumption || lia).
  unfold size.
  destruct (Nat.leb_spec 1680 (length buffer)), (Z.leb_spec 1680 (Z.of_nat (length buffer)));
    reflexivity || lia.
Qed.



(** ** Models loaded from a graph are well formed *)

(** Loaded models are well formed.  When DS_CreateModel gives a model, the
    alphabet is not of negative size and every node named input_node of the
    graph has a shape [_, d1, 2k+1, MFCC_FEATURES] with d1 > 0, k >= 0 and
    d1 * (2k+1) * MFCC_FEATURES below 2^32, the model satisfies wf_model:
    its n_steps is positive, its mfcc_feats_per_timestep is
    MFCC_FEATURES * (2 * n_context + 1) and its batch fits an unsigned
    int, which is what the streaming pipeline is proved under. *)
Theorem created_model_wf (Session : Type)
    (InitializeFromFile : string -> Z)
    (NewSession : option string -> Z * Session)
    (ReadBinaryProto : bool -> string -> Z * list NodeDef)
    (Create : Session -> list NodeDef -> Z * Session)
    (Alphabet_GetSize : string -> Z)
    aModelPath aNCep aNContext aAlphabetConfigPath aBeamWidth code m sess :
  DS_CreateModel Session InitializeFromFile NewSession ReadBinaryProto Create
    Alphabet_GetSize
    aModelPath aNCep aNContext aAlphabetConfigPath aBeamWidth
    = Ret (code, Some (m, sess)) ->
  0 <= Alphabet_GetSize aAlphabetConfigPath ->
  (forall path is_mmap node d1 d2 d3,
     aModelPath = Some path ->
     In node (snd (ReadBinaryProto is_mmap path)) ->
     input_shape node d1 d2 d3 ->
     0 < d1 /\ (exists k, 0 <= k /\ d2 = 2 * k + 1) /\ d3 = MFCC_FEATURES /\
     d1 * (d2 * d3) < 2 ^ 32) ->
  wf_model m.
Proof.
  intros H Halpha Hnodes.
  apply DS_CreateModel_loaded in H as (_ & Hctx & path & is_mmap & Hpath & _ & _ & Hr).
  apply read_nodes_spec in Hr as (Ha & _ & Hin & _).
  cbn [new_model alphabet_size n_context] in *.
  destruct Hin as [(_ & _ & Hc & _)|(node & d1 & d2 & d3 & Hin & Hsh & Hs & Hc & Hf)];
    [contradiction|].
  destruct (Hnodes path is_mmap node d1 d2 d3 Hpath Hin Hsh)
    as (Hd1 & (k & Hk & ->) & -> & Hcap).
  unfold MFCC_FEATURES in *.
  assert (Hquot : Z.quot (2 * k + 1 - 1) 2 = k).
  { replace (2 * k + 1 - 1) with (k * 2) by lia. apply Z.quot_mul. lia. }
  rewrite Hquot in Hc.
  rewrite u32_small in Hs, Hc, Hf by nia.
  unfold wf_model, MFCC_FEATURES. rewrite Ha, Hs, Hc, Hf.
  repeat match goal with |- _ /\ _ => split end; lia.
Qed.

(** ** The statements on the example collaborators *)

Lemma example_wf : wf_model example_model.
Proof. unfold wf_model, example_model, MFCC_FEATURES. cbn. lia. Qed.

Lemma example_counters_ok : counters_ok example_model.
Proof. unfold counters_ok, num_classes, example_model, INT_MAX. cbn. lia. Qed.

Lemma example_engine_ok : engine_ok example_Run example_model.
Proof.
  intros sess input n sess1 out Hn E. unfold example_Run in E.
  injection E as _ <-. change (n * 3 <= 6). cbn in Hn. lia.
Qed.


Lemma example_one_frame w : one_frame example_mfcc w.
Proof. split; [reflexivity|]. cbn. unfold MFCC_FEATURES. lia. Qed.

Lemma example_decoder_ok inputs : best_path 2 inputs (beam_width example_model) <> [].
Proof. discriminate. Qed.

Lemma example_decoder_contract :
  decoder_contract (best_path 2) example_labels example_model.
Proof.
  split; [exact example_decoder_ok|]. split; [|reflexivity].
  eexists _, _. reflexivity.
Qed.


(** Three chunks, the second one empty, the third one across the end of
    the first window. *)
Lemma chunking_invariance_witness :
  let ms := start example_model O in
  let chunks := [repeat 3 300%nat; []; repeat (-2) 250%nat] in
  feed_chunks example_Run example_mfcc example_model ms chunks
    = feedAudioContent example_Run example_mfcc example_model ms (concat chunks) /\
  (r <- feed_chunks example_Run example_mfcc example_model ms chunks ;;
   finishStream example_Run example_mfcc (best_path 2) example_labels example_model r)
  = (r <- feedAudioContent example_Run example_mfcc example_model ms (concat chunks) ;;
     finishStream example_Run example_mfcc (best_path 2) example_labels example_model r).
Proof.
  intros ms chunks.
  apply (chunking_invariance nat example_Run example_mfcc (best_path 2) example_labels
           example_model ms chunks).
  reflexivity.
Defined.

Lemma window_arithmetic_witness :
  exists ms1 ms2 w1 w2,
    feedAudioContent example_Run example_mfcc example_model (start example_model O)
      (firstn (Z.to_nat AUDIO_WIN_LEN_SAMPLES) (repeat 9 560%nat)) = Ret ms1 /\
    front_events (trace ms1)
      = [EvAudioWindow w1 false; EvPushMfcc (feature_of example_mfcc w1)] /\
    size (audio_buffer (stream ms1)) = AUDIO_WIN_LEN_SAMPLES - AUDIO_WIN_STEP_SAMPLES /\
    feedAudioContent example_Run example_mfcc example_model (start example_model O)
      (repeat 9 560%nat) = Ret ms2 /\
    front_events (trace ms2)
      = [EvAudioWindow w1 false; EvPushMfcc (feature_of example_mfcc w1);
         EvAudioWindow w2 true] /\
    size (audio_buffer (stream ms2)) = AUDIO_WIN_LEN_SAMPLES - AUDIO_WIN_STEP_SAMPLES /\
    size w1 = AUDIO_WIN_LEN_SAMPLES /\ size w2 = AUDIO_WIN_LEN_SAMPLES.
Proof.
  apply (window_arithmetic nat example_Run example_mfcc example_model O
           (repeat 9 560%nat) example_wf example_engine_ok).
  - intros w _. apply example_one_frame.
  - unfold num_classes, example_model, INT_MAX. cbn. lia.
  - reflexivity.
Defined.


Lemma batch_boundary_scenario_witness :
  exists text,
    stream_summary example_Run example_mfcc (best_path 2) example_labels example_model
      O (repeat 100 1700%nat)
    = Ret ([2; 2], [2; 2; 1], 5%nat, text).
Proof.
  apply (batch_boundary_scenario nat example_Run example_mfcc (best_path 2)
           example_labels example_model O (repeat 100 1700%nat)).
  - reflexivity.
  - reflexivity.
  - reflexivity.
  - cbn. lia.
  - unfold num_classes, example_model, INT_MAX. cbn. lia.
  - exact example_engine_ok.
  - intros w _. apply example_one_frame.
  - intros w _. apply example_one_frame.
  - exact example_decoder_ok.
  - unfold size. rewrite repeat_length. lia.
Defined.


(** A stream of 1680 samples whose first inference call fails: the three
    calls are made, the failed one appends nothing, the two others three
    logits per frame. *)
Lemma flaky_stream_example :
  (ms1 <- feedAudioContent flaky_Run example_mfcc example_model (start example_model O)
            (repeat 7 1680%nat) ;;
   r <- finishStream flaky_Run example_mfcc (best_path 2) example_labels example_model ms1 ;;
   Ret (flat_map (fun e => match e with EvInfer _ n ok => [(n, ok)] | _ => [] end)
                 (trace (snd r)),
        size (accumulated_logits (stream ms1)),
        size (accumulated_logits (stream (snd r)))))
  = Ret ([(2, false); (2, true); (1, true)], 6, 9).
Proof. vm_compute. reflexivity. Qed.

Lemma empty_input_decode_witness :
  decode (best_path 2) example_labels example_model [] = Ret EmptyString /\
  exists text ms',
    finishStream example_Run example_mfcc (best_path 2) example_labels example_model
      (start example_model O) = Ret (text, ms') /\
    length (timesteps (trace ms')) = 1%nat /\
    infer_frames (trace ms') = [1] /\
    decode (best_path 2) example_labels example_model
      (accumulated_logits (stream ms')) = Ret text /\
    (accumulated_logits (stream ms') = [] -> text = EmptyString).
Proof.
  destruct (empty_input_decode nat example_Run example_mfcc (best_path 2) example_labels
              example_model example_wf example_counters_ok example_engine_ok
              example_decoder_contract) as [Hempty Hfinish].
  split; [exact Hempty|].
  exact (Hfinish O (example_one_frame [])).
Defined.


(** The third vector of a stream fills the window of three. *)
Lemma feature_window_sliding_witness :
  let ms :=
    {| stream := set_mfcc_buffer (new_stream example_model)
                   (repeat f32_zero 26 ++ repeat (f32_of_Z 1) 26);
       session := O; trace := [] |} in
  let vec := repeat (f32_of_Z 2) 26 in
  let window := mfcc_buffer (stream ms) ++ vec in
  let kept := skipn (Z.to_nat MFCC_FEATURES) window in
  let ms1 :=
    set_stream (log ms (EvPushMfcc vec)) (set_mfcc_buffer (stream ms) window) in
  pushMfccBuffer example_Run example_model ms vec =
    (if size window =? mfcc_feats_per_timestep example_model then
       ms2 <- processMfccWindow example_Run example_model ms1 window ;;
       Ret (set_stream ms2 (set_mfcc_buffer (stream ms2) kept))
     else Ret ms1) /\
  (size window = mfcc_feats_per_timestep example_model ->
   size kept = mfcc_feats_per_timestep example_model - MFCC_FEATURES /\
   window = firstn (Z.to_nat MFCC_FEATURES) window ++ kept /\
   (MFCC_FEATURES <= size (mfcc_buffer (stream ms)) ->
    kept = skipn (Z.to_nat MFCC_FEATURES) (mfcc_buffer (stream ms)) ++ vec)).
Proof.
  intros ms vec.
  apply (feature_window_sliding nat example_Run example_model ms vec).
  - cbn. unfold MFCC_FEATURES. lia.
  - reflexivity.
  - cbn. lia.
Defined.

Lemma preemphasis_filter_witness :
  let ms := start example_model O in
  let st := stream ms in
  let y := f32_sub (f32_of_Z 5) (f32_mul PREEMPHASIS_COEFF (last_sample st)) in
  let st1 :=
    {| accumulated_logits := accumulated_logits st;
       audio_buffer := audio_buffer st ++ [y];
       last_sample := f32_of_Z 5;
       mfcc_buffer := mfcc_buffer st;
       batch_buffer := batch_buffer st;
       skip_next_mfcc := skip_next_mfcc st |} in
  feedAudioContent example_Run example_mfcc example_model ms [5; 3] =
    (ms1 <- process_full_window example_Run example_mfcc example_model (set_stream ms st1) ;;
     feedAudioContent example_Run example_mfcc example_model ms1 [3]) /\
  (size (audio_buffer st) + 1 < AUDIO_WIN_LEN_SAMPLES ->
   feedAudioContent example_Run example_mfcc example_model ms [5] = Ret (set_stream ms st1)) /\
  (forall ms1,
     process_full_window example_Run example_mfcc example_model (set_stream ms st1) = Ret ms1 ->
     last_sample (stream ms1) = f32_of_Z 5 /\
     exists older, audio_buffer (stream ms1) = older ++ [y]).
Proof.
  intros ms.
  apply (preemphasis_filter nat example_Run example_mfcc example_model ms 5 [3]).
  reflexivity.
Defined.

(** Nine hundred samples in two chunks: four windows. *)
Lemma initial_decimation_phase_witness :
  exists ms',
    feed_chunks example_Run example_mfcc example_model (start example_model O)
      [repeat 1 500%nat; repeat 2 400%nat] = Ret ms' /\
    window_outcomes (trace ms') = [false; true; false; true] /\
    exists ws,
      front_events (trace ms') = decimated example_mfcc false ws /\
      skip_next_mfcc (stream ms') = Nat.odd (length ws) /\
      forall k skipped,
        nth_error (window_outcomes (trace ms')) k = Some skipped ->
        skipped = Nat.odd k.
Proof.
  destruct (feed_chunks example_Run example_mfcc example_model (start example_model O)
              [repeat 1 500%nat; repeat 2 400%nat]) as [ms'|f] eqn:E.
  - exists ms'. split; [reflexivity|]. split.
    + vm_compute in E. apply Ret_inj in E. subst ms'. reflexivity.
    + exact (initial_decimation_phase nat example_Run example_mfcc example_model O
               [repeat 1 500%nat; repeat 2 400%nat] ms' E).
  - vm_compute in E. discriminate E.
Defined.

(** ** Where the code differs from the specification *)

(** C2 in the words of the specification has the second of the first two
    windows yield the feature vector.  On 560 samples the code extracts the
    first window and skips the second: the skipped flags are false then true,
    and one vector of 26 features was pushed. *)
Lemma window_arithmetic_counterexample :
  feed_summary example_Run example_mfcc example_model O (repeat 0 560%nat)
  = Ret ([false; true], [26%nat]) /\
  feed_summary example_Run example_mfcc example_model O (repeat 0 400%nat)
  = Ret ([false], [26%nat]).
Proof. split; vm_compute; reflexivity. Qed.

(** C4 in the words of the specification has both full-batch calls made
    while feeding, and one partial call of one timestep made by finish,
    whenever enough samples for five timesteps are fed.  On 1520 samples the
    stream gives five timesteps and the calls 2, 2, 1, but only one call is
    made while feeding.  On 2000 samples, when feeding alone gives five
    timesteps, finish makes a full-batch call and no partial one: six
    timesteps, calls 2, 2, 2. *)
Lemma batch_boundary_scenario_counterexample :
  stream_summary example_Run example_mfcc (best_path 2) example_labels example_model
    O (repeat 0 1520%nat)
  = Ret ([2], [2; 2; 1], 5%nat, "a"%string) /\
  stream_summary example_Run example_mfcc (best_path 2) example_labels example_model
    O (repeat 0 2000%nat)
  = Ret ([2; 2], [2; 2; 2], 6%nat, "a"%string).
Proof. split; vm_compute; reflexivity. Qed.

(** C6 in the words of the specification has a stream that was fed nothing
    return the empty transcript.  With a decoder that meets its contract, the
    stream finished right after its setup runs one inference call and returns
    what the decoder reads in its logits: here the label a. *)
Lemma empty_input_decode_counterexample :
  decoder_contract (best_path 2) example_labels example_model /\
  DS_SetupStream example_initialize_state example_model 7%nat
    = Some (start example_model O) /\
  stream_summary example_Run example_mfcc (best_path 2) example_labels example_model
    O []
  = Ret ([], [1], 1%nat, "a"%string).
Proof.
  split; [exact example_decoder_contract|]. split; vm_compute; reflexivity.
Qed.

(** ** More statements on the example collaborators *)

(** Two chunks, 900 samples: four windows. *)
Lemma audio_window_framing_witness :
  exists ms',
    feed_chunks example_Run example_mfcc example_model (start example_model O)
      [repeat 1 500%nat; repeat 2 400%nat] = Ret ms' /\
    let len := Z.to_nat AUDIO_WIN_LEN_SAMPLES in
    let step := Z.to_nat AUDIO_WIN_STEP_SAMPLES in
    let buffer := concat [repeat 1 500%nat; repeat 2 400%nat] in
    let signal := preemphasis (f32_of_Z 0) buffer in
    let n := length (audio_windows (trace ms')) in
    audio_windows (trace ms') = frames len step n signal /\
    audio_buffer (stream ms') = skipn (step * n) signal /\
    n = (if length buffer <? len then 0 else (length buffer - (len - step)) / step)%nat /\
    last_sample (stream ms') = last (map f32_of_Z buffer) (f32_of_Z 0).
Proof.
  destruct (feed_chunks example_Run example_mfcc example_model (start example_model O)
              [repeat 1 500%nat; repeat 2 400%nat]) as [ms'|f] eqn:E.
  - exists ms'. split; [reflexivity|].
    exact (audio_window_framing nat example_Run example_mfcc example_model O
             [repeat 1 500%nat; repeat 2 400%nat] ms' E).
  - vm_compute in E. discriminate E.
Defined.

Lemma feature_stride_witness :
  exists ms',
    feed_chunks example_Run example_mfcc example_model (start example_model O)
      [repeat 1 500%nat; repeat 2 400%nat] = Ret ms' /\
    let len := Z.to_nat AUDIO_WIN_LEN_SAMPLES in
    let step := Z.to_nat AUDIO_WIN_STEP_SAMPLES in
    let signal :=
      preemphasis (f32_of_Z 0) (concat [repeat 1 500%nat; repeat 2 400%nat]) in
    length (pushed_vectors (trace ms'))
      = ((length (audio_windows (trace ms')) + 1) / 2)%nat /\
    forall k v,
      nth_error (pushed_vectors (trace ms')) k = Some v ->
      v = feature_of example_mfcc (frame_at len (2 * step) k signal).
Proof.
  destruct (feed_chunks example_Run example_mfcc example_model (start example_model O)
              [repeat 1 500%nat; repeat 2 400%nat]) as [ms'|f] eqn:E.
  - exists ms'. split; [reflexivity|].
    exact (feature_stride nat example_Run example_mfcc example_model O
             [repeat 1 500%nat; repeat 2 400%nat] ms' E).
  - vm_compute in E. discriminate E.
Defined.

Lemma partial_window_buffered_witness :
  let ms := start example_model O in
  size (audio_buffer (stream ms)) + size [5; 3] < AUDIO_WIN_LEN_SAMPLES /\
  exists st',
    feedAudioContent example_Run example_mfcc example_model ms [5; 3]
      = Ret {| stream := st'; session := session ms; trace := trace ms |} /\
    audio_buffer st'
      = audio_buffer (stream ms) ++ preemphasis (last_sample (stream ms)) [5; 3] /\
    last_sample st' = last (map f32_of_Z [5; 3]) (last_sample (stream ms)) /\
    accumulated_logits st' = accumulated_logits (stream ms) /\
    mfcc_buffer st' = mfcc_buffer (stream ms) /\
    batch_buffer st' = batch_buffer (stream ms) /\
    skip_next_mfcc st' = skip_next_mfcc (stream ms).
Proof.
  intros ms. split; [reflexivity|].
  apply (partial_window_buffered nat example_Run example_mfcc example_model ms [5; 3]).
  reflexivity.
Defined.

(** 1200 samples in two chunks, then the end of the stream. *)
Lemma timestep_framing_witness :
  wf_model example_model /\
  exists ms1,
    feed_chunks example_Run example_mfcc example_model (start example_model O)
      [repeat 1 700%nat; repeat 2 500%nat] = Ret ms1 /\
    let len := Z.to_nat (mfcc_feats_per_timestep example_model) in
    let step := Z.to_nat MFCC_FEATURES in
    let context := Z.to_nat (n_context example_model) in
    (let vectors := pushed_vectors (trace ms1) in
     let fed := initial_context example_model ++ concat vectors in
     Forall (fun v => size v = MFCC_FEATURES) vectors /\
     timesteps (trace ms1) = frames len step (length vectors - context) fed /\
     mfcc_buffer (stream ms1) = skipn (step * (length vectors - context)) fed) /\
    (forall text ms2,
       finishStream example_Run example_mfcc (best_path 2) example_labels example_model ms1
         = Ret (text, ms2) ->
       exists vectors,
         pushed_vectors (trace ms2) = vectors ++ repeat zero_buffer context /\
         Forall (fun v => size v = MFCC_FEATURES) vectors /\
         timesteps (trace ms2)
           = frames len step (length vectors)
               (initial_context example_model ++ concat vectors
                  ++ initial_context example_model)).
Proof.
  split; [exact example_wf|].
  destruct (feed_chunks example_Run example_mfcc example_model (start example_model O)
              [repeat 1 700%nat; repeat 2 500%nat]) as [ms1|f] eqn:E.
  - exists ms1. split; [reflexivity|].
    exact (timestep_framing nat example_Run example_mfcc (best_path 2) example_labels
             example_model O [repeat 1 700%nat; repeat 2 500%nat] ms1 example_wf E).
  - vm_compute in E. discriminate E.
Defined.

Lemma engine_input_framing_witness :
  wf_model example_model /\
  exists ms1,
    feed_chunks example_Run example_mfcc example_model (start example_model O)
      [repeat 1 700%nat; repeat 2 500%nat] = Ret ms1 /\
    (concat (timesteps (trace ms1))
       = sent_frames example_model (trace ms1) ++ batch_buffer (stream ms1) /\
     Forall (padded_input example_model) (trace ms1)) /\
    (forall text ms2,
       finishStream example_Run example_mfcc (best_path 2) example_labels example_model ms1
         = Ret (text, ms2) ->
       concat (timesteps (trace ms2)) = sent_frames example_model (trace ms2) /\
       Forall (padded_input example_model) (trace ms2)).
Proof.
  split; [exact example_wf|].
  destruct (feed_chunks example_Run example_mfcc example_model (start example_model O)
              [repeat 1 700%nat; repeat 2 500%nat]) as [ms1|f] eqn:E.
  - exists ms1. split; [reflexivity|].
    exact (engine_input_framing nat example_Run example_mfcc (best_path 2) example_labels
             example_model O [repeat 1 700%nat; repeat 2 500%nat] ms1 example_wf E).
  - vm_compute in E. discriminate E.
Defined.

Lemma loops_terminate_witness :
  u32 (n_steps example_model * mfcc_feats_per_timestep example_model) <> 0 /\
  0 <= mfcc_feats_per_timestep example_model < 2 ^ 32 /\
  (forall ms buf,
     size buf < 2 ^ 32 ->
     processMfccWindow example_Run example_model ms buf <> Fail OutOfFuel) /\
  (forall ms buf, pushMfccBuffer example_Run example_model ms buf <> Fail OutOfFuel) /\
  (forall ms buffer,
     size (audio_buffer (stream ms)) < AUDIO_WIN_LEN_SAMPLES ->
     feedAudioContent example_Run example_mfcc example_model ms buffer <> Fail OutOfFuel) /\
  (forall ms,
     finishStream example_Run example_mfcc (best_path 2) example_labels example_model ms
     <> Fail OutOfFuel).
Proof.
  assert (H1 : u32 (n_steps example_model * mfcc_feats_per_timestep example_model) <> 0)
    by (vm_compute; discriminate).
  assert (H2 : 0 <= mfcc_feats_per_timestep example_model < 2 ^ 32)
    by (cbn; lia).
  split; [exact H1|]. split; [exact H2|].
  exact (loops_terminate nat example_Run example_mfcc (best_path 2) example_labels
           example_model H1 H2).
Defined.

Lemma zero_steps_spin_witness :
  n_steps stepless_model = 0 /\
  [f32_zero] <> [] /\
  batch_buffer (stream (start stepless_model O)) = [] /\
  processMfccWindow_loop nat example_Run stepless_model 1000 (start stepless_model O)
    [f32_zero]
  = Fail OutOfFuel.
Proof.
  split; [reflexivity|]. split; [discriminate|]. split; [reflexivity|].
  apply (zero_steps_spin nat example_Run stepless_model [f32_zero]).
  - reflexivity.
  - discriminate.
  - reflexivity.
Defined.

(** 900 samples: four windows, three timesteps. *)
Lemma timestep_count_witness :
  wf_model example_model /\
  exists ms1 text ms2,
    feed_chunks example_Run example_mfcc example_model (start example_model O)
      [repeat 1 500%nat; repeat 2 400%nat] = Ret ms1 /\
    finishStream example_Run example_mfcc (best_path 2) example_labels example_model ms1
      = Ret (text, ms2) /\
    length (timesteps (trace ms2)) = 3%nat /\
    let n := length (concat [repeat 1 500%nat; repeat 2 400%nat]) in
    let w := (if n <? 400 then 0 else (n - 240) / 160)%nat in
    length (audio_windows (trace ms1)) = w /\
    length (pushed_vectors (trace ms2))
      = (w / 2 + 1 + Z.to_nat (n_context example_model))%nat /\
    length (timesteps (trace ms2)) = (w / 2 + 1)%nat.
Proof.
  split; [exact example_wf|].
  destruct (feed_chunks example_Run example_mfcc example_model (start example_model O)
              [repeat 1 500%nat; repeat 2 400%nat]) as [ms1|f] eqn:E1;
    [|vm_compute in E1; discriminate E1].
  destruct (finishStream example_Run example_mfcc (best_path 2) example_labels
              example_model ms1) as [[text ms2]|f] eqn:E2.
  - exists ms1, text, ms2. split; [reflexivity|]. split; [exact E2|].
    pose proof (timestep_count nat example_Run example_mfcc (best_path 2) example_labels
                  example_model O [repeat 1 500%nat; repeat 2 400%nat] ms1 text ms2
                  example_wf E1 E2) as H.
    split; [|exact H].
    destruct H as (_ & _ & ->). reflexivity.
  - exfalso. vm_compute in E1. apply Ret_inj in E1. subst ms1.
    vm_compute in E2. discriminate E2.
Defined.

(** 900 samples: four windows, so the last samples give a feature vector. *)
Lemma final_flush_witness :
  wf_model example_model /\
  exists ms1 text ms2,
    feed_chunks example_Run example_mfcc example_model (start example_model O)
      [repeat 1 500%nat; repeat 2 400%nat] = Ret ms1 /\
    finishStream example_Run example_mfcc (best_path 2) example_labels example_model ms1
      = Ret (text, ms2) /\
    length (audio_windows (trace ms1)) = 4%nat /\
    let n := length (audio_windows (trace ms1)) in
    let last_window := audio_buffer (stream ms1) in
    audio_windows (trace ms2) = audio_windows (trace ms1) ++ [last_window] /\
    window_outcomes (trace ms2) = window_outcomes (trace ms1) ++ [Nat.odd n] /\
    pushed_vectors (trace ms2)
      = pushed_vectors (trace ms1)
          ++ (if Nat.odd n then [] else [feature_of example_mfcc last_window])
          ++ repeat zero_buffer (Z.to_nat (n_context example_model)).
Proof.
  split; [exact example_wf|].
  destruct (feed_chunks example_Run example_mfcc example_model (start example_model O)
              [repeat 1 500%nat; repeat 2 400%nat]) as [ms1|f] eqn:E1;
    [|vm_compute in E1; discriminate E1].
  destruct (finishStream example_Run example_mfcc (best_path 2) example_labels
              example_model ms1) as [[text ms2]|f] eqn:E2.
  - exists ms1, text, ms2. split; [reflexivity|]. split; [exact E2|]. split.
    + vm_compute in E1. apply Ret_inj in E1. subst ms1. reflexivity.
    + exact (final_flush nat example_Run example_mfcc (best_path 2) example_labels
               example_model O [repeat 1 500%nat; repeat 2 400%nat] ms1 text ms2
               example_wf E1 E2).
  - exfalso. vm_compute in E1. apply Ret_inj in E1. subst ms1.
    vm_compute in E2. discriminate E2.
Defined.

Lemma logits_append_only_witness :
  exists ms' l,
    feedAudioContent example_Run example_mfcc example_model (start example_model O)
      (repeat 1 1200%nat) = Ret ms' /\
    l <> [] /\
    accumulated_logits (stream ms')
      = accumulated_logits (stream (start example_model O)) ++ l /\
    intermediateDecode nat (best_path 2) example_labels example_model ms'
      = decode (best_path 2) example_labels example_model
          (accumulated_logits (stream (start example_model O)) ++ l).
Proof.
  destruct (feedAudioContent example_Run example_mfcc example_model (start example_model O)
              (repeat 1 1200%nat)) as [ms'|f] eqn:E;
    [|vm_compute in E; discriminate E].
  destruct (proj1 (logits_append_only nat example_Run example_mfcc (best_path 2)
                     example_labels example_model) _ _ _ E) as (l & Hl & Hd).
  exists ms', l. split; [reflexivity|]. split; [|split; assumption].
  intros ->. vm_compute in E. apply Ret_inj in E. subst ms'. discriminate Hl.
Defined.


Lemma speech_to_text_returns_witness :
  wf_model example_model /\
  counters_ok example_model /\
  engine_ok example_Run example_model /\
  (forall inputs, best_path 2 inputs (beam_width example_model) <> []) /\
  (forall w, size w <= AUDIO_WIN_LEN_SAMPLES -> one_frame example_mfcc w) /\
  exists r,
    DS_SpeechToText nat example_Run example_initialize_state example_mfcc (best_path 2)
      example_labels example_model O (repeat 1 900%nat) = Ret r /\
    (fst r = None <-> snd (example_initialize_state O) = false).
Proof.
  split; [exact example_wf|]. split; [exact example_counters_ok|].
  split; [exact example_engine_ok|]. split; [exact example_decoder_ok|].
  split; [exact (fun w _ => example_one_frame w)|].
  exact (speech_to_text_returns nat example_Run example_initialize_state example_mfcc
           (best_path 2) example_labels example_model O (repeat 1 900%nat)
           example_wf example_counters_ok example_engine_ok example_decoder_ok
           (fun w _ => example_one_frame w)).
Defined.

Lemma size_wide_logits : size wide_logits = 2 ^ 31.
Proof. unfold wide_logits. rewrite size_repeat. apply Z2Nat.id. lia. Qed.

Lemma wide_alphabet_wf : wf_model wide_alphabet_model.
Proof. unfold wf_model, wide_alphabet_model, MFCC_FEATURES, INT_MAX. cbn. lia. Qed.

Lemma wide_engine_ok : engine_ok wide_Run wide_alphabet_model.
Proof.
  intros sess input n sess1 out Hn E. unfold wide_Run in E.
  assert (Hout : out = wide_logits) by congruence. subst out.
  rewrite size_wide_logits.
  unfold num_classes, wide_alphabet_model, INT_MAX in *. cbn [alphabet_size n_steps] in *.
  nia.
Qed.

(** The stream that is finished right after its set-up on a batch of
    2147483650 values: the one inference call it makes counts past
    INT_MAX, whatever the engine would answer. *)
Lemma wide_batch_overflow :
  wf_model wide_model /\
  engine_ok failing_Run wide_model /\
  one_frame example_mfcc [] /\
  finishStream failing_Run example_mfcc (best_path 2) example_labels wide_model
    (start wide_model O) = Fail UndefinedBehaviour.
Proof.
  split; [unfold wf_model, wide_model, MFCC_FEATURES; cbn; lia|].
  split; [intros sess input n sess1 out _ E; discriminate E|].
  split; [apply example_one_frame|].
  vm_compute. reflexivity.
Qed.

(** An alphabet of INT_MAX labels: the engine returns the logits of every
    frame, and the first window of the stream already overflows the
    counter of the logits. *)
Lemma int_counter_overflow_witness :
  wf_model wide_alphabet_model /\
  engine_ok wide_Run wide_alphabet_model /\
  full_windows_ok example_mfcc /\
  feedAudioContent wide_Run example_mfcc wide_alphabet_model
    (start wide_alphabet_model O) (repeat 0 400%nat) = Fail UndefinedBehaviour.
Proof.
  split; [exact wide_alphabet_wf|]. split; [exact wide_engine_ok|].
  split; [exact (fun w _ => example_one_frame w)|].
  destruct (int_counter_overflow nat wide_Run example_mfcc wide_alphabet_model
              wide_alphabet_wf) as (_ & _ & Hfirst).
  apply (Hfirst O (repeat 0 400%nat)).
  - reflexivity.
  - reflexivity.
  - exact (fun w _ => example_one_frame w).
  - intros s input n. discriminate.
  - unfold num_classes, wide_alphabet_model, INT_MAX. cbn [alphabet_size]. lia.
  - reflexivity.
Defined.

(** 2000 samples on an engine whose first run fails. *)
Lemma engine_replay_witness :
  exists ms1,
    feed_chunks flaky_Run example_mfcc example_model (start example_model O)
      [repeat 1 1200%nat; repeat 2 800%nat] = Ret ms1 /\
    infer_frames (trace ms1) = [2; 2] /\
    (session ms1, accumulated_logits (stream ms1))
      = replay nat flaky_Run example_model (O, []) (trace ms1) /\
    forall text ms2,
      finishStream flaky_Run example_mfcc (best_path 2) example_labels example_model ms1
        = Ret (text, ms2) ->
      (session ms2, accumulated_logits (stream ms2))
        = replay nat flaky_Run example_model (O, []) (trace ms2) /\
      decode (best_path 2) example_labels example_model
        (snd (replay nat flaky_Run example_model (O, []) (trace ms2))) = Ret text.
Proof.
  destruct (feed_chunks flaky_Run example_mfcc example_model (start example_model O)
              [repeat 1 1200%nat; repeat 2 800%nat]) as [ms1|f] eqn:E.
  - exists ms1. split; [reflexivity|]. split.
    + vm_compute in E. apply Ret_inj in E. subst ms1. reflexivity.
    + exact (engine_replay nat flaky_Run example_mfcc (best_path 2) example_labels
               example_model O [repeat 1 1200%nat; repeat 2 800%nat] ms1 E).
  - vm_compute in E. discriminate E.
Defined.

(** 720 samples: three frames, of which the first and the third are kept. *)
Lemma audio_to_input_vector_witness :
  let aBuffer := map Z.of_nat (seq 0 720) in
  let n_frames := fst (example_signal_mfcc aBuffer 16000 26) in
  let mfcc := snd (example_signal_mfcc aBuffer 16000 26) in
  n_frames = 3 /\
  example_signal_mfcc aBuffer 16000 26 = (n_frames, mfcc) /\
  size mfcc = n_frames * 26 /\
  (n_frames + 1) * ((26 + 1) * (2 * 1 + 1)) <= INT_MAX /\
  let ds_input_length := (n_frames + 1) / 2 in
  let frameSize := 26 * (2 * 1 + 1) in
  let kept :=
    concat (frames (Z.to_nat 26) (2 * Z.to_nat 26) (Z.to_nat ds_input_length) mfcc) in
  let context := repeat f32_zero (Z.to_nat (26 * 1)) in
  DS_AudioToInputVector example_signal_mfcc aBuffer 16000 26 1
  = Ret (concat (frames (Z.to_nat frameSize) (Z.to_nat 26) (Z.to_nat ds_input_length)
                        (context ++ kept ++ context)),
         ds_input_length, frameSize).
Proof.
  intros aBuffer n_frames mfcc.
  assert (Hn : n_frames = 3) by (vm_compute; reflexivity).
  assert (Hcsf : example_signal_mfcc aBuffer 16000 26 = (n_frames, mfcc))
    by (vm_compute; reflexivity).
  assert (Hsize : size mfcc = n_frames * 26) by (vm_compute; reflexivity).
  assert (Hint : (n_frames + 1) * ((26 + 1) * (2 * 1 + 1)) <= INT_MAX)
    by (rewrite Hn; unfold INT_MAX; lia).
  split; [exact Hn|]. split; [exact Hcsf|]. split; [exact Hsize|]. split; [exact Hint|].
  apply (audio_to_input_vector example_signal_mfcc aBuffer 16000 26 1 n_frames mfcc Hcsf);
    try assumption; rewrite ?Hn; lia.
Defined.

(** The same 720 samples through a stream: three windows, the first and
    the third give the feature vectors, the samples left are skipped. *)
Lemma streaming_input_vector_witness :
  let chunks := [map Z.of_nat (seq 0 400); map Z.of_nat (seq 400 320)] in
  let n_frames := fst (example_signal_mfcc (concat chunks) 16000 MFCC_FEATURES) in
  let mfcc := snd (example_signal_mfcc (concat chunks) 16000 MFCC_FEATURES) in
  wf_model example_model /\
  exists ms1 text ms2,
    feed_chunks example_Run example_mfcc example_model (start example_model O) chunks
      = Ret ms1 /\
    finishStream example_Run example_mfcc (best_path 2) example_labels example_model ms1
      = Ret (text, ms2) /\
    example_signal_mfcc (concat chunks) 16000 MFCC_FEATURES = (n_frames, mfcc) /\
    0 <= n_frames /\
    size mfcc = n_frames * MFCC_FEATURES /\
    (n_frames + 1) * ((MFCC_FEATURES + 1) * (2 * n_context example_model + 1)) <= INT_MAX /\
    pushed_vectors (trace ms2)
      = frames (Z.to_nat MFCC_FEATURES) (2 * Z.to_nat MFCC_FEATURES)
               (Z.to_nat ((n_frames + 1) / 2)) mfcc
          ++ repeat zero_buffer (Z.to_nat (n_context example_model)) /\
    exists ds_input,
      DS_AudioToInputVector example_signal_mfcc (concat chunks) 16000 MFCC_FEATURES
        (n_context example_model)
        = Ret (ds_input, Z.of_nat (length (timesteps (trace ms2))),
               mfcc_feats_per_timestep example_model) /\
      concat (timesteps (trace ms2)) = ds_input /\
      sent_frames example_model (trace ms2) = ds_input.
Proof.
  intros chunks n_frames mfcc. split; [exact example_wf|].
  assert (Hn : n_frames = 3) by (vm_compute; reflexivity).
  assert (Hcsf : example_signal_mfcc (concat chunks) 16000 MFCC_FEATURES = (n_frames, mfcc))
    by (vm_compute; reflexivity).
  assert (Hsize : size mfcc = n_frames * MFCC_FEATURES) by (vm_compute; reflexivity).
  assert (Hint : (n_frames + 1) * ((MFCC_FEATURES + 1) * (2 * n_context example_model + 1))
                 <= INT_MAX)
    by (rewrite Hn; unfold INT_MAX, MFCC_FEATURES; cbn; lia).
  destruct (feed_chunks example_Run example_mfcc example_model (start example_model O)
              chunks) as [ms1|f] eqn:E1;
    [|vm_compute in E1; discriminate E1].
  destruct (finishStream example_Run example_mfcc (best_path 2) example_labels
              example_model ms1) as [[text ms2]|f] eqn:E2.
  - assert (Hagree : pushed_vectors (trace ms2)
                     = frames (Z.to_nat MFCC_FEATURES) (2 * Z.to_nat MFCC_FEATURES)
                              (Z.to_nat ((n_frames + 1) / 2)) mfcc
                         ++ repeat zero_buffer (Z.to_nat (n_context example_model))).
    { vm_compute in E1. apply Ret_inj in E1. subst ms1.
      vm_compute in E2. apply Ret_inj in E2. injection E2 as _ <-.
      vm_compute. reflexivity. }
    exists ms1, text, ms2. split; [reflexivity|]. split; [exact E2|].
    split; [exact Hcsf|]. split; [rewrite Hn; lia|]. split; [exact Hsize|].
    split; [exact Hint|]. split; [exact Hagree|].
    apply (streaming_input_vector nat example_Run example_mfcc (best_path 2) example_labels
             example_model example_signal_mfcc O chunks ms1 text ms2 16000 n_frames mfcc
             example_wf E1 E2 Hcsf); try assumption; rewrite Hn; lia.
  - exfalso. vm_compute in E1. apply Ret_inj in E1. subst ms1.
    vm_compute in E2. discriminate E2.
Defined.

Lemma create_model_result_witness :
  exists m,
    DS_CreateModel nat example_InitializeFromFile example_NewSession
      example_ReadBinaryProto example_Create example_alphabet
      (Some "output_graph.pbmm"%string) 26 9 "alphabet.txt"%string 1
      = Ret (OK, Some (m, O)) /\
    m = example_model /\
    (OK = OK <-> Some (m, O) <> None) /\
    alphabet_size m = example_alphabet "alphabet.txt"%string /\
    beam_width m = 1 /\
    exists path is_mmap,
      Some "output_graph.pbmm"%string = Some path /\
      (exists node d1 d2 d3,
         In node (snd (example_ReadBinaryProto is_mmap path)) /\
         input_shape node d1 d2 d3 /\ derived_from m d1 d2 d3) /\
      (forall node values,
         In node (snd (example_ReadBinaryProto is_mmap path)) ->
         node_name node = "logits_shape"%string ->
         attr_value node = Some (IntVector values) ->
         nth_error values 2 = Some (alphabet_size m + 1)).
Proof.
  assert (E : DS_CreateModel nat example_InitializeFromFile example_NewSession
                example_ReadBinaryProto example_Create example_alphabet
                (Some "output_graph.pbmm"%string) 26 9 "alphabet.txt"%string 1
              = Ret (OK, Some (example_model, O)))
    by (vm_compute; reflexivity).
  destruct (create_model_result nat example_InitializeFromFile example_NewSession
              example_ReadBinaryProto example_Create example_alphabet
              26 9 "alphabet.txt"%string 1) as (_ & _ & H3 & H4).
  exists example_model. split; [exact E|]. split; [reflexivity|].
  split; [exact (H3 _ _ _ E)|]. exact (H4 _ _ _ _ E).
Defined.

Lemma example_graph_shapes path is_mmap node d1 d2 d3 :
  Some "output_graph.pb"%string = Some path ->
  In node (snd (example_ReadBinaryProto is_mmap path)) ->
  input_shape node d1 d2 d3 ->
  0 < d1 /\ (exists k, 0 <= k /\ d2 = 2 * k + 1) /\ d3 = MFCC_FEATURES /\
  d1 * (d2 * d3) < 2 ^ 32.
Proof.
  intros _ Hin (Hname & dims & Hs & H1 & H2 & H3).
  cbn in Hin. destruct Hin as [<-|[<-|[<-|[]]]]; cbn in Hname, Hs; try discriminate.
  injection Hs as <-. cbn in H1, H2, H3.
  injection H1 as <-. injection H2 as <-. injection H3 as <-.
  split; [lia|]. split; [exists 1; lia|]. split; [reflexivity|].
  vm_compute. reflexivity.
Qed.

Lemma created_model_wf_witness :
  DS_CreateModel nat example_InitializeFromFile example_NewSession
    example_ReadBinaryProto example_Create example_alphabet
    (Some "output_graph.pb"%string) 26 9 "alphabet.txt"%string 1
    = Ret (OK, Some (example_model, O)) /\
  0 <= example_alphabet "alphabet.txt"%string /\
  wf_model example_model.
Proof.
  assert (E : DS_CreateModel nat example_InitializeFromFile example_NewSession
                example_ReadBinaryProto example_Create example_alphabet
                (Some "output_graph.pb"%string) 26 9 "alphabet.txt"%string 1
              = Ret (OK, Some (example_model, O)))
    by (vm_compute; reflexivity).
  assert (Ha : 0 <= example_alphabet "alphabet.txt"%string)
    by (unfold example_alphabet; lia).
  split; [exact E|]. split; [exact Ha|].
  exact (created_model_wf nat example_InitializeFromFile example_NewSession
           example_ReadBinaryProto example_Create example_alphabet
           (Some "output_graph.pb"%string) 26 9 "alphabet.txt"%string 1 OK example_model O
           E Ha example_graph_shapes).
Defined.
